(** * A shallow embedding of the game client in [game.js]

    The class [GameClient] is embedded as a record of its fields together with
    the browser's table of running intervals; its methods become computations
    in a small state / exception / trace monad.

    Records received from the server are modelled at the types the client
    relies on: a player carries its coordinates, an avatar its table of
    frames.  The canvas is write-only: no method reads it back, so what [draw]
    paints is computed from the state and appears neither in the state nor in
    the trace; with records of these types, and images that the browser has
    loaded or is still loading, none of its canvas calls throws.  The status
    labels of the page are left out.

    Numbers are exact rationals ([Q]): JavaScript's doubles are abstracted to
    the arithmetic they approximate.  [Math.sqrt (d) <= t] is therefore
    rendered as [0 <= t /\ d <= t * t]. *)

From Stdlib Require Import QArith Qminmax Lqa.
From stdpp Require Import gmap strings list fin_maps.

Local Open Scope string_scope.
Local Open Scope list_scope.

(** ** Records received from the server *)

Module Player.
Record t := mk
  { id : string; x : Q; y : Q; facing : string;
    animationFrame : nat; username : string; avatar : string }.
End Player.

(** An avatar as the server defines it: [frames] gives, for each direction,
    the images of its animation. *)
Module Avatar.
Record t := mk { name : string; frames : list (string * list string) }.
End Avatar.

(** An inbound message after [JSON.parse].  A field that the JSON object does
    not carry is [None]; [success] is the truthiness of the field. *)
Module Msg.
Record t := mk
  { action : option string;
    success : bool;
    playerId : option string;
    players : option (list (string * Player.t));
    avatars : option (list (string * Avatar.t));
    player : option Player.t;
    avatar : option Avatar.t;
    error : option string }.
End Msg.

(** What [JSON.parse] can return, as far as [handleMessage] can tell the
    results apart: [null] (reading a property throws), a value without own
    properties of interest (numbers, strings, booleans, arrays), an object. *)
Inductive JSValue :=
| JSNull
| JSPrimitive
| JSObject (m : Msg.t).

(** ** JavaScript's [Map]: entries in insertion order, keys unique *)

Section JSMap.
Context {V : Type}.

Fixpoint Map_get (k : string) (m : list (string * V)) : option V :=
  match m with
  | [] => None
  | (k', v) :: m' => if String.eqb k k' then Some v else Map_get k m'
  end.

(** [set] on a present key overwrites in place, on a fresh key appends. *)
Fixpoint Map_set (k : string) (v : V) (m : list (string * V)) : list (string * V) :=
  match m with
  | [] => [(k, v)]
  | (k', v') :: m' =>
      if String.eqb k k' then (k, v) :: m' else (k', v') :: Map_set k v m'
  end.

Fixpoint Map_delete (k : string) (m : list (string * V)) : list (string * V) :=
  match m with
  | [] => []
  | (k', v') :: m' =>
      if String.eqb k k' then Map_delete k m' else (k', v') :: Map_delete k m'
  end.

Definition Map_keys (m : list (string * V)) : list string := m.*1.

Definition Map_wf (m : list (string * V)) : Prop := NoDup (Map_keys m).
End JSMap.

(** ** Observable effects *)

Inductive ReadyState := CONNECTING | OPEN | CLOSING | CLOSED.

Inductive Outbound :=
| join_game (username : string)
| move (direction : string)
| chat (message : string).

(** The trace records the commands the core issues ([MoveCommand], [Greet],
    [Farewell]: one per invocation of [sendMoveCommand], [askPlayerToGreet],
    [askPlayerToSayGoodbye]) and, separately, what reaches the socket. *)
Inductive Effect :=
| MoveCommand (direction : string)
| Greet (peer : string)
| Farewell (peer : string)
| SocketSend (m : Outbound)
| ShowMessage (text : string)
| ConsoleLog (text : string)
| ConsoleError (text : string).

(** ** The client *)

Record GameClient := mkGameClient
  { canvasWidth : Q;
    canvasHeight : Q;
    worldWidth : Q;
    worldHeight : Q;
    playerId : option string;
    playerPosition : Q * Q;
    players : list (string * Player.t);
    avatars : gmap string Avatar.t;
    viewport : Q * Q;
    socket : option ReadyState;
    activeKeys : gset string;
    isMoving : bool;
    movementInterval : option nat;
    greetedPlayers : gset string;
    proximityThreshold : Q;
    playerProximityState : gmap string bool;  (* true: 'near', false: 'far' *)
    (* the browser's timers: next fresh handle, running intervals with the
       direction their callback re-sends *)
    nextHandle : nat;
    intervals : list (nat * string) }.

Definition with_canvas (w h : Q) (c : GameClient) : GameClient :=
  mkGameClient w h (worldWidth c) (worldHeight c) (playerId c)
    (playerPosition c) (players c) (avatars c) (viewport c) (socket c)
    (activeKeys c) (isMoving c) (movementInterval c) (greetedPlayers c)
    (proximityThreshold c) (playerProximityState c) (nextHandle c) (intervals c).

Definition with_playerId (v : option string) (c : GameClient) : GameClient :=
  mkGameClient (canvasWidth c) (canvasHeight c) (worldWidth c) (worldHeight c) v
    (playerPosition c) (players c) (avatars c) (viewport c) (socket c)
    (activeKeys c) (isMoving c) (movementInterval c) (greetedPlayers c)
    (proximityThreshold c) (playerProximityState c) (nextHandle c) (intervals c).

Definition with_playerPosition (v : Q * Q) (c : GameClient) : GameClient :=
  mkGameClient (canvasWidth c) (canvasHeight c) (worldWidth c) (worldHeight c)
    (playerId c) v (players c) (avatars c) (viewport c) (socket c)
    (activeKeys c) (isMoving c) (movementInterval c) (greetedPlayers c)
    (proximityThreshold c) (playerProximityState c) (nextHandle c) (intervals c).

Definition with_players (v : list (string * Player.t)) (c : GameClient) : GameClient :=
  mkGameClient (canvasWidth c) (canvasHeight c) (worldWidth c) (worldHeight c)
    (playerId c) (playerPosition c) v (avatars c) (viewport c) (socket c)
    (activeKeys c) (isMoving c) (movementInterval c) (greetedPlayers c)
    (proximityThreshold c) (playerProximityState c) (nextHandle c) (intervals c).

Definition with_avatars (v : gmap string Avatar.t) (c : GameClient) : GameClient :=
  mkGameClient (canvasWidth c) (canvasHeight c) (worldWidth c) (worldHeight c)
    (playerId c) (playerPosition c) (players c) v (viewport c) (socket c)
    (activeKeys c) (isMoving c) (movementInterval c) (greetedPlayers c)
    (proximityThreshold c) (playerProximityState c) (nextHandle c) (intervals c).

Definition with_viewport (v : Q * Q) (c : GameClient) : GameClient :=
  mkGameClient (canvasWidth c) (canvasHeight c) (worldWidth c) (worldHeight c)
    (playerId c) (playerPosition c) (players c) (avatars c) v (socket c)
    (activeKeys c) (isMoving c) (movementInterval c) (greetedPlayers c)
    (proximityThreshold c) (playerProximityState c) (nextHandle c) (intervals c).

Definition with_socket (v : option ReadyState) (c : GameClient) : GameClient :=
  mkGameClient (canvasWidth c) (canvasHeight c) (worldWidth c) (worldHeight c)
    (playerId c) (playerPosition c) (players c) (avatars c) (viewport c) v
    (activeKeys c) (isMoving c) (movementInterval c) (greetedPlayers c)
    (proximityThreshold c) (playerProximityState c) (nextHandle c) (intervals c).

Definition with_activeKeys (v : gset string) (c : GameClient) : GameClient :=
  mkGameClient (canvasWidth c) (canvasHeight c) (worldWidth c) (worldHeight c)
    (playerId c) (playerPosition c) (players c) (avatars c) (viewport c) (socket c)
    v (isMoving c) (movementInterval c) (greetedPlayers c)
    (proximityThreshold c) (playerProximityState c) (nextHandle c) (intervals c).

Definition with_isMoving (v : bool) (c : GameClient) : GameClient :=
  mkGameClient (canvasWidth c) (canvasHeight c) (worldWidth c) (worldHeight c)
    (playerId c) (playerPosition c) (players c) (avatars c) (viewport c) (socket c)
    (activeKeys c) v (movementInterval c) (greetedPlayers c)
    (proximityThreshold c) (playerProximityState c) (nextHandle c) (intervals c).

Definition with_movementInterval (v : option nat) (c : GameClient) : GameClient :=
  mkGameClient (canvasWidth c) (canvasHeight c) (worldWidth c) (worldHeight c)
    (playerId c) (playerPosition c) (players c) (avatars c) (viewport c) (socket c)
    (activeKeys c) (isMoving c) v (greetedPlayers c)
    (proximityThreshold c) (playerProximityState c) (nextHandle c) (intervals c).

Definition with_greetedPlayers (v : gset string) (c : GameClient) : GameClient :=
  mkGameClient (canvasWidth c) (canvasHeight c) (worldWidth c) (worldHeight c)
    (playerId c) (playerPosition c) (players c) (avatars c) (viewport c) (socket c)
    (activeKeys c) (isMoving c) (movementInterval c) v
    (proximityThreshold c) (playerProximityState c) (nextHandle c) (intervals c).

Definition with_playerProximityState (v : gmap string bool) (c : GameClient) : GameClient :=
  mkGameClient (canvasWidth c) (canvasHeight c) (worldWidth c) (worldHeight c)
    (playerId c) (playerPosition c) (players c) (avatars c) (viewport c) (socket c)
    (activeKeys c) (isMoving c) (movementInterval c) (greetedPlayers c)
    (proximityThreshold c) v (nextHandle c) (intervals c).

Definition with_timers (n : nat) (v : list (nat * string)) (c : GameClient) : GameClient :=
  mkGameClient (canvasWidth c) (canvasHeight c) (worldWidth c) (worldHeight c)
    (playerId c) (playerPosition c) (players c) (avatars c) (viewport c) (socket c)
    (activeKeys c) (isMoving c) (movementInterval c) (greetedPlayers c)
    (proximityThreshold c) (playerProximityState c) n v.

(** The state the constructor leaves behind once [init] has run in a window
    of the given inner size: [connectToServer] has created the socket, which
    is still connecting. *)
Definition constructor (innerWidth innerHeight : Q) : GameClient :=
  {| canvasWidth := innerWidth; canvasHeight := innerHeight;
     worldWidth := 2048; worldHeight := 2048;
     playerId := None; playerPosition := (0, 0)%Q;
     players := []; avatars := ∅;
     viewport := (0, 0)%Q;
     socket := Some CONNECTING;
     activeKeys := ∅; isMoving := false; movementInterval := None;
     greetedPlayers := ∅; proximityThreshold := 100;
     playerProximityState := ∅;
     nextHandle := 1; intervals := [] |}.

(** ** The monad: state, exceptions that keep the writes made so far, trace *)

Inductive Outcome (A : Type) :=
| Ok (a : A)
| Throw (e : string).
Arguments Ok {A} a.
Arguments Throw {A} e.

Definition M (A : Type) : Type := GameClient -> Outcome A * GameClient * list Effect.

Definition ret {A} (a : A) : M A := fun c => (Ok a, c, []).

Definition bind {A B} (m : M A) (k : A -> M B) : M B := fun c =>
  match m c with
  | (Ok a, c1, t1) => let '(r, c2, t2) := k a c1 in (r, c2, t1 ++ t2)
  | (Throw e, c1, t1) => (Throw e, c1, t1)
  end.

#[export] Instance M_ret : MRet M := @ret.
#[export] Instance M_bind : MBind M := fun A B k m => bind m k.

Definition get {A} (f : GameClient -> A) : M A := fun c => (Ok (f c), c, []).
Definition modify (f : GameClient -> GameClient) : M unit := fun c => (Ok tt, f c, []).
Definition emit (e : Effect) : M unit := fun c => (Ok tt, c, [e]).
Definition throw {A} (e : string) : M A := fun c => (Throw e, c, []).

(** [try { m } catch (error) { h error }] *)
Definition try_catch (m : M unit) (h : string -> M unit) : M unit := fun c =>
  match m c with
  | (Ok a, c1, t1) => (Ok a, c1, t1)
  | (Throw e, c1, t1) => let '(r, c2, t2) := h e c1 in (r, c2, t1 ++ t2)
  end.

(** [for (const entry of l) { body entry }] *)
Fixpoint for_of {A} (l : list A) (body : A -> M unit) : M unit :=
  match l with
  | [] => ret tt
  | a :: l' => body a ;; for_of l' body
  end.

Definition when (b : bool) (m : M unit) : M unit := if b then m else ret tt.

Definition state_of {A} (r : Outcome A * GameClient * list Effect) : GameClient := r.1.2.
Definition trace_of {A} (r : Outcome A * GameClient * list Effect) : list Effect := r.2.
Definition outcome_of {A} (r : Outcome A * GameClient * list Effect) : Outcome A := r.1.1.

(** ** Browser primitives *)

(** A timer handle is a positive number; [if (handle)] tests for that. *)
Definition truthy_handle (h : option nat) : bool :=
  match h with
  | Some (S _) => true
  | _ => false
  end.

Definition setInterval (direction : string) : M nat := fun c =>
  (Ok (nextHandle c),
   with_timers (S (nextHandle c)) (intervals c ++ [(nextHandle c, direction)]) c,
   []).

(** [setTimeout] draws its handle from the same pool; the callbacks of the
    client's timeouts only remove a banner from the page. *)
Definition setTimeout : M nat := fun c =>
  (Ok (nextHandle c), with_timers (S (nextHandle c)) (intervals c) c, []).

Definition clearInterval (h : option nat) : M unit :=
  modify (fun c =>
    with_timers (nextHandle c) (filter (λ e, Some e.1 ≠ h) (intervals c)) c).

Definition socket_is_open (c : GameClient) : bool :=
  match socket c with
  | Some OPEN => true
  | _ => false
  end.

(** [this.socket.send(JSON.stringify(message))] *)
Definition socket_send (m : Outbound) : M unit :=
  s ← get socket;
  match s with
  | None => throw "TypeError"
  | Some CONNECTING => throw "InvalidStateError"
  | Some OPEN => emit (SocketSend m)
  | Some _ => ret tt
  end.

(** [Object.entries(o)] throws on [undefined]. *)
Definition Object_entries {A} (o : option (list (string * A))) : M (list (string * A)) :=
  match o with
  | Some l => ret l
  | None => throw "TypeError"
  end.

(** Reading a property of [o] throws when [o] is [undefined]. *)
Definition property_of {A} (o : option A) : M A :=
  match o with
  | Some a => ret a
  | None => throw "TypeError"
  end.

(** ** Methods of [GameClient] *)

Definition updateViewport : M unit :=
  modify (fun c =>
    let centerX := ((playerPosition c).1 - canvasWidth c / 2)%Q in
    let centerY := ((playerPosition c).2 - canvasHeight c / 2)%Q in
    with_viewport
      (Qmax 0 (Qmin centerX (worldWidth c - canvasWidth c)),
       Qmax 0 (Qmin centerY (worldHeight c - canvasHeight c))) c).

Definition showMessage (text : string) : M unit :=
  emit (ShowMessage text);;
  _ ← setTimeout;
  ret tt.

Definition sendMoveCommand (direction : string) : M unit :=
  emit (MoveCommand direction);;
  open ← get socket_is_open;
  if negb open then ret tt
  else
    socket_send (move direction);;
    emit (ConsoleLog "Sent move command:").

Definition getPrimaryDirection : M string :=
  get (fun c =>
    if bool_decide ("ArrowUp" ∈ activeKeys c) then "up"
    else if bool_decide ("ArrowDown" ∈ activeKeys c) then "down"
    else if bool_decide ("ArrowLeft" ∈ activeKeys c) then "left"
    else if bool_decide ("ArrowRight" ∈ activeKeys c) then "right"
    else "stop").

Definition startContinuousMovement : M unit :=
  h ← get movementInterval;
  when (truthy_handle h) (clearInterval h);;
  direction ← getPrimaryDirection;
  if negb (String.eqb direction "") && negb (String.eqb direction "stop") then
    sendMoveCommand direction;;
    modify (with_isMoving true);;
    h' ← setInterval direction;
    modify (with_movementInterval (Some h'))
  else ret tt.

Definition stopContinuousMovement : M unit :=
  h ← get movementInterval;
  when (truthy_handle h)
    (clearInterval h;;
     modify (with_movementInterval None));;
  moving ← get isMoving;
  when moving
    (sendMoveCommand "stop";;
     modify (with_isMoving false)).

Definition is_arrow (code : string) : bool :=
  bool_decide (code ∈ ["ArrowUp"; "ArrowDown"; "ArrowLeft"; "ArrowRight"]).

Definition handleKeyDown (code : string) : M unit :=
  when (is_arrow code)
    (modify (fun c => with_activeKeys ({[code]} ∪ activeKeys c) c);;
     startContinuousMovement).

Definition handleKeyUp (code : string) : M unit :=
  when (is_arrow code)
    (modify (fun c => with_activeKeys (activeKeys c ∖ {[code]}) c);;
     n ← get (fun c => size (activeKeys c));
     if Nat.eqb n 0 then stopContinuousMovement
     else startContinuousMovement).

Definition sayHello : M unit :=
  open ← get socket_is_open;
  if negb open then emit (ConsoleLog "Not connected to server")
  else
    socket_send (chat "Hello!");;
    emit (ConsoleLog "Said hello!");;
    showMessage "Roger: Hello World, thanks for playing!".

Definition handleEnterKey : M unit := sayHello.

(** [dx * dx + dy * dy], the argument of [Math.sqrt] in [calculateDistance] *)
Definition calculateDistance_squared (player1 player2 : Player.t) : Q :=
  let dx := (Player.x player1 - Player.x player2)%Q in
  let dy := (Player.y player1 - Player.y player2)%Q in
  (dx * dx + dy * dy)%Q.

(** [calculateDistance (player1, player2) <= threshold] *)
Definition distance_le (player1 player2 : Player.t) (threshold : Q) : bool :=
  Qle_bool 0 threshold
  && Qle_bool (calculateDistance_squared player1 player2) (threshold * threshold).

Definition askPlayerToGreet (player : Player.t) : M unit :=
  open ← get socket_is_open;
  if negb open then ret tt
  else
    socket_send (chat "hii! nice to meet you Roger");;
    emit (ConsoleLog (Player.username player +:+ " greeted Roger!"));;
    showMessage (Player.username player +:+ ": hii! nice to meet you Roger").

Definition askPlayerToSayGoodbye (player : Player.t) : M unit :=
  open ← get socket_is_open;
  if negb open then ret tt
  else
    socket_send (chat "bye Roger!");;
    emit (ConsoleLog (Player.username player +:+ " said goodbye to Roger!"));;
    showMessage (Player.username player +:+ ": bye Roger!").

Definition set_proximity (playerId : string) (near : bool) : M unit :=
  modify (fun c =>
    with_playerProximityState (<[playerId := near]> (playerProximityState c)) c).

(** The body of the loop of [checkProximityGreetings] for one registry entry;
    [me] is [this.playerId]. *)
Definition proximity_body (me : string) (ourPlayer : Player.t)
    (entry : string * Player.t) : M unit :=
  let '(playerId, player) := entry in
  if String.eqb playerId me then ret tt
  else
    threshold ← get proximityThreshold;
    let isNear := distance_le ourPlayer player threshold in
    currentState ← get (fun c => default false (playerProximityState c !! playerId));
    greeted ← get (fun c => bool_decide (playerId ∈ greetedPlayers c));
    if isNear && negb currentState && negb greeted then
      emit (Greet playerId);;
      askPlayerToGreet player;;
      modify (fun c => with_greetedPlayers ({[playerId]} ∪ greetedPlayers c) c);;
      set_proximity playerId true
    else if negb isNear && currentState then
      emit (Farewell playerId);;
      askPlayerToSayGoodbye player;;
      set_proximity playerId false
    else if isNear then set_proximity playerId true
    else set_proximity playerId false.

(** [!this.playerId]: [null] and the empty string are falsy. *)
Definition truthy_id (o : option string) : option string :=
  match o with
  | Some "" => None
  | Some s => Some s
  | None => None
  end.

Definition checkProximityGreetings : M unit :=
  me ← get (fun c => truthy_id (playerId c));
  match me with
  | None => ret tt
  | Some me =>
      ps ← get players;
      match Map_get me ps with
      | None => ret tt
      | Some ourPlayer => for_of ps (proximity_body me ourPlayer)
      end
  end.

(** ** Painting *)

(** [screenX < -50 || screenX > this.canvas.width + 50 || ...] *)
Definition off_screen (c : GameClient) (player : Player.t) : bool :=
  let screenX := (Player.x player - (viewport c).1)%Q in
  let screenY := (Player.y player - (viewport c).2)%Q in
  negb (Qle_bool (-50) screenX)
  || negb (Qle_bool screenX (canvasWidth c + 50))
  || negb (Qle_bool (-50) screenY)
  || negb (Qle_bool screenY (canvasHeight c + 50)).

(** The arguments of [ctx.drawImage], and whether [ctx.scale (-1, 1)] is in
    force when it is called. *)
Record Sprite := mkSprite
  { sprite_x : Q; sprite_y : Q; sprite_width : Q; sprite_height : Q;
    sprite_mirrored : bool }.

Definition drawAvatarImage (x y : Q) (flipHorizontal : bool) : Sprite :=
  let avatarSize := 32%Q in
  let centerX := (x - avatarSize / 2)%Q in
  let centerY := (y - avatarSize)%Q in
  if flipHorizontal then
    mkSprite (- centerX - avatarSize) centerY avatarSize avatarSize true
  else mkSprite centerX centerY avatarSize avatarSize false.

(** [frameData[frameIndex]] when it is truthy. *)
Definition frame_at (frameData : list string) (frameIndex : nat) : option string :=
  match frameData !! frameIndex with
  | Some "" => None
  | Some imageData => Some imageData
  | None => None
  end.

(** [drawPlayer]: the image, the sprite and the position of the name label
    when the player is painted, [None] on each early return. *)
Definition drawPlayer (c : GameClient) (player : Player.t)
    : option (string * Sprite * (string * Q * Q)) :=
  match avatars c !! Player.avatar player with
  | None => None
  | Some avatar =>
      let screenX := (Player.x player - (viewport c).1)%Q in
      let screenY := (Player.y player - (viewport c).2)%Q in
      if off_screen c player then None
      else
        let direction := Player.facing player in
        let frameIndex := Player.animationFrame player in
        match Map_get direction (Avatar.frames avatar) with
        | None => None
        | Some frameData =>
            match frame_at frameData frameIndex with
            | None => None
            | Some imageData =>
                Some (imageData,
                      drawAvatarImage screenX screenY (String.eqb direction "west"),
                      (Player.username player, screenX, (screenY - 40)%Q))
            end
        end
  end.

(** [drawPlayers]: the players painted, in the order of the registry. *)
Definition drawPlayers (c : GameClient) : list (string * Sprite * (string * Q * Q)) :=
  omap (λ entry, drawPlayer c entry.2) (players c).

(** The source rectangle [ctx.drawImage] cuts out of the world map. *)
Definition world_source (c : GameClient) : Q * Q * Q * Q :=
  ((viewport c).1, (viewport c).2, canvasWidth c, canvasHeight c).

(** [draw]: [this.worldImage] is the [Image] that [init] created, so the early
    return is never taken.  The canvas is cleared, the window of the world map
    and the players are painted, then the proximity tick runs.  The painting
    is a read of the client; it does not throw on the records typed above, so
    the tick always runs.  An avatar stored without its [frames], or a world
    image that failed to load, would make a canvas call throw before the
    tick: such a client is not among the states of this model, which
    therefore does not tell whether the listeners that call [draw] outside a
    [try] return. *)
Definition draw : M unit :=
  _ ← get world_source;
  _ ← get drawPlayers;
  checkProximityGreetings.

(** [this.players.get(this.playerId)]: no key is [null] or [undefined]. *)
Definition get_ourPlayer (c : GameClient) : option Player.t :=
  match playerId c with
  | Some me => Map_get me (players c)
  | None => None
  end.

Definition handleJoinGame (message : Msg.t) : M unit :=
  if Msg.success message then
    modify (with_playerId (Msg.playerId message));;
    entries ← Object_entries (Msg.players message);
    for_of entries (λ '(playerId, player),
      modify (fun c => with_players (Map_set playerId player (players c)) c));;
    entries ← Object_entries (Msg.avatars message);
    for_of entries (λ '(avatarName, avatar),
      modify (fun c => with_avatars (<[avatarName := avatar]> (avatars c)) c));;
    ourPlayer ← get get_ourPlayer;
    match ourPlayer with
    | Some ourPlayer =>
        modify (with_playerPosition (Player.x ourPlayer, Player.y ourPlayer));;
        updateViewport
    | None => ret tt
    end;;
    emit (ConsoleLog "Successfully joined game as");;
    draw
  else emit (ConsoleError "Failed to join game:").

Definition handlePlayersMoved (message : Msg.t) : M unit :=
  entries ← Object_entries (Msg.players message);
  for_of entries (λ '(id, player),
    modify (fun c => with_players (Map_set id player (players c)) c);;
    me ← get playerId;
    when (bool_decide (Some id = me))
      (modify (with_playerPosition (Player.x player, Player.y player));;
       updateViewport));;
  draw.

Definition handlePlayerJoined (message : Msg.t) : M unit :=
  player ← property_of (Msg.player message);
  modify (fun c => with_players (Map_set (Player.id player) player (players c)) c);;
  avatar ← property_of (Msg.avatar message);
  modify (fun c => with_avatars (<[Avatar.name avatar := avatar]> (avatars c)) c);;
  emit (ConsoleLog "Player joined:");;
  draw.

(** [delete (undefined)] removes nothing: every key is a string. *)
Definition handlePlayerLeft (message : Msg.t) : M unit :=
  match Msg.playerId message with
  | Some playerId =>
      modify (fun c => with_players (Map_delete playerId (players c)) c);;
      modify (fun c => with_greetedPlayers (greetedPlayers c ∖ {[playerId]}) c);;
      modify (fun c =>
        with_playerProximityState (delete playerId (playerProximityState c)) c)
  | None => ret tt
  end;;
  emit (ConsoleLog "Player left:");;
  draw.

Definition handleMessage (message : JSValue) : M unit :=
  emit (ConsoleLog "Received message:");;
  match message with
  | JSNull => throw "TypeError"
  | JSPrimitive => emit (ConsoleLog "Unknown message type:")
  | JSObject message =>
      match Msg.action message with
      | Some action =>
          if String.eqb action "join_game" then handleJoinGame message
          else if String.eqb action "players_moved" then handlePlayersMoved message
          else if String.eqb action "player_joined" then handlePlayerJoined message
          else if String.eqb action "player_left" then handlePlayerLeft message
          else emit (ConsoleLog "Unknown message type:")
      | None => emit (ConsoleLog "Unknown message type:")
      end
  end.

(** [socket.onmessage]; [parsed] is what [JSON.parse (event.data)] yields,
    [None] when it throws. *)
Definition onmessage (parsed : option JSValue) : M unit :=
  try_catch
    (match parsed with
     | Some message => handleMessage message
     | None => throw "SyntaxError"
     end)
    (fun _ => emit (ConsoleError "Error parsing message:")).

Definition joinGame : M unit := socket_send (join_game "Roger").

Definition onopen : M unit :=
  emit (ConsoleLog "Connected to game server");;
  joinGame.

Definition onclose : M unit := emit (ConsoleLog "Disconnected from game server").

Definition onerror : M unit := emit (ConsoleError "WebSocket error:").

(** The callback of a running interval re-sends its direction. *)
Definition interval_callback (h : nat) : M unit :=
  running ← get intervals;
  match list_find (λ e, e.1 = h) running with
  | Some (_, (_, direction)) => sendMoveCommand direction
  | None => ret tt
  end.

(** ** Events delivered by the browser, one at a time *)

Inductive Event :=
| SocketOpen
| SocketClosing
| SocketClose
| SocketError
| SocketMessage (parsed : option JSValue)
| KeyDown (code key : string)
| KeyUp (code : string)
| Click
| Resize (innerWidth innerHeight : Q)
| WorldImageLoad
| IntervalFire (handle : nat).

Definition handleEvent (e : Event) : M unit :=
  match e with
  | SocketOpen => modify (with_socket (Some OPEN));; onopen
  | SocketClosing => modify (with_socket (Some CLOSING))
  | SocketClose => modify (with_socket (Some CLOSED));; onclose
  | SocketError => onerror
  | SocketMessage parsed => onmessage parsed
  | KeyDown code key =>
      handleKeyDown code;;
      when (String.eqb key "Enter") handleEnterKey
  | KeyUp code => handleKeyUp code
  | Click => emit (ConsoleLog "Clicked at:")
  | Resize w h => modify (with_canvas w h);; draw
  | WorldImageLoad => draw
  | IntervalFire h => interval_callback h
  end.

(** An exception that escapes a handler is reported by the browser; the
    writes made before it stay. *)
Definition dispatch (e : Event) (c : GameClient) : GameClient * list Effect :=
  let r := handleEvent e c in (state_of r, trace_of r).

Fixpoint run (es : list Event) (c : GameClient) : GameClient * list Effect :=
  match es with
  | [] => (c, [])
  | e :: es' =>
      let '(c1, t1) := dispatch e c in
      let '(c2, t2) := run es' c1 in
      (c2, t1 ++ t2)
  end.

(** ** Vocabulary of the properties *)

(** Following the specification's words: [v] clamped to the interval from
    [lo] to [hi]; when the interval is empty the lower bound wins. *)
Definition clamp (v lo hi : Q) : Q :=
  if Qle_bool lo hi then
    if Qle_bool v lo then lo else if Qle_bool hi v then hi else v
  else lo.

(** A client that only has a world, a canvas and a position. *)
Definition camera (worldW worldH viewW viewH x y : Q) : GameClient :=
  mkGameClient viewW viewH worldW worldH None (x, y) [] ∅ (0, 0)%Q None ∅ false
    None ∅ 100 ∅ 1 [].

#[export] Instance Outbound_eq_dec : EqDecision Outbound.
Proof. solve_decision. Defined.

#[export] Instance Effect_eq_dec : EqDecision Effect.
Proof. solve_decision. Defined.

(** Projections of a trace. *)
Definition greets (peer : string) (t : list Effect) : nat :=
  length (filter (λ e, e = Greet peer) t).

Definition farewells (peer : string) (t : list Effect) : nat :=
  length (filter (λ e, e = Farewell peer) t).

Definition commands (t : list Effect) : list string :=
  omap (λ e, match e with MoveCommand d => Some d | _ => None end) t.

Definition sent (t : list Effect) : list Outbound :=
  omap (λ e, match e with SocketSend m => Some m | _ => None end) t.

(** What one evaluation tick sees of a peer: [None] when the tick skips it
    (no local identity, no local record, the peer is the local player or is
    not in the registry), otherwise the stored state ([true]: near) and
    whether the peer is within the threshold now. *)
Definition peer_view (c : GameClient) (peer : string) : option (bool * bool) :=
  match truthy_id (playerId c) with
  | None => None
  | Some me =>
      match Map_get me (players c) with
      | None => None
      | Some ourPlayer =>
          if String.eqb peer me then None
          else
            match Map_get peer (players c) with
            | None => None
            | Some player =>
                Some (default false (playerProximityState c !! peer),
                      distance_le ourPlayer player (proximityThreshold c))
            end
      end
  end.

Definition far_to_near (c : GameClient) (peer : string) : bool :=
  bool_decide (peer_view c peer = Some (false, true)).

Definition near_to_far (c : GameClient) (peer : string) : bool :=
  bool_decide (peer_view c peer = Some (true, false)).

Definition greeted (c : GameClient) (peer : string) : bool :=
  bool_decide (peer ∈ greetedPlayers c).

(** The event is a [player_left] message for [peer]. *)
Definition departure (peer : string) (e : Event) : bool :=
  match e with
  | SocketMessage (Some (JSObject m)) =>
      bool_decide (Msg.action m = Some "player_left")
      && bool_decide (Msg.playerId m = Some peer)
  | _ => false
  end.

(** Following the specification's words: the first held key in the order
    up, down, left, right, else stop. *)
Definition priority : list (string * string) :=
  [("ArrowUp", "up"); ("ArrowDown", "down"); ("ArrowLeft", "left"); ("ArrowRight", "right")].

Definition primaryDirection (held : gset string) : string :=
  match list_find (λ kd, kd.1 ∈ held) priority with
  | Some (_, (_, direction)) => direction
  | None => "stop"
  end.

(** The direction being re-sent: that of the interval [movementInterval]
    refers to, if it is running. *)
Definition sent_direction (c : GameClient) : option string :=
  match movementInterval c with
  | Some h =>
      match list_find (λ e, e.1 = h) (intervals c) with
      | Some (_, (_, direction)) => Some direction
      | None => None
      end
  | None => None
  end.

(** Following the specification's words for a key-down: the command is sent
    only when the recomputed direction differs from the one being sent;
    otherwise nothing is sent and the timer is left running untouched. *)
Definition keydown_edge_triggered (c : GameClient) (code : string) : Prop :=
  let r := handleKeyDown code c in
  let direction := primaryDirection ({[code]} ∪ activeKeys c) in
  if bool_decide (sent_direction c = Some direction) then
    commands (trace_of r) = [] /\ intervals (state_of r) = intervals c
  else commands (trace_of r) = [direction].

(** Following the specification's words for a malformed message: dropped
    without any write to the state. *)
Definition dropped_unchanged (c : GameClient) (parsed : option JSValue) : Prop :=
  state_of (onmessage parsed c) = c.

(** Invariants of the reachable states. *)
Record timers_ok (c : GameClient) : Prop :=
  { handles_positive : 1 <= nextHandle c;
    handles_fresh : Forall (λ e, 1 <= e.1 < nextHandle c) (intervals c);
    one_interval : Forall (λ e, movementInterval c = Some e.1) (intervals c);
    one_handle : NoDup (intervals c).*1 }.

Record keys_ok (c : GameClient) : Prop :=
  { keys_arrows : ∀ k, k ∈ activeKeys c → is_arrow k = true;
    keys_moving : activeKeys c ≠ ∅ → isMoving c = true;
    keys_sending :
      activeKeys c ≠ ∅ → sent_direction c = Some (primaryDirection (activeKeys c)) }.

Definition input_ok (c : GameClient) : Prop := timers_ok c /\ keys_ok c.

Definition registry_ok (c : GameClient) : Prop := Map_wf (players c).

(** ** A concrete session, used to exercise the statements *)

Definition peer_at (id : string) (x y : Q) : Player.t :=
  Player.mk id x y "south" 0 id "knight".

Definition knight : Avatar.t := Avatar.mk "knight" [("south", ["frame0"])].

(** The server's answer to [join_game]: we are ["me"] at the origin, ["p2"]
    stands 150 away. *)
Definition roster : Msg.t :=
  Msg.mk (Some "join_game") true (Some "me")
    (Some [("me", peer_at "me" 0 0); ("p2", peer_at "p2" 150 0)])
    (Some [("knight", knight)]) None None None.

(** A [players_moved] message carrying one record. *)
Definition player_update (id : string) (p : Player.t) : Msg.t :=
  Msg.mk (Some "players_moved") false None (Some [(id, p)]) None None None None.

Definition moved (id : string) (x y : Q) : Msg.t := player_update id (peer_at id x y).

Definition departed (id : string) : Msg.t :=
  Msg.mk (Some "player_left") false (Some id) None None None None None.

Definition inbound (m : Msg.t) : Event := SocketMessage (Some (JSObject m)).

Definition joined : GameClient :=
  (run [SocketOpen; inbound roster] (constructor 800 600)).1.

(** ["p2"] comes within range, walks away, comes back. *)
Definition approach_leave_return : list Event :=
  [inbound (moved "p2" 90 0); inbound (moved "p2" 120 0); inbound (moved "p2" 80 0)].

(** A client in which ["p2"] was greeted and is near, whose registry now puts
    it out of range; the next tick has not run yet. *)
Definition about_to_part : GameClient :=
  with_players (Map_set "p2" (peer_at "p2" 120 0) (players joined))
    (run [inbound (moved "p2" 90 0)] joined).1.

(** A client whose socket has closed, with ["p2"] now in range and the tick
    still to run. *)
Definition about_to_meet_offline : GameClient :=
  with_players (Map_set "p2" (peer_at "p2" 90 0) (players joined))
    (run [SocketClose] joined).1.

(** Following the specification's words: a message object lacks a field its
    action requires. *)
Definition missing_required_field (m : Msg.t) : bool :=
  match Msg.action m with
  | None => true
  | Some action =>
      if String.eqb action "join_game" then
        Msg.success m
        && negb (bool_decide (is_Some (Msg.playerId m))
                 && bool_decide (is_Some (Msg.players m))
                 && bool_decide (is_Some (Msg.avatars m)))
      else if String.eqb action "players_moved" then
        negb (bool_decide (is_Some (Msg.players m)))
      else if String.eqb action "player_joined" then
        negb (bool_decide (is_Some (Msg.player m))
              && bool_decide (is_Some (Msg.avatar m)))
      else if String.eqb action "player_left" then
        negb (bool_decide (is_Some (Msg.playerId m)))
      else false
  end.

(** Following the specification's words: the data fails to parse, or what it
    parses to is not a message with its required fields. *)
Definition malformed (parsed : option JSValue) : bool :=
  match parsed with
  | None => true
  | Some (JSObject m) => missing_required_field m
  | Some _ => true
  end.

(** A successful [join_game] answer without its roster. *)
Definition join_without_roster : Msg.t :=
  Msg.mk (Some "join_game") true (Some "me") None None None None None.

(** The up arrow is held and its command is being re-sent. *)
Definition holding_up : GameClient :=
  (run [SocketOpen; KeyDown "ArrowUp" "ArrowUp"] (constructor 800 600)).1.

Definition keydowns (codes : list string) : list Event :=
  map (λ code, KeyDown code code) codes.

(** Down, then left, are pressed and held. *)
Definition press_down_left : list Event :=
  [SocketOpen; KeyDown "ArrowDown" "ArrowDown"; KeyDown "ArrowLeft" "ArrowLeft"].

(** ** Vocabulary of the proofs *)

(** A relation between the state before, the state after and the trace of a
    computation that holds of doing nothing and composes along sequencing. *)
Class Stepwise (R : GameClient → GameClient → list Effect → Prop) : Prop :=
  { step_nil : ∀ c, R c c [];
    step_app : ∀ c1 c2 c3 t1 t2, R c1 c2 t1 → R c2 c3 t2 → R c1 c3 (t1 ++ t2) }.

Definition preserves (R : GameClient → GameClient → list Effect → Prop)
    {A} (m : M A) : Prop :=
  ∀ c, R c (state_of (m c)) (trace_of (m c)).

(** A property of the state that every step keeps. *)
Definition keeps (P : GameClient → Prop) : GameClient → GameClient → list Effect → Prop :=
  fun c c' _ => P c → P c'.

(** Writes of the proximity engine. *)
Definition add_greeted (k : string) (c : GameClient) : GameClient :=
  with_greetedPlayers ({[k]} ∪ greetedPlayers c) c.

Definition put_proximity (k : string) (near : bool) (c : GameClient) : GameClient :=
  with_playerProximityState (<[k := near]> (playerProximityState c)) c.

(** Each [Greet] for a peer is paid for by its entry into [greetedPlayers]. *)
Definition greet_rel (peer : string) : GameClient → GameClient → list Effect → Prop :=
  fun c c' t =>
    greets peer t + (if greeted c peer then 1 else 0) = (if greeted c' peer then 1 else 0).

(** The step neither reads nor writes anything about [peer]. *)
Definition untouched (peer : string) : GameClient → GameClient → list Effect → Prop :=
  fun c c' t =>
    playerProximityState c' !! peer = playerProximityState c !! peer
    /\ greeted c' peer = greeted c peer
    /\ greets peer t = 0
    /\ farewells peer t = 0.

(** What a tick may change: the proximity map, the greeted set and, through
    the banner's timeout, the next timer handle; with the socket not open it
    sends nothing and starts no timeout. *)
Definition tick_frame : GameClient → GameClient → list Effect → Prop :=
  fun c c' t =>
    c' = with_timers (nextHandle c') (intervals c)
           (with_greetedPlayers (greetedPlayers c')
              (with_playerProximityState (playerProximityState c') c))
    /\ nextHandle c <= nextHandle c'
    /\ (socket_is_open c = false → sent t = [] /\ nextHandle c' = nextHandle c).

(** Cancelling the interval [movementInterval] refers to. *)
Definition cancelled (c : GameClient) : GameClient :=
  if truthy_handle (movementInterval c) then
    with_timers (nextHandle c)
      (filter (λ e, Some e.1 ≠ movementInterval c) (intervals c)) c
  else c.

(** What the socket sees of one [sendMoveCommand]. *)
Definition wire (c : GameClient) (direction : string) : list Effect :=
  if socket_is_open c then
    [SocketSend (move direction); ConsoleLog "Sent move command:"]
  else [].

(** The writes of [handlePlayerLeft] for [peer]. *)
Definition forget (peer : string) (c : GameClient) : GameClient :=
  with_playerProximityState (delete peer (playerProximityState c))
    (with_greetedPlayers (greetedPlayers c ∖ {[peer]})
       (with_players (Map_delete peer (players c)) c)).


(** The registry after the loop of [handlePlayersMoved] / [handleJoinGame]
    over [entries]. *)
Definition upsert_all (entries : list (string * Player.t))
    (m : list (string * Player.t)) : list (string * Player.t) :=
  fold_left (λ m e, Map_set e.1 e.2 m) entries m.

(** The step leaves one component of the state as it was. *)
Definition unchanged {A} (f : GameClient → A) : GameClient → GameClient → list Effect → Prop :=
  fun c c' _ => f c' = f c.

(** The body of the loop of [handlePlayersMoved], as a function on states. *)
Definition moved_entry (c : GameClient) (e : string * Player.t) : GameClient :=
  let c1 := with_players (Map_set e.1 e.2 (players c)) c in
  if bool_decide (Some e.1 = playerId c1) then
    state_of (updateViewport (with_playerPosition (Player.x e.2, Player.y e.2) c1))
  else c1.

(** The local position and the viewport after that loop: those of the last
    entry for the local player, if there is one. *)
Definition moved_camera (c : GameClient) (acc : (Q * Q) * (Q * Q))
    (e : string * Player.t) : (Q * Q) * (Q * Q) :=
  if bool_decide (Some e.1 = playerId c) then
    ((Player.x e.2, Player.y e.2),
     viewport (state_of (updateViewport (with_playerPosition (Player.x e.2, Player.y e.2) c))))
  else acc.

(** What a tick writes. *)
Definition ticked (n : nat) (g : gset string) (p : gmap string bool)
    (c : GameClient) : GameClient :=
  with_timers n (intervals c) (with_greetedPlayers g (with_playerProximityState p c)).

(** ** Rendering decisions *)

(** Under [scale (-1, 1)] the canvas shows what is drawn at abscissa [u] at
    [-u]: the left and right edges of a sprite on the screen. *)
Definition screen_left (s : Sprite) : Q :=
  if sprite_mirrored s then (- (sprite_x s + sprite_width s))%Q else sprite_x s.

Definition screen_right (s : Sprite) : Q :=
  if sprite_mirrored s then (- sprite_x s)%Q else (sprite_x s + sprite_width s)%Q.

(** ** Further vocabulary *)

(** The [move] messages among what reached the socket. *)
Definition moves (l : list Outbound) : list string :=
  omap (λ m, match m with move d => Some d | _ => None end) l.

(** With the socket not open nothing reaches it, and it does not open. *)
Definition silent : GameClient → GameClient → list Effect → Prop :=
  fun c c' t =>
    socket_is_open c = false → sent t = [] /\ socket_is_open c' = false.

(** With the socket open, and staying so, what reaches it as [move] is what
    was commanded. *)
Definition relayed : GameClient → GameClient → list Effect → Prop :=
  fun c c' t =>
    socket_is_open c = true →
    socket_is_open c' = true /\ moves (sent t) = commands t.

(** Avatars are only ever added. *)
Definition avatars_kept : GameClient → GameClient → list Effect → Prop :=
  fun c c' _ => ∀ name, is_Some (avatars c !! name) → is_Some (avatars c' !! name).

(** No key held: nothing is being re-sent. *)
Definition idle_ok (c : GameClient) : Prop :=
  activeKeys c = ∅ → intervals c = [] /\ isMoving c = false.

(** The proximity engine only knows registered players. *)
Definition known_ok (c : GameClient) : Prop :=
  (∀ k, k ∈ greetedPlayers c → k ∈ Map_keys (players c))
  /\ (∀ k, is_Some (playerProximityState c !! k) → k ∈ Map_keys (players c)).

(** The last record the entries hold for [id]. *)
Definition last_entry {V} (id : string) (entries : list (string * V)) : option V :=
  Map_get id (reverse entries).

(** The event opens the socket. *)
Definition opens (e : Event) : bool :=
  match e with
  | SocketOpen => true
  | _ => false
  end.

(** The event takes the socket out of the open state. *)
Definition closes (e : Event) : bool :=
  match e with
  | SocketClosing | SocketClose => true
  | _ => false
  end.

(** The listeners that call [draw] outside any [try]: the window's [resize]
    and the world map's [onload]. *)
Definition repaints (e : Event) : bool :=
  match e with
  | Resize _ _ | WorldImageLoad => true
  | _ => false
  end.

Definition is_message (e : Event) : bool :=
  match e with
  | SocketMessage _ => true
  | _ => false
  end.

(** Keys pressed, a message and a tick, all before the socket has opened. *)
Definition early_events : list Event :=
  [KeyDown "ArrowUp" "ArrowUp"; KeyDown "Enter" "Enter"; IntervalFire 1;
   inbound roster; inbound (moved "p2" 90 0); KeyUp "ArrowUp"].

Definition moving_ok (c : GameClient) : Prop := input_ok c /\ idle_ok c.

(** The session up to the return of ["p2"], from the constructor on. *)
Definition whole_session : list Event :=
  [SocketOpen; inbound roster] ++ approach_leave_return.

(** The avatar registry after the second loop of [handleJoinGame]. *)
Definition register_all (entries : list (string * Avatar.t))
    (m : gmap string Avatar.t) : gmap string Avatar.t :=
  fold_left (λ m e, <[e.1 := e.2]> m) entries m.

(** What the local player's own entry in a [players_moved] message is, if
    the message has one. *)
Definition own_entry (c : GameClient) (entries : list (string * Player.t))
    : option Player.t :=
  match playerId c with
  | Some me => last_entry me entries
  | None => None
  end.

(** A roster that does not mention ["p2"], and moves us. *)
Definition we_moved : Msg.t :=
  Msg.mk (Some "players_moved") false None
    (Some [("me", peer_at "me" 10 10); ("p3", peer_at "p3" 500 500);
           ("me", peer_at "me" 700 650)])
    None None None None.

(** The client [handleJoinGame] hands to [draw] on a well-formed success. *)
Definition after_join (id : option string) (roster : list (string * Player.t))
    (definitions : list (string * Avatar.t)) (c : GameClient) : GameClient :=
  let c1 :=
    with_avatars (register_all definitions (avatars c))
      (with_players (upsert_all roster (players c)) (with_playerId id c)) in
  match get_ourPlayer c1 with
  | Some ourPlayer =>
      state_of (updateViewport
        (with_playerPosition (Player.x ourPlayer, Player.y ourPlayer) c1))
  | None => c1
  end.

(** The state [handlePlayerJoined] hands to [draw] on a well-formed message. *)
Definition after_player_joined (p : Player.t) (a : Avatar.t) (c : GameClient) : GameClient :=
  with_avatars (<[Avatar.name a := a]> (avatars c))
    (with_players (Map_set (Player.id p) p (players c)) c).

Definition player_joined (p : Player.t) (a : Avatar.t) : Msg.t :=
  Msg.mk (Some "player_joined") false None None None (Some p) (Some a) None.

(** ["p3"] is announced, standing 30 away from us. *)
Definition p3_arrives : Msg.t := player_joined (peer_at "p3" 30 0) knight.

(** Somebody we have never heard of is said to have left. *)
Definition stranger_left : Msg.t := departed "nobody".

(** ** What a malformed message leaves behind *)

(** The error lines of a trace. *)
Definition errors (t : list Effect) : list string :=
  omap (λ e, match e with ConsoleError text => Some text | _ => None end) t.

(** Whether handling the data throws, so that [onmessage] logs an error: the
    data does not parse, parses to [null], or the handler of its action
    dereferences a field that is missing ([Object.entries (message.players)],
    [Object.entries (message.avatars)], [message.player.id],
    [message.avatar.name]).  A missing [playerId] is never dereferenced. *)
Definition raises (parsed : option JSValue) : bool :=
  match parsed with
  | None => true
  | Some JSNull => true
  | Some JSPrimitive => false
  | Some (JSObject m) =>
      match Msg.action m with
      | None => false
      | Some action =>
          if String.eqb action "join_game" then
            Msg.success m
            && negb (bool_decide (is_Some (Msg.players m))
                     && bool_decide (is_Some (Msg.avatars m)))
          else if String.eqb action "players_moved" then
            negb (bool_decide (is_Some (Msg.players m)))
          else if String.eqb action "player_joined" then
            negb (bool_decide (is_Some (Msg.player m))
                  && bool_decide (is_Some (Msg.avatar m)))
          else false
      end
  end.

(** The malformed data of which nothing is kept: it is no message object,
    has no action, or lacks the field its handler reads before it writes
    ([players] of [players_moved], [player] of [player_joined]). *)
Definition nothing_written (parsed : option JSValue) : bool :=
  match parsed with
  | Some (JSObject m) =>
      match Msg.action m with
      | None => true
      | Some action =>
          if String.eqb action "join_game" then false
          else if String.eqb action "players_moved" then
            negb (bool_decide (is_Some (Msg.players m)))
          else if String.eqb action "player_joined" then
            negb (bool_decide (is_Some (Msg.player m)))
          else false
      end
  | _ => true
  end.

(** Following the amended rule: the client a malformed message leaves behind.
    Nothing is written when the data is not a message object, has no action,
    or lacks the field its handler reads first; a [join_game] keeps the
    identity, then the roster, then the avatars, up to the first missing
    table; a [player_joined] without [avatar] keeps the player; a
    [player_left] without [playerId] removes nothing and runs the tick. *)
Definition kept_writes (parsed : option JSValue) (c : GameClient) : GameClient :=
  match parsed with
  | Some (JSObject m) =>
      match Msg.action m with
      | None => c
      | Some action =>
          if String.eqb action "join_game" then
            let c1 := with_playerId (Msg.playerId m) c in
            match Msg.players m with
            | None => c1
            | Some roster =>
                let c2 := with_players (upsert_all roster (players c)) c1 in
                match Msg.avatars m with
                | None => c2
                | Some definitions =>
                    with_avatars (register_all definitions (avatars c)) c2
                end
            end
          else if String.eqb action "players_moved" then c
          else if String.eqb action "player_joined" then
            match Msg.player m with
            | None => c
            | Some player => with_players (Map_set (Player.id player) player (players c)) c
            end
          else if String.eqb action "player_left" then
            state_of (checkProximityGreetings c)
          else c
      end
  | _ => c
  end.

(** A successful [join_game] answer without its avatars, one without the
    assigned id, and a departure that does not say who left. *)
Definition join_without_avatars : Msg.t :=
  Msg.mk (Some "join_game") true (Some "me")
    (Some [("me", peer_at "me" 0 0); ("p2", peer_at "p2" 90 0)]) None None None None.

Definition join_without_id : Msg.t :=
  Msg.mk (Some "join_game") true None
    (Some [("me", peer_at "me" 0 0); ("p2", peer_at "p2" 90 0)])
    (Some [("knight", knight)]) None None None.

Definition left_without_id : Msg.t :=
  Msg.mk (Some "player_left") false None None None None None None.

(** * Properties *)

(** ** The [Map] operations *)

Section JSMap_facts.
Context {V : Type}.
Implicit Types (m : list (string * V)) (k : string) (v : V).

Lemma Map_get_None k m : Map_get k m = None ↔ k ∉ Map_keys m.
Proof.
  unfold Map_keys. induction m as [|[k' v'] m IH]; csimpl.
  - split; [intros _; apply not_elem_of_nil | done].
  - rewrite not_elem_of_cons. destruct (String.eqb_spec k k'); naive_solver.
Qed.

Lemma Map_get_Some_elem k v m : Map_get k m = Some v → (k, v) ∈ m.
Proof.
  induction m as [|[k' v'] m IH]; csimpl; [done|].
  destruct (String.eqb_spec k k') as [->|]; intros H.
  - injection H as ->. left.
  - right. auto.
Qed.

Lemma Map_get_elem k v m : Map_wf m → (k, v) ∈ m → Map_get k m = Some v.
Proof.
  unfold Map_wf, Map_keys. induction m as [|[k' v'] m IH]; csimpl.
  - intros _ H. by apply elem_of_nil in H.
  - intros Hnd H. apply NoDup_cons in Hnd as [Hk Hnd].
    apply elem_of_cons in H as [H|H].
    + injection H as -> ->. by rewrite String.eqb_refl.
    + destruct (String.eqb_spec k k') as [->|]; [|auto].
      exfalso. apply Hk. apply list_elem_of_fmap. by exists (k', v).
Qed.

Lemma Map_keys_set k v m :
  Map_keys (Map_set k v m) =
  if bool_decide (k ∈ Map_keys m) then Map_keys m else Map_keys m ++ [k].
Proof.
  unfold Map_keys. induction m as [|[k' v'] m IH]; csimpl; [done|].
  destruct (String.eqb_spec k k') as [->|Hne]; csimpl.
  - rewrite bool_decide_eq_true_2; [done | left].
  - rewrite IH. repeat case_bool_decide; try done.
    + exfalso. rewrite elem_of_cons in *. naive_solver.
    + exfalso. rewrite elem_of_cons in *. naive_solver.
Qed.

Lemma Map_set_wf k v m : Map_wf m → Map_wf (Map_set k v m).
Proof.
  unfold Map_wf. rewrite Map_keys_set. case_bool_decide; [done|].
  intros Hnd. apply NoDup_app. split_and!; [done | | apply NoDup_singleton].
  intros x Hx Hx'. apply list_elem_of_singleton in Hx'. by subst.
Qed.

Lemma Map_get_set k k' v m :
  Map_get k' (Map_set k v m) = if String.eqb k' k then Some v else Map_get k' m.
Proof.
  induction m as [|[k0 v0] m IH]; csimpl.
  - by destruct (String.eqb k' k).
  - destruct (String.eqb_spec k k0) as [->|Hne]; csimpl.
    + by destruct (String.eqb k' k0).
    + rewrite IH. destruct (String.eqb_spec k' k0) as [->|]; [|done].
      destruct (String.eqb_spec k0 k); congruence.
Qed.

Lemma Map_keys_delete k m : Map_keys (Map_delete k m) = filter (λ k', k' ≠ k) (Map_keys m).
Proof.
  unfold Map_keys. induction m as [|[k' v'] m IH]; csimpl; [done|].
  rewrite filter_cons. csimpl.
  destruct (String.eqb_spec k k') as [->|Hne].
  - rewrite decide_False by (intros H; by apply H). done.
  - rewrite decide_True by congruence. csimpl. by f_equal.
Qed.

Lemma Map_delete_wf k m : Map_wf m → Map_wf (Map_delete k m).
Proof. unfold Map_wf. rewrite Map_keys_delete. apply NoDup_filter. Qed.

Lemma Map_get_delete k k' m :
  Map_get k' (Map_delete k m) = if String.eqb k' k then None else Map_get k' m.
Proof.
  induction m as [|[k0 v0] m IH]; csimpl.
  - by destruct (String.eqb k' k).
  - destruct (String.eqb_spec k k0) as [->|Hne]; csimpl.
    + rewrite IH. by destruct (String.eqb k' k0).
    + rewrite IH. destruct (String.eqb_spec k' k0) as [->|]; [|done].
      destruct (String.eqb_spec k0 k); congruence.
Qed.

Lemma Map_delete_not_in k m : k ∉ Map_keys (Map_delete k m).
Proof. rewrite Map_keys_delete. intros H. apply list_elem_of_filter in H. naive_solver. Qed.

(** Overwriting an entry with what it already holds changes nothing. *)
Lemma Map_set_same k v m : Map_get k m = Some v → Map_set k v m = m.
Proof.
  induction m as [|[k0 v0] m IH]; csimpl; [done|].
  destruct (String.eqb_spec k k0) as [->|Hne]; intros H.
  - by injection H as ->.
  - f_equal. auto.
Qed.

Lemma Map_set_set k v v' m : Map_set k v (Map_set k v' m) = Map_set k v m.
Proof.
  induction m as [|[k0 v0] m IH]; csimpl.
  - by rewrite String.eqb_refl.
  - destruct (String.eqb_spec k k0) as [->|Hne]; csimpl.
    + by rewrite String.eqb_refl.
    + destruct (String.eqb_spec k k0); [done|]. by f_equal.
Qed.

(** A write to a present key commutes with a write to another key. *)
Lemma Map_set_comm k k' v v' m :
  k ≠ k' → k' ∈ Map_keys m →
  Map_set k v (Map_set k' v' m) = Map_set k' v' (Map_set k v m).
Proof.
  unfold Map_keys. intros Hne. induction m as [|[k0 v0] m IH]; csimpl.
  - intros H. by apply elem_of_nil in H.
  - intros H. destruct (String.eqb_spec k' k0) as [->|Hne'].
    + csimpl. destruct (String.eqb_spec k k0); [done|].
      csimpl. by rewrite String.eqb_refl.
    + apply elem_of_cons in H as [H|H]; [done|].
      destruct (String.eqb_spec k k0) as [->|Hne0]; csimpl.
      * rewrite String.eqb_refl. by destruct (String.eqb_spec k' k0).
      * destruct (String.eqb_spec k k0); [done|].
        destruct (String.eqb_spec k' k0); [done|]. f_equal. auto.
Qed.

End JSMap_facts.

(** ** Reasoning about computations *)

Lemma run_bind {A B} (m : M A) (k : A → M B) (c : GameClient) :
  (m ≫= k) c =
  match m c with
  | (Ok a, c1, t1) => let '(r, c2, t2) := k a c1 in (r, c2, t1 ++ t2)
  | (Throw e, c1, t1) => (Throw e, c1, t1)
  end.
Proof. reflexivity. Qed.

Section Preserves.
Context (R : GameClient → GameClient → list Effect → Prop) `{!Stepwise R}.

Lemma preserves_ret {A} (a : A) : preserves R (mret a).
Proof. intros c. apply step_nil. Qed.

Lemma preserves_get {A} (f : GameClient → A) : preserves R (get f).
Proof. intros c. apply step_nil. Qed.

Lemma preserves_throw {A} (e : string) : preserves R (@throw A e).
Proof. intros c. apply step_nil. Qed.

Lemma preserves_modify (f : GameClient → GameClient) :
  (∀ c, R c (f c) []) → preserves R (modify f).
Proof. intros H c. apply H. Qed.

Lemma preserves_emit (e : Effect) : (∀ c, R c c [e]) → preserves R (emit e).
Proof. intros H c. apply H. Qed.

Lemma preserves_bind {A B} (m : M A) (k : A → M B) :
  preserves R m → (∀ a, preserves R (k a)) → preserves R (m ≫= k).
Proof.
  intros Hm Hk c. rewrite run_bind. specialize (Hm c).
  destruct (m c) as [[[a|e] c1] t1]; [|exact Hm].
  specialize (Hk a c1). destruct (k a c1) as [[r c2] t2].
  exact (step_app _ _ _ _ _ Hm Hk).
Qed.

Lemma preserves_when (b : bool) (m : M unit) :
  preserves R m → preserves R (when b m).
Proof. destruct b; [done | intros _; apply preserves_ret]. Qed.

Lemma preserves_for_of {A} (l : list A) (body : A → M unit) :
  (∀ a, a ∈ l → preserves R (body a)) → preserves R (for_of l body).
Proof.
  induction l as [|a l IH]; intros H; simpl.
  - apply preserves_ret.
  - apply preserves_bind; [apply H; left|].
    intros _. apply IH. intros a' Ha'. apply H. by right.
Qed.

Lemma preserves_try_catch (m : M unit) (h : string → M unit) :
  preserves R m → (∀ e, preserves R (h e)) → preserves R (try_catch m h).
Proof.
  intros Hm Hh c. unfold try_catch. specialize (Hm c).
  destruct (m c) as [[[a|e] c1] t1]; [exact Hm|].
  specialize (Hh e c1). destruct (h e c1) as [[r c2] t2].
  exact (step_app _ _ _ _ _ Hm Hh).
Qed.

(** Along a run of events. *)
Lemma preserves_run (es : list Event) (c : GameClient) :
  (∀ e, e ∈ es → preserves R (handleEvent e)) →
  R c (run es c).1 (run es c).2.
Proof.
  revert c. induction es as [|e es IH]; intros c H; simpl.
  - apply step_nil.
  - unfold dispatch.
    specialize (IH (state_of (handleEvent e c))).
    destruct (run es (state_of (handleEvent e c))) as [c2 t2]. simpl in *.
    eapply step_app; [apply H; left|].
    apply IH. intros e' He'. apply H. by right.
Qed.

End Preserves.

(** Breaks a computation down to its writes and its emissions. *)
Ltac preserves_step :=
  lazymatch goal with
  | |- preserves _ (mret _) => apply preserves_ret; exact _
  | |- preserves _ (ret _) => apply preserves_ret; exact _
  | |- preserves _ (get _) => apply preserves_get; exact _
  | |- preserves _ (throw _) => apply preserves_throw; exact _
  | |- preserves _ (_ ≫= _) => apply preserves_bind; [exact _ | | intros ?]
  | |- preserves _ (when _ _) => apply preserves_when; [exact _ | ]
  | |- preserves _ (for_of _ _) => apply preserves_for_of; [exact _ | intros [? ?] _]
  | |- preserves _ (try_catch _ _) => apply preserves_try_catch; [exact _ | | intros ?]
  | |- preserves _ (modify _) => apply preserves_modify
  | |- preserves _ (emit _) => apply preserves_emit
  | |- preserves _ (match ?x with _ => _ end) => destruct x
  end.

Ltac unfold_methods :=
  unfold handleKeyDown, handleKeyUp, handleEnterKey, sayHello, startContinuousMovement,
    stopContinuousMovement, sendMoveCommand, getPrimaryDirection, showMessage,
    onopen, onclose, onerror, joinGame, interval_callback, socket_send,
    handleJoinGame, handlePlayersMoved, handlePlayerJoined,
    handlePlayerLeft, Object_entries, property_of, draw, updateViewport, clearInterval.

Ltac preserves_auto :=
  repeat (first [preserves_step | progress cbv beta iota | progress unfold_methods]).

#[export] Instance keeps_stepwise (P : GameClient → Prop) : Stepwise (keeps P).
Proof. split; unfold keeps; auto. Qed.

#[export] Instance unchanged_stepwise {A} (f : GameClient → A) : Stepwise (unchanged f).
Proof. split; unfold unchanged; [done | congruence]. Qed.

(** Trace projections are additive. *)
Lemma greets_app peer t1 t2 : greets peer (t1 ++ t2) = greets peer t1 + greets peer t2.
Proof. unfold greets. by rewrite filter_app, length_app. Qed.

Lemma farewells_app peer t1 t2 :
  farewells peer (t1 ++ t2) = farewells peer t1 + farewells peer t2.
Proof. unfold farewells. by rewrite filter_app, length_app. Qed.

Lemma commands_app t1 t2 : commands (t1 ++ t2) = commands t1 ++ commands t2.
Proof. apply omap_app. Qed.

Lemma sent_app t1 t2 : sent (t1 ++ t2) = sent t1 ++ sent t2.
Proof. apply omap_app. Qed.

(** ** Closed forms of the leaf methods *)

Ltac unfold_M :=
  unfold mbind, M_bind, mret, M_ret, bind, ret, get, modify, emit, throw, when,
    state_of, trace_of, outcome_of in *.

(** Painting leaves the client and the trace alone: [draw] is the tick. *)
Lemma draw_run (c : GameClient) : draw c = checkProximityGreetings c.
Proof.
  unfold draw. unfold_M. by destruct (checkProximityGreetings c) as [[r c'] t].
Qed.

Lemma askPlayerToGreet_run (p : Player.t) (c : GameClient) :
  askPlayerToGreet p c =
  if socket_is_open c then
    (Ok tt, with_timers (S (nextHandle c)) (intervals c) c,
     [SocketSend (chat "hii! nice to meet you Roger");
      ConsoleLog (Player.username p +:+ " greeted Roger!");
      ShowMessage (Player.username p +:+ ": hii! nice to meet you Roger")])
  else (Ok tt, c, []).
Proof.
  unfold askPlayerToGreet, showMessage, socket_send, setTimeout, socket_is_open.
  unfold_M. destruct (socket c) as [[]|] eqn:Hs; simpl; rewrite ?Hs; reflexivity.
Qed.

Lemma askPlayerToSayGoodbye_run (p : Player.t) (c : GameClient) :
  askPlayerToSayGoodbye p c =
  if socket_is_open c then
    (Ok tt, with_timers (S (nextHandle c)) (intervals c) c,
     [SocketSend (chat "bye Roger!");
      ConsoleLog (Player.username p +:+ " said goodbye to Roger!");
      ShowMessage (Player.username p +:+ ": bye Roger!")])
  else (Ok tt, c, []).
Proof.
  unfold askPlayerToSayGoodbye, showMessage, socket_send, setTimeout, socket_is_open.
  unfold_M. destruct (socket c) as [[]|] eqn:Hs; simpl; rewrite ?Hs; reflexivity.
Qed.

Lemma sendMoveCommand_run (direction : string) (c : GameClient) :
  sendMoveCommand direction c =
  (Ok tt, c,
   MoveCommand direction ::
   if socket_is_open c then
     [SocketSend (move direction); ConsoleLog "Sent move command:"]
   else []).
Proof.
  unfold sendMoveCommand, socket_send, socket_is_open.
  unfold_M. destruct (socket c) as [[]|] eqn:Hs; simpl; rewrite ?Hs; reflexivity.
Qed.

(** ** One tick of the proximity engine *)

Lemma proximity_body_run (me : string) (our : Player.t) (k : string) (p : Player.t)
    (c : GameClient) :
  proximity_body me our (k, p) c =
  if String.eqb k me then (Ok tt, c, [])
  else
    let isNear := distance_le our p (proximityThreshold c) in
    let currentState := default false (playerProximityState c !! k) in
    if isNear && negb currentState && negb (greeted c k) then
      (Ok tt,
       put_proximity k true (add_greeted k (state_of (askPlayerToGreet p c))),
       Greet k :: trace_of (askPlayerToGreet p c))
    else if negb isNear && currentState then
      (Ok tt,
       put_proximity k false (state_of (askPlayerToSayGoodbye p c)),
       Farewell k :: trace_of (askPlayerToSayGoodbye p c))
    else (Ok tt, put_proximity k isNear c, []).
Proof.
  unfold proximity_body. destruct (String.eqb k me); [reflexivity|].
  unfold set_proximity, greeted. unfold_M. cbv zeta.
  destruct (distance_le our p (proximityThreshold c)),
    (default false (playerProximityState c !! k)),
    (bool_decide (k ∈ greetedPlayers c));
    cbn [andb negb]; rewrite ?askPlayerToGreet_run, ?askPlayerToSayGoodbye_run;
    destruct (socket_is_open c); reflexivity.
Qed.

#[export] Instance greet_rel_stepwise peer : Stepwise (greet_rel peer).
Proof.
  split; unfold greet_rel.
  - intros c. reflexivity.
  - intros c1 c2 c3 t1 t2 H1 H2. rewrite greets_app. lia.
Qed.

#[export] Instance untouched_stepwise peer : Stepwise (untouched peer).
Proof.
  split; unfold untouched.
  - intros c. done.
  - intros c1 c2 c3 t1 t2 (? & ? & ? & ?) (? & ? & ? & ?).
    rewrite greets_app, farewells_app. split_and!; [congruence | congruence | lia | lia].
Qed.

#[export] Instance tick_frame_stepwise : Stepwise tick_frame.
Proof.
  split; unfold tick_frame.
  - intros c. split_and!; [by destruct c | done | done].
  - intros c1 c2 c3 t1 t2 (E1 & L1 & S1) (E2 & L2 & S2).
    split_and!; [ | lia | ].
    + destruct c1, c2, c3. unfold with_timers, with_greetedPlayers,
        with_playerProximityState in *. simpl in *.
      injection E1; intros; subst. injection E2; intros; subst. reflexivity.
    + intros Hs. destruct (S1 Hs) as [T1 N1].
      assert (socket_is_open c2 = false) as Hs2.
      { rewrite E1. exact Hs. }
      destruct (S2 Hs2) as [T2 N2]. rewrite sent_app, T1, T2.
      split; [done | congruence].
Qed.

Lemma greeted_add k peer c :
  greeted (add_greeted k c) peer = bool_decide (k = peer) || greeted c peer.
Proof.
  unfold greeted, add_greeted. simpl.
  repeat case_bool_decide; simpl; try done; set_solver.
Qed.

Lemma greets_cons_Greet peer k t :
  greets peer (Greet k :: t) = (if bool_decide (k = peer) then 1 else 0) + greets peer t.
Proof.
  unfold greets. rewrite filter_cons.
  case_decide as H; case_bool_decide; simpl; congruence.
Qed.

Lemma proximity_body_tick_frame me our entry :
  preserves tick_frame (proximity_body me our entry).
Proof.
  destruct entry as [k p]. intros c. rewrite proximity_body_run.
  unfold tick_frame. destruct (String.eqb k me); [apply tick_frame_stepwise|].
  cbv zeta. rewrite askPlayerToGreet_run, askPlayerToSayGoodbye_run.
  destruct (distance_le our p (proximityThreshold c)),
    (default false (playerProximityState c !! k)), (greeted c k),
    (socket_is_open c) eqn:Hs; destruct c; simpl in *;
    (split_and!; [reflexivity | lia | try done]).
Qed.

Lemma greets_cons_other peer e t :
  e ≠ Greet peer → greets peer (e :: t) = greets peer t.
Proof. intros H. unfold greets. rewrite filter_cons. by rewrite decide_False. Qed.

Lemma farewells_cons_Farewell peer k t :
  farewells peer (Farewell k :: t) =
  (if bool_decide (k = peer) then 1 else 0) + farewells peer t.
Proof.
  unfold farewells. rewrite filter_cons.
  case_decide as H; case_bool_decide; simpl; congruence.
Qed.

Lemma farewells_cons_other peer e t :
  e ≠ Farewell peer → farewells peer (e :: t) = farewells peer t.
Proof. intros H. unfold farewells. rewrite filter_cons. by rewrite decide_False. Qed.

(** The banner and the chat line carry no [Greet] or [Farewell]. *)
Lemma askPlayerToGreet_quiet peer p c :
  greets peer (trace_of (askPlayerToGreet p c)) = 0
  /\ farewells peer (trace_of (askPlayerToGreet p c)) = 0
  /\ greeted (state_of (askPlayerToGreet p c)) peer = greeted c peer
  /\ playerProximityState (state_of (askPlayerToGreet p c)) = playerProximityState c
  /\ greetedPlayers (state_of (askPlayerToGreet p c)) = greetedPlayers c.
Proof. rewrite askPlayerToGreet_run. by destruct (socket_is_open c). Qed.

Lemma askPlayerToSayGoodbye_quiet peer p c :
  greets peer (trace_of (askPlayerToSayGoodbye p c)) = 0
  /\ farewells peer (trace_of (askPlayerToSayGoodbye p c)) = 0
  /\ greeted (state_of (askPlayerToSayGoodbye p c)) peer = greeted c peer
  /\ playerProximityState (state_of (askPlayerToSayGoodbye p c)) = playerProximityState c
  /\ greetedPlayers (state_of (askPlayerToSayGoodbye p c)) = greetedPlayers c.
Proof. rewrite askPlayerToSayGoodbye_run. by destruct (socket_is_open c). Qed.

Lemma greeted_put k b c peer : greeted (put_proximity k b c) peer = greeted c peer.
Proof. reflexivity. Qed.

Lemma proximity_body_greet_rel peer me our entry :
  preserves (greet_rel peer) (proximity_body me our entry).
Proof.
  destruct entry as [k p]. intros c. rewrite proximity_body_run.
  destruct (String.eqb k me); [apply greet_rel_stepwise|].
  cbv zeta. unfold greet_rel.
  destruct (askPlayerToGreet_quiet peer p c) as (G1 & _ & G2 & _).
  destruct (askPlayerToSayGoodbye_quiet peer p c) as (B1 & _ & B2 & _).
  destruct (distance_le our p (proximityThreshold c)),
    (default false (playerProximityState c !! k)), (greeted c k) eqn:Hg;
    cbn [andb negb state_of trace_of fst snd];
    rewrite ?greeted_put, ?greeted_add, ?greets_cons_Greet, ?G1, ?G2, ?B2;
    rewrite ?greets_cons_other by done; rewrite ?B1; try reflexivity.
  case_bool_decide as Hk; [subst k; rewrite Hg|]; reflexivity.
Qed.

(** What the body does to the entry it visits. *)
Lemma proximity_body_visit me our k p c :
  k ≠ me →
  let r := proximity_body me our (k, p) c in
  let isNear := distance_le our p (proximityThreshold c) in
  let currentState := default false (playerProximityState c !! k) in
  playerProximityState (state_of r) !! k = Some isNear
  /\ greeted (state_of r) k = greeted c k || (isNear && negb currentState)
  /\ greets k (trace_of r) = (if isNear && negb currentState && negb (greeted c k) then 1 else 0)
  /\ farewells k (trace_of r) = (if negb isNear && currentState then 1 else 0).
Proof.
  intros Hne. cbv zeta. rewrite proximity_body_run.
  destruct (String.eqb_spec k me) as [|_]; [done|]. cbv zeta.
  destruct (askPlayerToGreet_quiet k p c) as (G1 & G1' & G2 & _).
  destruct (askPlayerToSayGoodbye_quiet k p c) as (B1 & B1' & B2 & _).
  destruct (distance_le our p (proximityThreshold c)),
    (default false (playerProximityState c !! k)), (greeted c k) eqn:Hg;
    cbn [andb negb orb state_of trace_of fst snd];
    rewrite ?greeted_put, ?greeted_add, ?greets_cons_Greet, ?farewells_cons_Farewell,
      ?G2, ?B2, ?Hg;
    rewrite ?greets_cons_other, ?farewells_cons_other by done;
    rewrite ?G1, ?G1', ?B1, ?B1', ?bool_decide_eq_true_2 by done;
    (split_and!; [apply lookup_insert_eq | done..]).
Qed.

(** What the body does to every other peer. *)
Lemma proximity_body_untouched peer me our k p :
  k ≠ peer ∨ k = me → preserves (untouched peer) (proximity_body me our (k, p)).
Proof.
  intros Hk c. rewrite proximity_body_run.
  destruct (String.eqb_spec k me) as [|Hme]; [apply untouched_stepwise|].
  destruct Hk as [Hk|]; [|done]. cbv zeta. unfold untouched.
  destruct (askPlayerToGreet_quiet peer p c) as (G1 & G1' & G2 & G3 & _).
  destruct (askPlayerToSayGoodbye_quiet peer p c) as (B1 & B1' & B2 & B3 & _).
  destruct (distance_le our p (proximityThreshold c)),
    (default false (playerProximityState c !! k)), (greeted c k);
    cbn [andb negb orb state_of trace_of fst snd];
    rewrite ?greeted_put, ?greeted_add, ?greets_cons_Greet, ?farewells_cons_Farewell,
      ?G2, ?B2;
    rewrite ?greets_cons_other, ?farewells_cons_other by done;
    rewrite ?G1, ?G1', ?B1, ?B1', ?bool_decide_eq_false_2 by done;
    unfold put_proximity, add_greeted; cbn [playerProximityState with_playerProximityState
      with_greetedPlayers]; rewrite lookup_insert_ne by done; rewrite ?G3, ?B3; done.
Qed.

Lemma proximity_body_ok me our entry c :
  ∃ c1 t1, proximity_body me our entry c = (Ok tt, c1, t1).
Proof.
  destruct entry as [k p]. rewrite proximity_body_run. cbv zeta.
  destruct (String.eqb k me); [eauto|].
  destruct (distance_le our p (proximityThreshold c)),
    (default false (playerProximityState c !! k)), (greeted c k);
    cbn [andb negb]; eauto.
Qed.

(** The loop of one tick. *)
Lemma proximity_loop_untouched peer me our ps :
  peer ∉ ps.*1 ∨ peer = me →
  preserves (untouched peer) (for_of ps (proximity_body me our)).
Proof.
  intros H. apply preserves_for_of; [exact _|]. intros [k p] Hin.
  apply proximity_body_untouched. destruct H as [H| ->].
  - destruct (decide (k = peer)) as [->|]; [|by left].
    exfalso. apply H. apply list_elem_of_fmap. by exists (peer, p).
  - destruct (decide (k = me)); [by right | by left].
Qed.

Lemma proximity_loop_frame me our ps :
  preserves tick_frame (for_of ps (proximity_body me our)).
Proof. apply preserves_for_of; [exact _|]. intros. apply proximity_body_tick_frame. Qed.

Lemma proximity_loop_greet_rel peer me our ps :
  preserves (greet_rel peer) (for_of ps (proximity_body me our)).
Proof. apply preserves_for_of; [exact _|]. intros. apply proximity_body_greet_rel. Qed.

Lemma tick_frame_threshold c c' t :
  tick_frame c c' t → proximityThreshold c' = proximityThreshold c.
Proof. intros [E _]. rewrite E. reflexivity. Qed.

Lemma proximity_loop_visit peer me our ps p c :
  NoDup ps.*1 → (peer, p) ∈ ps → peer ≠ me →
  let r := for_of ps (proximity_body me our) c in
  let isNear := distance_le our p (proximityThreshold c) in
  let currentState := default false (playerProximityState c !! peer) in
  playerProximityState (state_of r) !! peer = Some isNear
  /\ greeted (state_of r) peer = greeted c peer || (isNear && negb currentState)
  /\ greets peer (trace_of r) =
       (if isNear && negb currentState && negb (greeted c peer) then 1 else 0)
  /\ farewells peer (trace_of r) = (if negb isNear && currentState then 1 else 0).
Proof.
  intros Hnd Hin Hme. revert c. induction ps as [|[k q] ps IH]; intros c.
  { by apply elem_of_nil in Hin. }
  apply NoDup_cons in Hnd as [Hk Hnd]. cbn [for_of]. cbv zeta.
  rewrite run_bind.
  destruct (decide (k = peer)) as [->|Hne].
  - assert (q = p) as ->.
    { apply elem_of_cons in Hin as [Hin|Hin]; [congruence|].
      exfalso. apply Hk. apply list_elem_of_fmap. by exists (peer, p). }
    pose proof (proximity_body_visit me our peer p c Hme) as Hv. cbv zeta in Hv.
    pose proof (proximity_loop_untouched peer me our ps (or_introl Hk)
                  (state_of (proximity_body me our (peer, p) c))) as Hu.
    destruct (proximity_body_ok me our (peer, p) c) as (c1 & t1 & E).
    rewrite E in *. unfold state_of, trace_of in *. cbn [fst snd] in *.
    destruct (for_of ps (proximity_body me our) c1) as [[r c2] t2]. cbn [fst snd] in *.
    destruct Hv as (V1 & V2 & V3 & V4). destruct Hu as (U1 & U2 & U3 & U4).
    rewrite greets_app, farewells_app, U1, U2, U3, U4, V1, V2, V3, V4.
    rewrite !Nat.add_0_r. done.
  - assert ((peer, p) ∈ ps) as Hin'.
    { apply elem_of_cons in Hin as [Hin|Hin]; [congruence | done]. }
    pose proof (proximity_body_untouched peer me our k q (or_introl Hne) c) as Hu.
    pose proof (proximity_body_tick_frame me our (k, q) c) as Hf.
    apply tick_frame_threshold in Hf.
    destruct (proximity_body_ok me our (k, q) c) as (c1 & t1 & E).
    rewrite E in *. unfold state_of, trace_of in *. cbn [fst snd] in *.
    specialize (IH Hnd Hin' c1). cbv zeta in IH.
    destruct (for_of ps (proximity_body me our) c1) as [[r c2] t2]. cbn [fst snd] in *.
    destruct Hu as (U1 & U2 & U3 & U4). destruct IH as (V1 & V2 & V3 & V4).
    rewrite greets_app, farewells_app, U3, U4, V1, V2, V3, V4, U1, U2, Hf. done.
Qed.

Lemma checkProximityGreetings_run c :
  checkProximityGreetings c =
  match truthy_id (playerId c) with
  | None => (Ok tt, c, [])
  | Some me =>
      match Map_get me (players c) with
      | None => (Ok tt, c, [])
      | Some ourPlayer => for_of (players c) (proximity_body me ourPlayer) c
      end
  end.
Proof.
  unfold checkProximityGreetings. unfold_M.
  destruct (truthy_id (playerId c)) as [me|]; [|reflexivity].
  destruct (Map_get me (players c)) as [our|]; [|reflexivity].
  destruct (for_of (players c) (proximity_body me our) c) as [[r c2] t2].
  reflexivity.
Qed.

Lemma tick_tick_frame : preserves tick_frame checkProximityGreetings.
Proof.
  intros c. rewrite checkProximityGreetings_run.
  repeat case_match; try apply step_nil. apply proximity_loop_frame.
Qed.

Lemma tick_greet_rel peer : preserves (greet_rel peer) checkProximityGreetings.
Proof.
  intros c. rewrite checkProximityGreetings_run.
  repeat case_match; try apply step_nil. apply proximity_loop_greet_rel.
Qed.

(** One tick, seen from one peer. *)
Lemma tick_peer (c : GameClient) (peer : string) :
  Map_wf (players c) →
  let r := checkProximityGreetings c in
  match peer_view c peer with
  | Some (currentState, isNear) =>
      playerProximityState (state_of r) !! peer = Some isNear
      /\ greeted (state_of r) peer = greeted c peer || (isNear && negb currentState)
      /\ greets peer (trace_of r) =
           (if isNear && negb currentState && negb (greeted c peer) then 1 else 0)
      /\ farewells peer (trace_of r) = (if negb isNear && currentState then 1 else 0)
  | None => untouched peer c (state_of r) (trace_of r)
  end.
Proof.
  intros Hwf. cbv zeta. rewrite checkProximityGreetings_run. unfold peer_view.
  destruct (truthy_id (playerId c)) as [me|]; [|apply step_nil].
  destruct (Map_get me (players c)) as [our|]; [|apply step_nil].
  destruct (String.eqb_spec peer me) as [->|Hne].
  { apply proximity_loop_untouched. by right. }
  destruct (Map_get peer (players c)) as [p|] eqn:Hp.
  - apply Map_get_Some_elem in Hp.
    apply (proximity_loop_visit peer me our (players c) p c Hwf Hp Hne).
  - apply proximity_loop_untouched. left. by apply Map_get_None.
Qed.

Lemma setTimeout_greet_rel peer : preserves (greet_rel peer) setTimeout.
Proof. intros c. reflexivity. Qed.

Lemma setInterval_greet_rel peer d : preserves (greet_rel peer) (setInterval d).
Proof. intros c. reflexivity. Qed.

Ltac greet_rel_side :=
  first
    [ apply tick_greet_rel
    | apply setTimeout_greet_rel
    | apply setInterval_greet_rel
    | exact _
    | by (intros ?; unfold greet_rel; rewrite ?greets_cons_other by done) ].

Lemma handlePlayerLeft_greet_rel (peer : string) (m : Msg.t) :
  Msg.playerId m ≠ Some peer → preserves (greet_rel peer) (handlePlayerLeft m).
Proof.
  intros Hne. unfold_methods. destruct (Msg.playerId m) as [k|] eqn:Hk.
  - assert (k ≠ peer) by congruence.
    preserves_auto; try greet_rel_side.
    intros c. unfold greet_rel, greeted. simpl.
    repeat case_bool_decide; try done; set_solver.
  - preserves_auto; greet_rel_side.
Qed.

Lemma handleMessage_greet_rel (peer : string) (v : JSValue) :
  departure peer (SocketMessage (Some v)) = false →
  preserves (greet_rel peer) (handleMessage v).
Proof.
  intros Hd. unfold handleMessage.
  apply preserves_bind; [exact _ | preserves_auto; greet_rel_side | intros _].
  destruct v as [| |m]; [preserves_auto; greet_rel_side..|].
  destruct (Msg.action m) as [a|] eqn:Ha; [|preserves_auto; greet_rel_side].
  destruct (String.eqb a "join_game");
    [unfold_methods; preserves_auto; greet_rel_side|].
  destruct (String.eqb a "players_moved");
    [unfold_methods; preserves_auto; greet_rel_side|].
  destruct (String.eqb a "player_joined");
    [unfold_methods; preserves_auto; greet_rel_side|].
  destruct (String.eqb_spec a "player_left") as [->|];
    [|preserves_auto; greet_rel_side].
  apply handlePlayerLeft_greet_rel. simpl in Hd. rewrite Ha in Hd.
  rewrite bool_decide_eq_true_2 in Hd by done. simpl in Hd.
  by apply bool_decide_eq_false in Hd.
Qed.

Lemma handleEvent_greet_rel (peer : string) (e : Event) :
  departure peer e = false → preserves (greet_rel peer) (handleEvent e).
Proof.
  intros Hd. destruct e; cbn [handleEvent];
    try (unfold_methods; preserves_auto; greet_rel_side).
  unfold onmessage. apply preserves_try_catch; [exact _ | | intros ?; preserves_auto; greet_rel_side].
  destruct parsed as [v|]; [|preserves_auto; greet_rel_side].
  by apply handleMessage_greet_rel.
Qed.

(** The tick returns. *)
Lemma outcome_bind {A B} (m : M A) (k : A → M B) (c : GameClient) :
  outcome_of ((m ≫= k) c) =
  match outcome_of (m c) with
  | Ok a => outcome_of (k a (state_of (m c)))
  | Throw e => Throw e
  end.
Proof.
  rewrite run_bind. unfold outcome_of, state_of.
  destruct (m c) as [[[a|e] c1] t1]; [|reflexivity]. cbn.
  by destruct (k a c1) as [[r c2] t2].
Qed.

Lemma proximity_loop_returns me our ps c :
  outcome_of (for_of ps (proximity_body me our) c) = Ok tt.
Proof.
  revert c. induction ps as [|e ps IH]; intros c; [reflexivity|].
  cbn [for_of]. rewrite outcome_bind.
  destruct (proximity_body_ok me our e c) as (c1 & t1 & ->). cbn. apply IH.
Qed.

Lemma tick_returns (c : GameClient) : outcome_of (checkProximityGreetings c) = Ok tt.
Proof.
  rewrite checkProximityGreetings_run. repeat case_match; try reflexivity.
  apply proximity_loop_returns.
Qed.

(** ** Movement input *)

Lemma primary_code (held : gset string) :
  (if bool_decide ("ArrowUp" ∈ held) then "up"
   else if bool_decide ("ArrowDown" ∈ held) then "down"
   else if bool_decide ("ArrowLeft" ∈ held) then "left"
   else if bool_decide ("ArrowRight" ∈ held) then "right"
   else "stop") = primaryDirection held.
Proof.
  unfold primaryDirection, priority. cbn [list_find fst]. repeat case_bool_decide.
  all: repeat (first [rewrite decide_True by done | rewrite decide_False by done]; cbn).
  all: reflexivity.
Qed.

Lemma getPrimaryDirection_run (c : GameClient) :
  getPrimaryDirection c = (Ok (primaryDirection (activeKeys c)), c, []).
Proof. unfold getPrimaryDirection, get. by rewrite primary_code. Qed.

Lemma primaryDirection_cases (held : gset string) :
  primaryDirection held ∈ ["up"; "down"; "left"; "right"; "stop"].
Proof.
  unfold primaryDirection, priority. cbn [list_find fst].
  repeat (case_decide; cbn; [set_solver|]). set_solver.
Qed.

Lemma primaryDirection_stop (held : gset string) :
  primaryDirection held = "stop" ↔
  ∀ k, k ∈ ["ArrowUp"; "ArrowDown"; "ArrowLeft"; "ArrowRight"] → k ∉ held.
Proof.
  unfold primaryDirection, priority. cbn [list_find fst].
  repeat (case_decide; cbn; [split; [intros ?; discriminate | intros Hall; exfalso; eapply Hall; [|eassumption]; set_solver]|]).
  split; [|done]. intros _ k Hk.
  repeat (apply elem_of_cons in Hk as [->|Hk]; [done|]). by apply elem_of_nil in Hk.
Qed.

Lemma startContinuousMovement_run (c : GameClient) :
  startContinuousMovement c =
  let c1 := cancelled c in
  let direction := primaryDirection (activeKeys c) in
  if negb (String.eqb direction "") && negb (String.eqb direction "stop") then
    (Ok tt,
     with_movementInterval (Some (nextHandle c))
       (with_timers (S (nextHandle c)) (intervals c1 ++ [(nextHandle c, direction)])
          (with_isMoving true c1)),
     MoveCommand direction :: wire c direction)
  else (Ok tt, c1, []).
Proof.
  unfold startContinuousMovement, cancelled, clearInterval, setInterval, wire,
    getPrimaryDirection, sendMoveCommand, socket_send, socket_is_open.
  unfold_M. cbv zeta.
  destruct (truthy_handle (movementInterval c)); cbn -[String.eqb];
    rewrite primary_code;
    destruct (negb (String.eqb (primaryDirection (activeKeys c)) "")
              && negb (String.eqb (primaryDirection (activeKeys c)) "stop"));
    cbn -[String.eqb]; try reflexivity;
    destruct (socket c) as [[]|] eqn:Hs; cbn -[String.eqb]; rewrite ?Hs; reflexivity.
Qed.

Lemma stopContinuousMovement_run (c : GameClient) :
  stopContinuousMovement c =
  let c1 :=
    if truthy_handle (movementInterval c) then with_movementInterval None (cancelled c)
    else c in
  if isMoving c then
    (Ok tt, with_isMoving false c1, MoveCommand "stop" :: wire c "stop")
  else (Ok tt, c1, []).
Proof.
  unfold stopContinuousMovement, cancelled, clearInterval, wire,
    sendMoveCommand, socket_send, socket_is_open.
  unfold_M. cbv zeta.
  destruct (truthy_handle (movementInterval c)) eqn:Hh; cbn -[String.eqb];
    destruct (isMoving c); cbn -[String.eqb]; try reflexivity;
    destruct (socket c) as [[]|] eqn:Hs; cbn -[String.eqb]; rewrite ?Hs; reflexivity.
Qed.

Lemma handleKeyDown_run (code : string) (c : GameClient) :
  handleKeyDown code c =
  if is_arrow code then
    startContinuousMovement (with_activeKeys ({[code]} ∪ activeKeys c) c)
  else (Ok tt, c, []).
Proof.
  unfold handleKeyDown. destruct (is_arrow code); [|reflexivity].
  unfold_M. cbn.
  by destruct (startContinuousMovement (with_activeKeys ({[code]} ∪ activeKeys c) c))
    as [[r c2] t2].
Qed.

Lemma handleKeyUp_run (code : string) (c : GameClient) :
  handleKeyUp code c =
  if is_arrow code then
    let c1 := with_activeKeys (activeKeys c ∖ {[code]}) c in
    if Nat.eqb (size (activeKeys c1)) 0 then stopContinuousMovement c1
    else startContinuousMovement c1
  else (Ok tt, c, []).
Proof.
  unfold handleKeyUp. destruct (is_arrow code); [|reflexivity].
  unfold_M. cbn.
  destruct (Nat.eqb (size (activeKeys c ∖ {[code]})) 0).
  - by destruct (stopContinuousMovement _) as [[r c2] t2].
  - by destruct (startContinuousMovement _) as [[r c2] t2].
Qed.

Lemma filter_none {A} (P : A → Prop) `{!∀ x, Decision (P x)} (l : list A) :
  Forall (λ x, ¬ P x) l → filter P l = [].
Proof.
  induction 1 as [|x l Hx Hl IH]; [done|]. by rewrite filter_cons_False.
Qed.

(** With the timers in order, cancelling leaves no interval running. *)
Lemma cancelled_intervals (c : GameClient) : timers_ok c → intervals (cancelled c) = [].
Proof.
  intros [Hpos Hfresh Hone Hnd]. unfold cancelled.
  destruct (truthy_handle (movementInterval c)) eqn:Hh; cbn.
  - apply filter_none. eapply Forall_impl; [exact Hone|].
    intros x Hx Hx'. by apply Hx'.
  - destruct (intervals c) as [|e l]; [done|]. exfalso.
    apply Forall_inv in Hone, Hfresh. rewrite Hone in Hh.
    destruct (e.1); [lia | done].
Qed.

Lemma cancelled_ok (c : GameClient) :
  timers_ok c → cancelled c = with_timers (nextHandle c) [] c.
Proof.
  intros Hok. pose proof (cancelled_intervals c Hok) as Hc. unfold cancelled in *.
  destruct (truthy_handle _); cbn in Hc; [by rewrite Hc|].
  destruct c; cbn in *. by subst.
Qed.

Lemma arrows_direction (held : gset string) (k : string) :
  k ∈ held → is_arrow k = true →
  primaryDirection held ≠ "stop"
  /\ negb (String.eqb (primaryDirection held) "")
     && negb (String.eqb (primaryDirection held) "stop") = true.
Proof.
  intros Hk Harr.
  assert (primaryDirection held ≠ "stop") as Hs.
  { intros Hs. unfold is_arrow in Harr. apply bool_decide_eq_true in Harr.
    by apply (proj1 (primaryDirection_stop held) Hs k). }
  split; [done|]. pose proof (primaryDirection_cases held) as Hc.
  repeat (apply elem_of_cons in Hc as [E|Hc]; [first [by rewrite E | done]|]).
  by apply elem_of_nil in Hc.
Qed.

Lemma sent_direction_fresh (c : GameClient) (l : list (nat * string)) (h : nat) (d : string) :
  Forall (λ e, e.1 < h) l →
  sent_direction
    (with_movementInterval (Some h) (with_timers (S h) (l ++ [(h, d)]) c)) = Some d.
Proof.
  intros Hl. unfold sent_direction. cbn.
  induction l as [|e l IH]; cbn.
  - by rewrite decide_True.
  - apply Forall_cons in Hl as [He Hl]. rewrite decide_False by lia.
    specialize (IH Hl). destruct (list_find _ (l ++ [(h, d)])) as [[i [h' d']]|]; cbn in *; done.
Qed.

(** [startContinuousMovement] with some arrow held. *)
Lemma startContinuousMovement_started (c : GameClient) (k : string) :
  timers_ok c → k ∈ activeKeys c → is_arrow k = true →
  let r := startContinuousMovement c in
  let direction := primaryDirection (activeKeys c) in
  state_of r =
    with_movementInterval (Some (nextHandle c))
      (with_timers (S (nextHandle c)) [(nextHandle c, direction)] (with_isMoving true c))
  /\ trace_of r = MoveCommand direction :: wire c direction.
Proof.
  intros Hok Hk Harr. cbv zeta. rewrite startContinuousMovement_run. cbv zeta.
  rewrite (proj2 (arrows_direction _ k Hk Harr)). cbn [state_of trace_of fst snd].
  rewrite (cancelled_ok c Hok). split; [by destruct c | done].
Qed.

Lemma startContinuousMovement_ok (c : GameClient) :
  timers_ok c → activeKeys c ≠ ∅ → (∀ k, k ∈ activeKeys c → is_arrow k = true) →
  input_ok (state_of (startContinuousMovement c)).
Proof.
  intros Hok Hne Harr.
  apply set_choose_L in Hne as [k Hk].
  destruct (startContinuousMovement_started c k Hok Hk (Harr k Hk)) as [-> _].
  destruct Hok as [Hpos Hfresh Hone Hnd]. split; split; cbn.
  - lia.
  - repeat constructor; cbn; lia.
  - by repeat constructor.
  - apply NoDup_singleton.
  - done.
  - done.
  - intros _.
    exact (sent_direction_fresh (with_isMoving true c) [] (nextHandle c) _ (List.Forall_nil _)).
Qed.

(** [stopContinuousMovement] with no key held. *)
Lemma stopContinuousMovement_ok (c : GameClient) :
  timers_ok c → activeKeys c = ∅ →
  let r := stopContinuousMovement c in
  intervals (state_of r) = []
  /\ isMoving (state_of r) = false
  /\ activeKeys (state_of r) = ∅
  /\ (truthy_handle (movementInterval c) = true → movementInterval (state_of r) = None)
  /\ trace_of r = (if isMoving c then MoveCommand "stop" :: wire c "stop" else [])
  /\ input_ok (state_of r).
Proof.
  intros Hok Hkeys. cbv zeta. rewrite stopContinuousMovement_run. cbv zeta.
  rewrite (cancelled_ok c Hok).
  assert (truthy_handle (movementInterval c) = false → intervals c = []) as Hnone.
  { intros Hf. pose proof (cancelled_intervals c Hok) as Hc.
    unfold cancelled in Hc. by rewrite Hf in Hc. }
  destruct Hok as [Hpos Hfresh Hone Hnd].
  destruct (truthy_handle (movementInterval c)) eqn:Hh, (isMoving c) eqn:Hm;
    cbn [state_of trace_of fst snd]; cbn; rewrite ?Hnone by done.
  all: split_and!; try done.
  all: split; split; cbn; rewrite ?Hnone by done; try done; try constructor.
  all: intros k; rewrite Hkeys; set_solver.
Qed.

(** ** The invariants along every event *)

Lemma input_ok_bump (c : GameClient) (n : nat) :
  nextHandle c <= n → input_ok c → input_ok (with_timers n (intervals c) c).
Proof.
  intros Hn [[Hpos Hfresh Hone Hnd] [Ha Hm Hs]]. split; split; cbn; try done.
  - lia.
  - eapply Forall_impl; [exact Hfresh|]. cbn. intros; lia.
Qed.

Lemma setTimeout_input_ok : preserves (keeps input_ok) setTimeout.
Proof. intros c H. apply (input_ok_bump c (S (nextHandle c))); [lia | exact H]. Qed.

Lemma tick_input_ok : preserves (keeps input_ok) checkProximityGreetings.
Proof.
  intros c H. destruct (tick_tick_frame c) as (E & Hle & _).
  rewrite E. apply (input_ok_bump c _ Hle) in H.
  destruct H as [[Hpos Hfresh Hone Hnd] [Ha Hm Hs]]. split; split; assumption.
Qed.

Lemma handleKeyDown_input_ok code : preserves (keeps input_ok) (handleKeyDown code).
Proof.
  intros c H. rewrite handleKeyDown_run.
  destruct (is_arrow code) eqn:Hcode; [|exact H].
  destruct H as [[Hpos Hfresh Hone Hnd] [Ha Hm Hs]].
  apply startContinuousMovement_ok.
  - by split.
  - cbn. set_solver.
  - cbn. intros k [->%elem_of_singleton|Hk]%elem_of_union; auto.
Qed.

Lemma handleKeyUp_input_ok code : preserves (keeps input_ok) (handleKeyUp code).
Proof.
  intros c H. rewrite handleKeyUp_run.
  destruct (is_arrow code) eqn:Hcode; [|exact H]. cbv zeta.
  destruct H as [[Hpos Hfresh Hone Hnd] [Ha Hm Hs]].
  destruct (Nat.eqb_spec (size (activeKeys (with_activeKeys (activeKeys c ∖ {[code]}) c))) 0)
    as [Hz|Hz].
  - apply size_empty_inv in Hz. apply leibniz_equiv in Hz.
    apply stopContinuousMovement_ok; [by split | exact Hz].
  - apply startContinuousMovement_ok.
    + by split.
    + intros He. apply Hz. rewrite He. apply size_empty.
    + cbn. intros k Hk. apply Ha. set_solver.
Qed.

Ltac input_ok_side :=
  first
    [ apply tick_input_ok
    | apply setTimeout_input_ok
    | apply handleKeyDown_input_ok
    | apply handleKeyUp_input_ok
    | exact _
    | by (intros ? [[? ? ? ?] [? ? ?]]; split; split; assumption) ].

Lemma handleEvent_input_ok (e : Event) : preserves (keeps input_ok) (handleEvent e).
Proof.
  destruct e; cbn [handleEvent];
    try (apply preserves_bind; [exact _ | apply handleKeyDown_input_ok | intros ?]);
    try apply handleKeyUp_input_ok;
    unfold onmessage, handleMessage; preserves_auto; input_ok_side.
Qed.

Lemma constructor_input_ok (w h : Q) : input_ok (constructor w h).
Proof.
  split; split; cbn; try done; try constructor.
Qed.

Lemma run_keeps (P : GameClient → Prop) (es : list Event) (c : GameClient) :
  (∀ e, preserves (keeps P) (handleEvent e)) → P c → P (run es c).1.
Proof. intros H. apply (preserves_run (keeps P)). auto. Qed.

Lemma run_input_ok (es : list Event) (w h : Q) : input_ok (run es (constructor w h)).1.
Proof. apply run_keeps; [apply handleEvent_input_ok | apply constructor_input_ok]. Qed.

Lemma timers_ok_one (c : GameClient) : timers_ok c → length (intervals c) <= 1.
Proof.
  intros [Hpos Hfresh Hone Hnd].
  destruct (intervals c) as [|e1 [|e2 l]]; cbn; [lia | lia |].
  exfalso. apply Forall_cons in Hone as [H1 [H2 _]%Forall_cons].
  apply NoDup_cons in Hnd as [Hnd _]. apply Hnd.
  assert (e1.1 = e2.1) as -> by congruence. left.
Qed.

(** ** The registry *)

Lemma tick_players (c : GameClient) :
  players (state_of (checkProximityGreetings c)) = players c
  /\ playerId (state_of (checkProximityGreetings c)) = playerId c
  /\ socket (state_of (checkProximityGreetings c)) = socket c
  /\ proximityThreshold (state_of (checkProximityGreetings c)) = proximityThreshold c.
Proof. destruct (tick_tick_frame c) as (E & _). rewrite E. done. Qed.

Lemma tick_registry_ok : preserves (keeps registry_ok) checkProximityGreetings.
Proof.
  intros c H. unfold registry_ok. by rewrite (proj1 (tick_players c)).
Qed.

Ltac registry_ok_side :=
  first
    [ apply tick_registry_ok
    | exact _
    | by (intros ? H; exact H)
    | by (intros ? H; apply Map_set_wf, H)
    | by (intros ? H; apply Map_delete_wf, H) ].

Lemma handleEvent_registry_ok (e : Event) : preserves (keeps registry_ok) (handleEvent e).
Proof.
  destruct e; cbn [handleEvent]; unfold onmessage, handleMessage, setInterval, setTimeout;
    preserves_auto; registry_ok_side.
Qed.

Lemma run_registry_ok (es : list Event) (w h : Q) :
  registry_ok (run es (constructor w h)).1.
Proof. apply run_keeps; [apply handleEvent_registry_ok | apply NoDup_nil_2]. Qed.

(** ** Viewport *)

Lemma Qle_bool_false (a b : Q) : Qle_bool a b = false -> (b < a)%Q.
Proof.
  intros H. apply Qnot_le_lt. intros Hle.
  apply Qle_bool_iff in Hle. congruence.
Qed.

Lemma max_min_clamp (v hi : Q) : (Qmax 0 (Qmin v hi) == clamp v 0 hi)%Q.
Proof.
  unfold clamp.
  destruct (Qle_bool 0 hi) eqn:Hh; [apply Qle_bool_iff in Hh | apply Qle_bool_false in Hh].
  - destruct (Qle_bool v 0) eqn:Hv; [apply Qle_bool_iff in Hv | apply Qle_bool_false in Hv].
    + rewrite Q.max_l; [reflexivity|].
      pose proof (Q.le_min_l v hi). lra.
    + destruct (Qle_bool hi v) eqn:Hhv;
        [apply Qle_bool_iff in Hhv | apply Qle_bool_false in Hhv].
      * rewrite Q.min_r by assumption. rewrite Q.max_r by assumption. reflexivity.
      * rewrite Q.min_l by lra. rewrite Q.max_r by lra. reflexivity.
  - rewrite Q.max_l; [reflexivity|].
    pose proof (Q.le_min_r v hi). lra.
Qed.

Lemma updateViewport_state c :
  updateViewport c =
  (Ok tt,
   with_viewport
     (Qmax 0 (Qmin ((playerPosition c).1 - canvasWidth c / 2) (worldWidth c - canvasWidth c)),
      Qmax 0 (Qmin ((playerPosition c).2 - canvasHeight c / 2) (worldHeight c - canvasHeight c)))%Q c,
   []).
Proof. reflexivity. Qed.

(** C2: the viewport origin is the centred position clamped to the world on
    each axis, the lower bound 0 winning where the world is smaller than the
    view; with the three positions of the specification in a 2048 x 2048
    world seen through an 800 x 600 canvas. *)
Theorem updateViewport_clamps (c : GameClient) :
  let v := viewport (state_of (updateViewport c)) in
  (v.1 == clamp ((playerPosition c).1 - canvasWidth c / 2) 0 (worldWidth c - canvasWidth c)
   /\ v.2 == clamp ((playerPosition c).2 - canvasHeight c / 2) 0 (worldHeight c - canvasHeight c))%Q
  /\ (let v0 := viewport (state_of (updateViewport (camera 2048 2048 800 600 0 0))) in
      v0.1 == 0 /\ v0.2 == 0)%Q
  /\ (let v1 := viewport (state_of (updateViewport (camera 2048 2048 800 600 2048 2048))) in
      v1.1 == 1248 /\ v1.2 == 1448)%Q
  /\ (let v2 := viewport (state_of (updateViewport (camera 2048 2048 800 600 1024 1024))) in
      v2.1 == 624 /\ v2.2 == 724)%Q
  /\ (let v3 := viewport (state_of (updateViewport (camera 500 2048 800 600 1024 1024))) in
      v3.1 == 0 /\ v3.2 == 724)%Q.
Proof.
  cbv zeta. rewrite updateViewport_state. cbn [state_of viewport with_viewport fst snd].
  split; [split; apply max_min_clamp|].
  repeat split; vm_compute; reflexivity.
Qed.
Lemma run_greet_rel (peer : string) (es : list Event) (c : GameClient) :
  Forall (λ e, departure peer e = false) es →
  greet_rel peer c (run es c).1 (run es c).2.
Proof.
  intros H. apply preserves_run; [exact _|]. intros e He.
  apply handleEvent_greet_rel. by apply (proj1 (Forall_forall _ _) H).
Qed.

Lemma far_to_near_view c peer :
  far_to_near c peer = true ↔ peer_view c peer = Some (false, true).
Proof. unfold far_to_near. apply bool_decide_eq_true. Qed.

(** A tick issues the [Greet] exactly on a far-to-near transition with the
    flag unset, and sets the flag on every far-to-near transition. *)
Lemma tick_greets (peer : string) (c : GameClient) :
  registry_ok c →
  greets peer (trace_of (checkProximityGreetings c))
    = (if far_to_near c peer && negb (greeted c peer) then 1 else 0)
  /\ greeted (state_of (checkProximityGreetings c)) peer
      = greeted c peer || far_to_near c peer.
Proof.
  intros Hwf. pose proof (tick_peer c peer Hwf) as Ht. cbv zeta in Ht.
  unfold far_to_near.
  destruct (peer_view c peer) as [[[] []]|]; cbn in *;
    destruct Ht as (_ & -> & -> & _); by destruct (greeted c peer).
Qed.

Ltac by_compute := apply (bool_decide_unpack _); vm_compute; exact I.

(** C1: over any run of events without a departure of the peer, the number of
    [Greet]s for the peer plus its greeted flag before equals its greeted
    flag after, so at most one [Greet] is issued and none once the flag is
    set; and a tick issues the [Greet] exactly when it sees the peer go from
    far to near with the flag unset, setting the flag. *)
Theorem greet_once (peer : string) (es : list Event) (c : GameClient) :
  registry_ok c →
  Forall (λ e, departure peer e = false) es →
  greets peer (run es c).2 + (if greeted c peer then 1 else 0)
    = (if greeted (run es c).1 peer then 1 else 0)
  /\ greets peer (run es c).2 <= 1
  /\ greets peer (trace_of (checkProximityGreetings c))
       = (if far_to_near c peer && negb (greeted c peer) then 1 else 0)
  /\ greeted (state_of (checkProximityGreetings c)) peer
       = greeted c peer || far_to_near c peer.
Proof.
  intros Hwf Hes. pose proof (run_greet_rel peer es c Hes) as Hrel.
  unfold greet_rel in Hrel. split_and!.
  - exact Hrel.
  - destruct (greeted c peer), (greeted (run es c).1 peer); lia.
  - apply (tick_greets peer c Hwf).
  - apply (tick_greets peer c Hwf).
Qed.


Lemma greet_once_witness :
  registry_ok joined
  /\ Forall (λ e, departure "p2" e = false) approach_leave_return
  /\ (greets "p2" (run approach_leave_return joined).2
        + (if greeted joined "p2" then 1 else 0)
      = (if greeted (run approach_leave_return joined).1 "p2" then 1 else 0)
      /\ greets "p2" (run approach_leave_return joined).2 <= 1
      /\ greets "p2" (trace_of (checkProximityGreetings joined))
         = (if far_to_near joined "p2" && negb (greeted joined "p2") then 1 else 0)
      /\ greeted (state_of (checkProximityGreetings joined)) "p2"
         = greeted joined "p2" || far_to_near joined "p2").
Proof.
  assert (registry_ok joined) as Hwf by by_compute.
  assert (Forall (λ e, departure "p2" e = false) approach_leave_return) as Hes
    by (repeat constructor).
  exact (conj Hwf (conj Hes (greet_once "p2" _ joined Hwf Hes))).
Defined.

(** The scenario of the specification, run on the model. *)
Example greet_scenario :
  (run approach_leave_return joined).2 =
  [ConsoleLog "Received message:"; Greet "p2";
   SocketSend (chat "hii! nice to meet you Roger"); ConsoleLog "p2 greeted Roger!";
   ShowMessage "p2: hii! nice to meet you Roger";
   ConsoleLog "Received message:"; Farewell "p2";
   SocketSend (chat "bye Roger!"); ConsoleLog "p2 said goodbye to Roger!";
   ShowMessage "p2: bye Roger!";
   ConsoleLog "Received message:"].
Proof. vm_compute. reflexivity. Qed.

(** C6: a tick issues a [Farewell] for a peer exactly when it sees the peer
    go from near to far, whatever the greeted flag and whatever happened
    before; the peer is then recorded as far and its greeted flag is left as
    it was. *)
Theorem farewell_every_exit (peer : string) (c : GameClient) :
  registry_ok c →
  let r := checkProximityGreetings c in
  farewells peer (trace_of r) = (if near_to_far c peer then 1 else 0)
  /\ (if near_to_far c peer then
        playerProximityState (state_of r) !! peer = Some false
        /\ greeted (state_of r) peer = greeted c peer
      else True).
Proof.
  intros Hwf. pose proof (tick_peer c peer Hwf) as Ht. cbv zeta in *.
  unfold near_to_far.
  destruct (peer_view c peer) as [[[] []]|]; cbn in *;
    destruct Ht as (H1 & H2 & H3 & H4); rewrite ?H4; try done.
  rewrite H1, H2. by rewrite orb_false_r.
Qed.

Lemma farewell_every_exit_witness :
  registry_ok about_to_part
  /\ (farewells "p2" (trace_of (checkProximityGreetings about_to_part))
        = (if near_to_far about_to_part "p2" then 1 else 0)
      /\ (if near_to_far about_to_part "p2" then
            playerProximityState (state_of (checkProximityGreetings about_to_part)) !! "p2"
              = Some false
            /\ greeted (state_of (checkProximityGreetings about_to_part)) "p2"
               = greeted about_to_part "p2"
          else True)).
Proof.
  assert (registry_ok about_to_part) as Hwf by by_compute.
  split; [exact Hwf | exact (farewell_every_exit "p2" about_to_part Hwf)].
Defined.

(** Two exits, two farewells. *)
Example farewell_twice :
  farewells "p2"
    (run (approach_leave_return ++ [inbound (moved "p2" 130 0)]) joined).2 = 2.
Proof. vm_compute. reflexivity. Qed.

Example farewell_scenario :
  near_to_far about_to_part "p2" = true
  /\ greeted about_to_part "p2" = true
  /\ farewells "p2" (trace_of (checkProximityGreetings about_to_part)) = 1.
Proof. vm_compute. done. Qed.

(** C10: when a tick sees a peer go from far to near with the flag unset while
    the socket is not open, the [Greet] is issued but nothing reaches the
    socket, the flag is set all the same, and no event sequence without a
    departure of that peer issues a [Greet] for it again. *)
Theorem greet_lost_when_closed (peer : string) (c : GameClient) (es : list Event) :
  registry_ok c →
  socket_is_open c = false →
  far_to_near c peer = true →
  greeted c peer = false →
  Forall (λ e, departure peer e = false) es →
  let r := checkProximityGreetings c in
  greets peer (trace_of r) = 1
  /\ sent (trace_of r) = []
  /\ greeted (state_of r) peer = true
  /\ greets peer (run es (state_of r)).2 = 0.
Proof.
  intros Hwf Hs Hfn Hg Hes. cbv zeta.
  destruct (tick_greets peer c Hwf) as (G1 & G2).
  rewrite Hfn, Hg in G1, G2. cbn in G1, G2.
  destruct (tick_tick_frame c) as (_ & _ & Hsilent).
  destruct (Hsilent Hs) as [Hsent _].
  pose proof (run_greet_rel peer es (state_of (checkProximityGreetings c)) Hes) as Hrel.
  unfold greet_rel in Hrel.
  rewrite G2 in Hrel.
  split_and!; [done | done | done |].
  destruct (greeted (run es (state_of (checkProximityGreetings c))).1 peer); lia.
Qed.

Lemma greet_lost_when_closed_witness :
  registry_ok about_to_meet_offline
  /\ socket_is_open about_to_meet_offline = false
  /\ far_to_near about_to_meet_offline "p2" = true
  /\ greeted about_to_meet_offline "p2" = false
  /\ Forall (λ e, departure "p2" e = false) (SocketOpen :: approach_leave_return)
  /\ (greets "p2" (trace_of (checkProximityGreetings about_to_meet_offline)) = 1
      /\ sent (trace_of (checkProximityGreetings about_to_meet_offline)) = []
      /\ greeted (state_of (checkProximityGreetings about_to_meet_offline)) "p2" = true
      /\ greets "p2"
           (run (SocketOpen :: approach_leave_return)
              (state_of (checkProximityGreetings about_to_meet_offline))).2 = 0).
Proof.
  assert (registry_ok about_to_meet_offline) as Hwf by by_compute.
  assert (socket_is_open about_to_meet_offline = false) as Hs by reflexivity.
  assert (far_to_near about_to_meet_offline "p2" = true) as Hfn by (vm_compute; reflexivity).
  assert (greeted about_to_meet_offline "p2" = false) as Hg by (vm_compute; reflexivity).
  assert (Forall (λ e, departure "p2" e = false) (SocketOpen :: approach_leave_return))
    as Hes by (repeat constructor).
  exact (conj Hwf (conj Hs (conj Hfn (conj Hg (conj Hes
    (greet_lost_when_closed "p2" about_to_meet_offline _ Hwf Hs Hfn Hg Hes)))))).
Defined.

(** ** Departure *)

Lemma handlePlayerLeft_run (m : Msg.t) (peer : string) (c : GameClient) :
  Msg.playerId m = Some peer →
  state_of (handlePlayerLeft m c) = state_of (checkProximityGreetings (forget peer c))
  /\ trace_of (handlePlayerLeft m c)
     = ConsoleLog "Player left:" :: trace_of (checkProximityGreetings (forget peer c)).
Proof.
  intros Hm. unfold handlePlayerLeft, draw, forget. rewrite Hm. unfold_M. cbn.
  by destruct (checkProximityGreetings _) as [[r c'] t].
Qed.

Lemma handlePlayersMoved_one (peer : string) (p : Player.t) (c : GameClient) :
  let c2 := with_players (Map_set peer p (players c)) c in
  let c3 :=
    if bool_decide (Some peer = playerId c) then
      state_of (updateViewport (with_playerPosition (Player.x p, Player.y p) c2))
    else c2 in
  state_of (handlePlayersMoved (player_update peer p) c)
    = state_of (checkProximityGreetings c3)
  /\ trace_of (handlePlayersMoved (player_update peer p) c)
     = trace_of (checkProximityGreetings c3).
Proof.
  unfold handlePlayersMoved, draw, player_update, updateViewport.
  repeat (unfold_M; cbn [Msg.players Object_entries for_of]). cbn beta iota zeta.
  cbn [playerId with_players].
  destruct (bool_decide (Some peer = playerId c)); cbn;
    by destruct (checkProximityGreetings _) as [[r c'] t].
Qed.

Lemma peer_view_absent (c : GameClient) (peer : string) :
  Map_get peer (players c) = None → peer_view c peer = None.
Proof.
  intros H. unfold peer_view. repeat case_match; congruence.
Qed.

(** C4: after a [player_left] for a peer the registry, the greeted set and the
    proximity map hold nothing for it; a following update for the same id
    enters it afresh, recorded as far and not greeted, so that the tick run
    by the update issues a [Greet] as soon as the peer is within range. *)
Theorem departure_cleanup (peer : string) (m : Msg.t) (p : Player.t) (c : GameClient) :
  registry_ok c →
  Msg.playerId m = Some peer →
  let c1 := state_of (handlePlayerLeft m c) in
  let c2 := with_players (Map_set peer p (players c1)) c1 in
  (Map_get peer (players c1) = None
   /\ (peer ∉ Map_keys (players c1))
   /\ greeted c1 peer = false
   /\ playerProximityState c1 !! peer = None)
  /\ Map_get peer (players (state_of (handlePlayersMoved (player_update peer p) c1)))
     = Some p
  /\ greeted c2 peer = false
  /\ default false (playerProximityState c2 !! peer) = false
  /\ greets peer (trace_of (handlePlayersMoved (player_update peer p) c1))
     = (if far_to_near c2 peer then 1 else 0).
Proof.
  intros Hwf Hm. cbv zeta.
  destruct (handlePlayerLeft_run m peer c Hm) as [E _]. rewrite E. clear E.
  set (c0 := forget peer c).
  assert (registry_ok c0) as Hwf0 by (apply Map_delete_wf, Hwf).
  assert (Map_get peer (players c0) = None) as Hgone.
  { apply Map_get_None, Map_delete_not_in. }
  pose proof (tick_peer c0 peer Hwf0) as Ht. cbv zeta in Ht.
  rewrite (peer_view_absent c0 peer Hgone) in Ht. destruct Ht as (U1 & U2 & _).
  destruct (tick_players c0) as (P1 & P2 & P3 & P4).
  set (c1 := state_of (checkProximityGreetings c0)) in *.
  assert (greeted c1 peer = false) as Hg.
  { rewrite U2. unfold greeted, c0, forget. cbn. apply bool_decide_eq_false. set_solver. }
  assert (playerProximityState c1 !! peer = None) as Hp.
  { rewrite U1. unfold c0, forget. cbn. apply lookup_delete_eq. }
  assert (registry_ok c1) as Hwf1 by (unfold registry_ok; by rewrite P1).
  split; [|split_and!].
  - rewrite P1. split_and!; [done | by apply Map_get_None | done | done].
  - destruct (handlePlayersMoved_one peer p c1) as [E _]. rewrite E.
    rewrite (proj1 (tick_players _)).
    destruct (bool_decide (Some peer = playerId c1)); cbn;
      rewrite Map_get_set; by rewrite String.eqb_refl.
  - exact Hg.
  - cbn. by rewrite Hp.
  - destruct (handlePlayersMoved_one peer p c1) as [_ E]. rewrite E. clear E.
    set (c2 := with_players (Map_set peer p (players c1)) c1).
    set (c3 := if bool_decide (Some peer = playerId c1) then _ else c2).
    assert (registry_ok c3) as Hwf3.
    { unfold c3. destruct (bool_decide _); cbn; apply Map_set_wf, Hwf1. }
    assert (far_to_near c3 peer = far_to_near c2 peer) as Hv.
    { unfold c3. by destruct (bool_decide _). }
    assert (greeted c3 peer = false) as Hg3.
    { unfold c3. destruct (bool_decide _); exact Hg. }
    rewrite (proj1 (tick_greets peer c3 Hwf3)), Hv, Hg3. by rewrite andb_true_r.
Qed.

Lemma departure_cleanup_witness :
  let c := (run approach_leave_return joined).1 in
  let p := peer_at "p2" 80 0 in
  let c1 := state_of (handlePlayerLeft (departed "p2") c) in
  let c2 := with_players (Map_set "p2" p (players c1)) c1 in
  registry_ok c
  /\ Msg.playerId (departed "p2") = Some "p2"
  /\ ((Map_get "p2" (players c1) = None
       /\ ("p2" ∉ Map_keys (players c1))
       /\ greeted c1 "p2" = false
       /\ playerProximityState c1 !! "p2" = None)
      /\ Map_get "p2" (players (state_of (handlePlayersMoved (player_update "p2" p) c1)))
         = Some p
      /\ greeted c2 "p2" = false
      /\ default false (playerProximityState c2 !! "p2") = false
      /\ greets "p2" (trace_of (handlePlayersMoved (player_update "p2" p) c1))
         = (if far_to_near c2 "p2" then 1 else 0)).
Proof.
  cbv zeta.
  assert (registry_ok (run approach_leave_return joined).1) as Hwf by by_compute.
  exact (conj Hwf (conj eq_refl
    (departure_cleanup "p2" (departed "p2") (peer_at "p2" 80 0) _ Hwf eq_refl))).
Defined.

(** Greeted, gone, back within range: greeted again. *)
Example rejoin_scenario :
  greeted (run approach_leave_return joined).1 "p2" = true
  /\ greets "p2"
       (run [inbound (departed "p2"); inbound (moved "p2" 80 0)]
          (run approach_leave_return joined).1).2 = 1.
Proof. vm_compute. done. Qed.

(** ** Merging updates *)

Lemma Map_keys_set_mono {V} (k k' : string) (v : V) (m : list (string * V)) :
  k' ∈ Map_keys m → k' ∈ Map_keys (Map_set k v m).
Proof.
  rewrite Map_keys_set. case_bool_decide; [done|]. intros Hk. apply elem_of_app. by left.
Qed.

Lemma upsert_all_snoc es k v m :
  upsert_all (es ++ [(k, v)]) m = Map_set k v (upsert_all es m).
Proof. unfold upsert_all. by rewrite fold_left_app. Qed.

Lemma upsert_all_keys_mono es k m : k ∈ Map_keys m → k ∈ Map_keys (upsert_all es m).
Proof.
  revert m. induction es as [|[k' v'] es IH]; intros m H; [done|].
  cbn. apply IH. by apply Map_keys_set_mono.
Qed.

Lemma upsert_all_keys es m k : k ∈ es.*1 → k ∈ Map_keys (upsert_all es m).
Proof.
  revert m. induction es as [|[k' v'] es IH]; intros m H.
  - by apply elem_of_nil in H.
  - cbn in *. apply elem_of_cons in H as [->|H]; [|by apply IH].
    apply upsert_all_keys_mono. rewrite Map_keys_set.
    case_bool_decide; [done|]. apply elem_of_app. right. left.
Qed.

(** A write absorbs an earlier write to the same key across a batch of writes
    to keys that are all present. *)
Lemma upsert_all_absorb es k v m :
  (∀ k', k' ∈ es.*1 → k' ∈ Map_keys m) →
  Map_set k v (upsert_all es (Map_set k v m)) = Map_set k v (upsert_all es m).
Proof.
  revert m. induction es as [|[k' v'] es IH]; intros m H; cbn.
  - apply Map_set_set.
  - assert (k' ∈ Map_keys m) as Hk' by (apply H; left).
    assert (∀ k0, k0 ∈ es.*1 → k0 ∈ Map_keys (Map_set k' v' m)) as H'.
    { intros k0 Hk0. apply Map_keys_set_mono. apply H. by right. }
    destruct (decide (k = k')) as [->|Hne].
    + by rewrite Map_set_set.
    + rewrite <- (Map_set_comm k k' v v' m Hne Hk'). by apply IH.
Qed.

Lemma upsert_all_idem es m : upsert_all es (upsert_all es m) = upsert_all es m.
Proof.
  revert m. induction es as [|[k v] es IH] using rev_ind; intros m; [done|].
  rewrite !upsert_all_snoc.
  rewrite upsert_all_absorb by (intros k' Hk'; by apply upsert_all_keys).
  by rewrite IH.
Qed.

(** The loop of [handlePlayersMoved] never throws and leaves the registry
    with every entry written. *)
Lemma moved_loop_players (entries : list (string * Player.t)) (c : GameClient) :
  let body := λ '(id, player),
    modify (fun c => with_players (Map_set id player (players c)) c);;
    me ← get playerId;
    when (bool_decide (Some id = me))
      (modify (with_playerPosition (Player.x player, Player.y player));;
       updateViewport) in
  ∃ c' t, for_of entries body c = (Ok tt, c', t)
          /\ players c' = upsert_all entries (players c).
Proof.
  cbv zeta. revert c. induction entries as [|[k p] es IH]; intros c.
  - by exists c, [].
  - cbn [for_of]. rewrite run_bind.
    match goal with |- context [(?m ≫= ?f) c] => set (step := (m ≫= f) c) end.
    assert (∃ c1, step = (Ok tt, c1, []) /\ players c1 = Map_set k p (players c))
      as (c1 & -> & Hc1).
    { unfold step, updateViewport. unfold_M. cbn.
      destruct (bool_decide (Some k = playerId c)); cbn; eauto. }
    destruct (IH c1) as (c' & t & -> & Hc'). exists c', t. split; [done|].
    rewrite Hc', Hc1. done.
Qed.

Lemma handlePlayersMoved_players (m : Msg.t) (c : GameClient) :
  players (state_of (handlePlayersMoved m c)) =
  match Msg.players m with
  | Some entries => upsert_all entries (players c)
  | None => players c
  end.
Proof.
  unfold handlePlayersMoved, Object_entries.
  destruct (Msg.players m) as [entries|]; [|reflexivity].
  rewrite run_bind. cbn [mret M_ret ret]. rewrite run_bind.
  destruct (moved_loop_players entries c) as (c' & t & -> & Hc').
  cbn [state_of fst snd]. rewrite draw_run.
  pose proof (proj1 (tick_players c')) as Ht. unfold state_of in *.
  destruct (checkProximityGreetings c') as [[r c2] t2]. cbn in *. congruence.
Qed.

Lemma handlePlayersMoved_avatars (m : Msg.t) :
  preserves (unchanged avatars) (handlePlayersMoved m).
Proof.
  preserves_auto; try first [exact _ | done].
  intros c. unfold unchanged. destruct (tick_tick_frame c) as (E & _). by rewrite E.
Qed.

(** C9: applying the same [players_moved] message a second time leaves the
    registry, players and avatars, exactly as the first application left
    it. *)
Theorem merge_idempotent (m : Msg.t) (c : GameClient) :
  players (state_of (handlePlayersMoved m (state_of (handlePlayersMoved m c))))
  = players (state_of (handlePlayersMoved m c))
  /\ avatars (state_of (handlePlayersMoved m (state_of (handlePlayersMoved m c))))
     = avatars (state_of (handlePlayersMoved m c)).
Proof.
  split; [|apply handlePlayersMoved_avatars].
  rewrite !handlePlayersMoved_players.
  destruct (Msg.players m) as [entries|]; [|reflexivity].
  apply upsert_all_idem.
Qed.

(** The same record twice, on the running session. *)
Example merge_twice :
  players (run [inbound (moved "p2" 90 0); inbound (moved "p2" 90 0)] joined).1
  = players (run [inbound (moved "p2" 90 0)] joined).1.
Proof. vm_compute. reflexivity. Qed.

(** ** Edge triggering: a second tick on the same registry does nothing *)

Lemma put_proximity_same (k : string) (b : bool) (c : GameClient) :
  playerProximityState c !! k = Some b → put_proximity k b c = c.
Proof.
  intros H. unfold put_proximity. rewrite insert_id by done. by destruct c.
Qed.

Lemma proximity_loop_settled (me : string) (our : Player.t)
    (ps : list (string * Player.t)) (c : GameClient) :
  (∀ k p, (k, p) ∈ ps → k ≠ me →
     playerProximityState c !! k = Some (distance_le our p (proximityThreshold c))) →
  for_of ps (proximity_body me our) c = (Ok tt, c, []).
Proof.
  induction ps as [|[k p] ps IH]; intros H; [reflexivity|].
  cbn [for_of]. rewrite run_bind, proximity_body_run.
  assert (for_of ps (proximity_body me our) c = (Ok tt, c, [])) as Hrest.
  { apply IH. intros k' p' Hin. apply H. by right. }
  destruct (String.eqb_spec k me) as [->|Hne]; [by rewrite Hrest|].
  pose proof (H k p (list_elem_of_here _ _) Hne) as Hk.
  cbv beta iota zeta. rewrite Hk. cbn [default from_option id].
  destruct (distance_le our p (proximityThreshold c)) eqn:Hd; cbn [andb negb];
    rewrite (put_proximity_same k _ c Hk); by rewrite Hrest.
Qed.

Lemma tick_settles (c : GameClient) :
  registry_ok c →
  checkProximityGreetings (state_of (checkProximityGreetings c))
  = (Ok tt, state_of (checkProximityGreetings c), []).
Proof.
  intros Hwf. set (c1 := state_of (checkProximityGreetings c)).
  destruct (tick_players c) as (P1 & P2 & _ & P4). fold c1 in P1, P2, P4.
  rewrite checkProximityGreetings_run, P1, P2.
  destruct (truthy_id (playerId c)) as [me|] eqn:Hme; [|reflexivity].
  destruct (Map_get me (players c)) as [our|] eqn:Hour; [|reflexivity].
  apply proximity_loop_settled. intros k p Hin Hne.
  pose proof (tick_peer c k Hwf) as Ht. cbv zeta in Ht. fold c1 in Ht.
  unfold peer_view in Ht. rewrite Hme, Hour in Ht.
  destruct (String.eqb_spec k me) as [|_]; [done|].
  rewrite (Map_get_elem k p (players c) Hwf Hin) in Ht.
  rewrite P4. by destruct Ht as (-> & _).
Qed.

(** ** The whole client after the same update twice *)

Lemma moved_loop_run (es : list (string * Player.t)) (c : GameClient) :
  for_of es (λ '(id, player),
    modify (fun c => with_players (Map_set id player (players c)) c);;
    me ← get playerId;
    when (bool_decide (Some id = me))
      (modify (with_playerPosition (Player.x player, Player.y player));;
       updateViewport)) c
  = (Ok tt, fold_left moved_entry es c, []).
Proof.
  revert c. induction es as [|[k p] es IH]; intros c; [reflexivity|].
  cbn [for_of fold_left]. rewrite run_bind.
  match goal with |- context [(?m ≫= ?f) c] => set (step := (m ≫= f) c) end.
  assert (step = (Ok tt, moved_entry c (k, p), [])) as ->.
  { unfold step, moved_entry, updateViewport. unfold_M. cbn.
    destruct (bool_decide (Some k = playerId c)); reflexivity. }
  by rewrite IH.
Qed.

Lemma handlePlayersMoved_run (m : Msg.t) (es : list (string * Player.t)) (c : GameClient) :
  Msg.players m = Some es →
  state_of (handlePlayersMoved m c)
  = state_of (checkProximityGreetings (fold_left moved_entry es c)).
Proof.
  intros Hm. unfold handlePlayersMoved, Object_entries. rewrite Hm.
  rewrite run_bind. cbn [mret M_ret ret]. rewrite run_bind, moved_loop_run.
  cbn [state_of fst snd]. rewrite draw_run.
  unfold state_of. by destruct (checkProximityGreetings _) as [[r c2] t2].
Qed.

Lemma moved_entry_ticked n g p c e :
  moved_entry (ticked n g p c) e = ticked n g p (moved_entry c e).
Proof.
  unfold moved_entry, ticked. cbn.
  destruct (bool_decide (Some e.1 = playerId c)); reflexivity.
Qed.

Lemma moved_loop_ticked n g p es c :
  fold_left moved_entry es (ticked n g p c) = ticked n g p (fold_left moved_entry es c).
Proof.
  revert c. induction es as [|e es IH]; intros c; [reflexivity|].
  cbn [fold_left]. by rewrite moved_entry_ticked, IH.
Qed.

Lemma moved_loop_spec (es : list (string * Player.t)) (c : GameClient) :
  fold_left moved_entry es c =
  let camera := fold_left (moved_camera c) es (playerPosition c, viewport c) in
  with_viewport camera.2
    (with_playerPosition camera.1 (with_players (upsert_all es (players c)) c)).
Proof.
  cbv zeta. revert c. induction es as [|e es IH]; intros c.
  - by destruct c.
  - cbn [fold_left]. rewrite IH. unfold upsert_all, moved_entry, moved_camera.
    cbn [fold_left]. cbn.
    destruct (bool_decide (Some e.1 = playerId c)); reflexivity.
Qed.

Lemma fold_override {A B} (cond : B → bool) (g : B → A) (es : list B) (a : A) :
  let f := λ acc e, if cond e then g e else acc in
  fold_left f es (fold_left f es a) = fold_left f es a.
Proof.
  cbv zeta. induction es as [|e es IH] using rev_ind; [reflexivity|].
  rewrite !fold_left_app. cbn. destruct (cond e); [reflexivity | exact IH].
Qed.

Lemma moved_loop_idem (es : list (string * Player.t)) (c : GameClient) :
  fold_left moved_entry es (fold_left moved_entry es c) = fold_left moved_entry es c.
Proof.
  rewrite (moved_loop_spec es (fold_left moved_entry es c)). cbv zeta.
  rewrite (moved_loop_spec es c). cbv zeta. cbn.
  rewrite upsert_all_idem.
  set (cam := fold_left (moved_camera c) es (playerPosition c, viewport c)).
  assert (fold_left
            (moved_camera
               (with_viewport cam.2
                  (with_playerPosition cam.1
                     (with_players (upsert_all es (players c)) c))))
            es (cam.1, cam.2) = cam) as ->.
  { replace (cam.1, cam.2) with cam by (by destruct cam).
    apply (fold_override (λ e, bool_decide (Some e.1 = playerId c))
             (λ e, ((Player.x e.2, Player.y e.2),
                    viewport (state_of (updateViewport
                      (with_playerPosition (Player.x e.2, Player.y e.2) c)))))). }
  reflexivity.
Qed.

Lemma moved_loop_registry_ok es c : registry_ok c → registry_ok (fold_left moved_entry es c).
Proof.
  revert c. induction es as [|e es IH]; intros c H; [done|].
  cbn [fold_left]. apply IH. unfold moved_entry, registry_ok. cbn.
  destruct (bool_decide _); cbn; apply Map_set_wf, H.
Qed.

(** Applying the same update twice leaves the whole client as applying it
    once left it, and the second application announces nothing. *)
Lemma handlePlayersMoved_twice (m : Msg.t) (c : GameClient) :
  registry_ok c →
  state_of (handlePlayersMoved m (state_of (handlePlayersMoved m c)))
  = state_of (handlePlayersMoved m c).
Proof.
  intros Hwf. destruct (Msg.players m) as [es|] eqn:Hm.
  - rewrite !(handlePlayersMoved_run m es) by done.
    set (X := fold_left moved_entry es c).
    assert (registry_ok X) as HX by (by apply moved_loop_registry_ok).
    destruct (tick_tick_frame X) as (E & _).
    set (c1 := state_of (checkProximityGreetings X)) in *.
    change (c1 = ticked (nextHandle c1) (greetedPlayers c1) (playerProximityState c1) X) in E.
    rewrite E at 1. rewrite moved_loop_ticked. unfold X at 1. rewrite moved_loop_idem.
    fold X. rewrite <- E. unfold c1. by rewrite tick_settles.
  - unfold handlePlayersMoved, Object_entries. rewrite Hm. reflexivity.
Qed.

(** ** Malformed messages *)

Lemma join_without_roster_mutates :
  malformed (Some (JSObject join_without_roster)) = true
  /\ ¬ dropped_unchanged (constructor 800 600) (Some (JSObject join_without_roster)).
Proof.
  split; [reflexivity|]. unfold dropped_unchanged. intros H.
  apply (f_equal playerId) in H. vm_compute in H. discriminate.
Qed.

(** The two loops of [handleJoinGame]. *)
Lemma roster_loop_run (es : list (string * Player.t)) (c : GameClient) :
  for_of es (λ '(playerId, player),
    modify (fun c => with_players (Map_set playerId player (players c)) c)) c
  = (Ok tt, with_players (upsert_all es (players c)) c, []).
Proof.
  revert c. induction es as [|[k p] es IH]; intros c.
  - cbn. by destruct c.
  - cbn [for_of]. rewrite run_bind. cbn. rewrite IH. reflexivity.
Qed.

Lemma avatars_loop_run (es : list (string * Avatar.t)) (c : GameClient) :
  for_of es (λ '(avatarName, avatar),
    modify (fun c => with_avatars (<[avatarName := avatar]> (avatars c)) c)) c
  = (Ok tt, with_avatars (register_all es (avatars c)) c, []).
Proof.
  revert c. induction es as [|[k p] es IH]; intros c.
  - cbn. by destruct c.
  - cbn [for_of]. rewrite run_bind. cbn. rewrite IH. reflexivity.
Qed.

(** A [try] whose [catch] only logs lets nothing escape, whatever its body
    does. *)
Lemma try_catch_returns (body : M unit) (text : string) (c : GameClient) :
  outcome_of (try_catch body (λ _, emit (ConsoleError text)) c) = Ok tt.
Proof.
  unfold try_catch, outcome_of. destruct (body c) as [[[[]|e] c1] t1]; reflexivity.
Qed.

Lemma no_errors_app (t1 t2 : list Effect) : errors (t1 ++ t2) = errors t1 ++ errors t2.
Proof. unfold errors. apply omap_app. Qed.

Lemma proximity_loop_no_errors me our ps c :
  errors (trace_of (for_of ps (proximity_body me our) c)) = [].
Proof.
  revert c. induction ps as [|[k p] ps IH]; intros c; [reflexivity|].
  cbn [for_of]. rewrite run_bind.
  destruct (proximity_body_ok me our (k, p) c) as (c1 & t1 & E). rewrite E.
  cbn [trace_of snd fst state_of]. specialize (IH c1).
  destruct (for_of ps (proximity_body me our) c1) as [[r c2] t2].
  cbn [trace_of snd] in *. rewrite no_errors_app, IH, app_nil_r.
  apply (f_equal trace_of) in E. cbn [trace_of snd] in E. rewrite <- E.
  rewrite proximity_body_run. cbv zeta.
  destruct (String.eqb k me); [reflexivity|].
  rewrite askPlayerToGreet_run, askPlayerToSayGoodbye_run.
  repeat case_match; reflexivity.
Qed.

Lemma tick_no_errors (c : GameClient) : errors (trace_of (checkProximityGreetings c)) = [].
Proof.
  rewrite checkProximityGreetings_run. repeat case_match; try reflexivity.
  apply proximity_loop_no_errors.
Qed.

Lemma handleJoinGame_no_avatars (m : Msg.t) (roster : list (string * Player.t))
    (c : GameClient) :
  Msg.success m = true → Msg.players m = Some roster → Msg.avatars m = None →
  handleJoinGame m c
  = (Throw "TypeError",
     with_players (upsert_all roster (players c)) (with_playerId (Msg.playerId m) c), []).
Proof.
  intros Hs Hp Ha. unfold handleJoinGame, Object_entries. rewrite Hs, Hp, Ha.
  rewrite run_bind. cbn [modify]. rewrite run_bind. cbn [mret M_ret ret].
  rewrite run_bind, roster_loop_run. rewrite run_bind. reflexivity.
Qed.

Lemma handleJoinGame_no_id (m : Msg.t) (roster : list (string * Player.t))
    (definitions : list (string * Avatar.t)) (c : GameClient) :
  Msg.success m = true → Msg.players m = Some roster → Msg.avatars m = Some definitions →
  Msg.playerId m = None →
  handleJoinGame m c
  = (Ok tt,
     with_avatars (register_all definitions (avatars c))
       (with_players (upsert_all roster (players c)) (with_playerId None c)),
     [ConsoleLog "Successfully joined game as"]).
Proof.
  intros Hs Hp Ha Hi. unfold handleJoinGame, Object_entries. rewrite Hs, Hp, Ha, Hi.
  rewrite run_bind. cbn [modify]. rewrite run_bind. cbn [mret M_ret ret].
  rewrite run_bind, roster_loop_run. rewrite run_bind. cbn [mret M_ret ret].
  rewrite run_bind, avatars_loop_run. rewrite run_bind. cbn [get].
  cbn [get_ourPlayer playerId with_avatars with_players with_playerId].
  rewrite run_bind. cbn [mret M_ret ret]. rewrite run_bind. cbn [emit].
  rewrite draw_run, checkProximityGreetings_run. reflexivity.
Qed.

Lemma handlePlayerLeft_no_id (m : Msg.t) (c : GameClient) :
  Msg.playerId m = None →
  handlePlayerLeft m c
  = (Ok tt, state_of (checkProximityGreetings c),
     ConsoleLog "Player left:" :: trace_of (checkProximityGreetings c)).
Proof.
  intros Hi. unfold handlePlayerLeft. rewrite Hi.
  rewrite run_bind. cbn [mret M_ret ret]. rewrite run_bind. cbn [emit].
  rewrite draw_run. pose proof (tick_returns c) as Ho.
  unfold outcome_of, state_of, trace_of in *.
  destruct (checkProximityGreetings c) as [[o c1] t1]. cbn in *. by subst o.
Qed.

(** [onmessage] on what parsed, from the outcome of the handler. *)
Lemma logged_try (body : M unit) (c : GameClient) :
  try_catch (emit (ConsoleLog "Received message:");; body)
    (λ _, emit (ConsoleError "Error parsing message:")) c
  = match body c with
    | (Ok a, c1, t1) => (Ok a, c1, ConsoleLog "Received message:" :: t1)
    | (Throw e, c1, t1) =>
        (Ok tt, c1, ConsoleLog "Received message:" :: t1 ++ [ConsoleError "Error parsing message:"])
    end.
Proof.
  unfold try_catch. rewrite run_bind. cbn [emit].
  destruct (body c) as [[[a|e] c1] t1]; reflexivity.
Qed.

(** C7, as the code has it: a malformed message never makes the client fail,
    and what it leaves behind is decided by where the missing field is read.
    The state is untouched when the data fails to parse, parses to [null] or
    to something that is no message object, has no action, or lacks the field
    its handler reads first ([players] of [players_moved], [player] of
    [player_joined]).  A successful [join_game] keeps the writes made before
    the missing table is read: the identity (unset if [playerId] is missing),
    then the roster.  A [player_joined] without [avatar] keeps the player.
    A missing [playerId] is never dereferenced: the [join_game] is carried out
    with no identity, the [player_left] removes nothing and runs the tick.
    One error line is logged exactly when a read throws. *)
Theorem malformed_handling (parsed : option JSValue) (c : GameClient) :
  malformed parsed = true →
  let r := onmessage parsed c in
  outcome_of r = Ok tt
  /\ state_of r = kept_writes parsed c
  /\ (nothing_written parsed = true → state_of r = c)
  /\ errors (trace_of r) = (if raises parsed then ["Error parsing message:"] else []).
Proof.
  intros H. cbv zeta.
  assert (state_of (onmessage parsed c) = kept_writes parsed c
          /\ errors (trace_of (onmessage parsed c))
             = (if raises parsed then ["Error parsing message:"] else [])) as [Hs He].
  { destruct parsed as [[| |m]|]; try (split; reflexivity).
    unfold malformed, missing_required_field in H.
    unfold raises, kept_writes, onmessage, handleMessage.
    destruct (Msg.action m) as [action|]; [|split; reflexivity].
    rewrite logged_try.
    destruct (String.eqb action "join_game").
    { destruct (Msg.success m) eqn:Hs; [|discriminate H].
      destruct (Msg.players m) as [roster|] eqn:Hp.
      - destruct (Msg.avatars m) as [definitions|] eqn:Ha.
        + destruct (Msg.playerId m) as [id|] eqn:Hi; [discriminate H|].
          rewrite (handleJoinGame_no_id m roster definitions c Hs Hp Ha Hi).
          split; reflexivity.
        + rewrite (handleJoinGame_no_avatars m roster c Hs Hp Ha). split; reflexivity.
      - unfold handleJoinGame, Object_entries. rewrite Hs, Hp. split; reflexivity. }
    destruct (String.eqb action "players_moved").
    { unfold handlePlayersMoved, Object_entries.
      destruct (Msg.players m); [discriminate H|]. split; reflexivity. }
    destruct (String.eqb action "player_joined").
    { unfold handlePlayerJoined, property_of.
      destruct (Msg.player m) as [player|]; [|split; reflexivity].
      destruct (Msg.avatar m); [discriminate H|]. split; reflexivity. }
    destruct (String.eqb action "player_left"); [|discriminate H].
    destruct (Msg.playerId m) eqn:Hi; [discriminate H|].
    rewrite (handlePlayerLeft_no_id m c Hi).
    split; [reflexivity|]. cbn [trace_of snd errors omap]. apply tick_no_errors. }
  split_and!; [apply try_catch_returns | exact Hs | | exact He].
  intros Hn. rewrite Hs. clear -Hn. unfold nothing_written in Hn. unfold kept_writes.
  destruct parsed as [[| |m]|]; try reflexivity.
  destruct (Msg.action m) as [action|]; [|reflexivity].
  destruct (String.eqb action "join_game"); [discriminate Hn|].
  destruct (String.eqb action "players_moved"); [reflexivity|].
  destruct (String.eqb action "player_joined"); [|discriminate Hn].
  by destruct (Msg.player m).
Qed.

Lemma malformed_handling_witness :
  malformed (Some (JSObject join_without_avatars)) = true
  /\ (let r := onmessage (Some (JSObject join_without_avatars)) (constructor 800 600) in
      outcome_of r = Ok tt
      /\ state_of r = kept_writes (Some (JSObject join_without_avatars)) (constructor 800 600)
      /\ (nothing_written (Some (JSObject join_without_avatars)) = true →
          state_of r = constructor 800 600)
      /\ errors (trace_of r)
         = (if raises (Some (JSObject join_without_avatars))
            then ["Error parsing message:"] else [])).
Proof.
  exact (conj eq_refl
    (malformed_handling (Some (JSObject join_without_avatars)) (constructor 800 600) eq_refl)).
Defined.

(** A join without its avatars leaves us registered with ["p2"] in range and
    the tick not run; a departure that names nobody then runs it, and ["p2"]
    is greeted while no error is logged. *)
Example left_without_id_greets :
  let c := (run [SocketOpen; inbound join_without_avatars] (constructor 800 600)).1 in
  playerId c = Some "me"
  /\ Map_keys (players c) = ["me"; "p2"]
  /\ greets "p2" (trace_of (onmessage (Some (JSObject left_without_id)) c)) = 1
  /\ errors (trace_of (onmessage (Some (JSObject left_without_id)) c)) = [].
Proof. vm_compute. done. Qed.

(** A join without the assigned id is carried out and erases the identity. *)
Example join_without_id_erases :
  malformed (Some (JSObject join_without_id)) = true
  /\ playerId joined = Some "me"
  /\ playerId (state_of (onmessage (Some (JSObject join_without_id)) joined)) = None
  /\ errors (trace_of (onmessage (Some (JSObject join_without_id)) joined)) = [].
Proof. vm_compute. done. Qed.

(** ** Key events *)

Lemma holding_up_resends : ¬ keydown_edge_triggered holding_up "ArrowUp".
Proof.
  unfold keydown_edge_triggered. vm_compute. intros [H _]. discriminate H.
Qed.

Lemma wire_projections (c : GameClient) (d : string) :
  commands (wire c d) = []
  /\ sent (wire c d) = (if socket_is_open c then [move d] else []).
Proof. unfold wire. by destruct (socket_is_open c). Qed.

Lemma commands_MoveCommand (d : string) (t : list Effect) :
  commands (MoveCommand d :: t) = d :: commands t.
Proof. reflexivity. Qed.

Lemma sent_MoveCommand (d : string) (t : list Effect) :
  sent (MoveCommand d :: t) = sent t.
Proof. reflexivity. Qed.

(** C3, as the code has it: every arrow key-down cancels the running timer,
    sends one command for the recomputed direction and starts a new timer,
    whether or not that direction is the one already being sent. *)
Theorem keydown_resends (code : string) (c : GameClient) :
  timers_ok c →
  is_arrow code = true →
  let r := handleKeyDown code c in
  let direction := primaryDirection ({[code]} ∪ activeKeys c) in
  commands (trace_of r) = [direction]
  /\ sent (trace_of r) = (if socket_is_open c then [move direction] else [])
  /\ intervals (state_of r) = [(nextHandle c, direction)]
  /\ movementInterval (state_of r) = Some (nextHandle c)
  /\ (nextHandle c ∉ (intervals c).*1)
  /\ direction ≠ "stop".
Proof.
  intros Hok Hcode. cbv zeta. rewrite handleKeyDown_run, Hcode.
  set (c1 := with_activeKeys ({[code]} ∪ activeKeys c) c).
  assert (timers_ok c1) as Hok1 by (destruct Hok; by split).
  assert (code ∈ activeKeys c1) as Hin by (cbn; set_solver).
  destruct (startContinuousMovement_started c1 code Hok1 Hin Hcode) as [-> ->].
  destruct (wire_projections c1 (primaryDirection (activeKeys c1))) as [W1 W2].
  rewrite commands_MoveCommand, sent_MoveCommand, W1, W2. split_and!; try done.
  - intros Hh. apply list_elem_of_fmap in Hh as (e & He1 & He2).
    destruct Hok as [_ Hfresh _ _].
    apply (proj1 (Forall_forall _ _) Hfresh) in He2. lia.
  - apply (arrows_direction _ code Hin Hcode).
Qed.

Lemma keydown_resends_witness :
  timers_ok holding_up
  /\ is_arrow "ArrowUp" = true
  /\ (let r := handleKeyDown "ArrowUp" holding_up in
      let direction := primaryDirection ({["ArrowUp"]} ∪ activeKeys holding_up) in
      commands (trace_of r) = [direction]
      /\ sent (trace_of r) = (if socket_is_open holding_up then [move direction] else [])
      /\ intervals (state_of r) = [(nextHandle holding_up, direction)]
      /\ movementInterval (state_of r) = Some (nextHandle holding_up)
      /\ (nextHandle holding_up ∉ (intervals holding_up).*1)
      /\ direction ≠ "stop").
Proof.
  assert (timers_ok holding_up) as Hok.
  { split; vm_compute; [lia | repeat constructor; lia | by repeat constructor
                       | repeat constructor; set_solver]. }
  exact (conj Hok (conj eq_refl (keydown_resends "ArrowUp" holding_up Hok eq_refl))).
Defined.

(** The held key pressed again: the same command, a new timer. *)
Example keydown_repeat :
  sent_direction holding_up = Some "up"
  /\ intervals holding_up = [(1, "up")]
  /\ trace_of (handleKeyDown "ArrowUp" holding_up)
     = [MoveCommand "up"; SocketSend (move "up"); ConsoleLog "Sent move command:"]
  /\ intervals (state_of (handleKeyDown "ArrowUp" holding_up)) = [(2, "up")].
Proof. vm_compute. done. Qed.

Lemma run_cons_state (e : Event) (es : list Event) (c : GameClient) :
  (run (e :: es) c).1 = (run es (state_of (handleEvent e c))).1.
Proof.
  cbn. unfold dispatch. by destruct (run es (state_of (handleEvent e c))).
Qed.

Lemma sayHello_keys : preserves (unchanged activeKeys) sayHello.
Proof. unfold setTimeout. preserves_auto; first [exact _ | done]. Qed.

Lemma startContinuousMovement_keys (c : GameClient) :
  activeKeys (state_of (startContinuousMovement c)) = activeKeys c.
Proof.
  rewrite startContinuousMovement_run. cbv zeta. unfold cancelled.
  destruct (_ && _), (truthy_handle _); reflexivity.
Qed.

Lemma keydown_keys (code key : string) (c : GameClient) :
  activeKeys (state_of (handleEvent (KeyDown code key) c))
  = activeKeys c ∪ (if is_arrow code then {[code]} else ∅).
Proof.
  cbn [handleEvent]. rewrite run_bind.
  pose proof (startContinuousMovement_keys
                (with_activeKeys ({[code]} ∪ activeKeys c) c)) as Hs.
  rewrite handleKeyDown_run.
  assert (∀ c1 t1, activeKeys
     (let '(r, c2, t2) := when (String.eqb key "Enter") handleEnterKey c1
      in (r, c2, t1 ++ t2)).1.2 = activeKeys c1) as Hk.
  { intros c1 t1. destruct (String.eqb key "Enter"); [|reflexivity].
    pose proof (sayHello_keys c1) as H. unfold unchanged, state_of in H.
    unfold when, handleEnterKey. by destruct (sayHello c1) as [[r c2] t2]. }
  destruct (is_arrow code).
  - unfold state_of in *.
    destruct (startContinuousMovement _) as [[[] c1] t1]; cbn in *.
    + rewrite Hk, Hs. set_solver.
    + rewrite Hs. set_solver.
  - unfold state_of. rewrite Hk. set_solver.
Qed.

Lemma keydowns_keys (codes : list string) (c : GameClient) :
  activeKeys (run (keydowns codes) c).1
  = activeKeys c ∪ list_to_set (filter (λ k, is_arrow k = true) codes).
Proof.
  revert c. induction codes as [|k codes IH]; intros c.
  - cbn. set_solver.
  - change (keydowns (k :: codes)) with (KeyDown k k :: keydowns codes).
    rewrite run_cons_state, IH, keydown_keys, filter_cons.
    destruct (is_arrow k) eqn:Hak.
    + rewrite decide_True by done. set_solver.
    + rewrite decide_False by done. set_solver.
Qed.

Lemma sent_direction_truthy (c : GameClient) (d : string) :
  timers_ok c → sent_direction c = Some d → truthy_handle (movementInterval c) = true.
Proof.
  intros [_ Hfresh _ _] Hs. unfold sent_direction in Hs.
  destruct (movementInterval c) as [h|]; [|done].
  destruct (list_find _ _) as [[i [h' d']]|] eqn:Hf; [|done].
  apply list_find_Some in Hf as (Hi & Hh & _). cbn in Hh. subst h'.
  apply list_elem_of_lookup_2 in Hi.
  apply (proj1 (Forall_forall _ _) Hfresh) in Hi. cbn in Hi.
  destruct h; [lia | done].
Qed.

(** Releasing a held key in a state the invariants hold of. *)
Lemma handleKeyUp_held (code : string) (c : GameClient) :
  input_ok c → code ∈ activeKeys c →
  let remaining := activeKeys c ∖ {[code]} in
  let r := handleKeyUp code c in
  commands (trace_of r) = [primaryDirection remaining]
  /\ intervals (state_of r)
     = (if bool_decide (remaining = ∅) then []
        else [(nextHandle c, primaryDirection remaining)])
  /\ movementInterval (state_of r)
     = (if bool_decide (remaining = ∅) then None else Some (nextHandle c))
  /\ activeKeys (state_of r) = remaining.
Proof.
  intros [Hok [Ha Hm Hs]] Hin. cbv zeta. rewrite handleKeyUp_run, (Ha code Hin). cbv zeta.
  set (c1 := with_activeKeys (activeKeys c ∖ {[code]}) c).
  assert (timers_ok c1) as Hok1 by (destruct Hok; by split).
  assert (activeKeys c ≠ ∅) as Hne by set_solver.
  destruct (Nat.eqb_spec (size (activeKeys c1)) 0) as [Hz|Hz].
  - apply size_empty_inv in Hz. apply leibniz_equiv in Hz.
    change (activeKeys c ∖ {[code]} = ∅) in Hz.
    rewrite bool_decide_eq_true_2 by done. rewrite Hz.
    pose proof (sent_direction_truthy c _ Hok (Hs Hne)) as Htr.
    destruct (stopContinuousMovement_ok c1 Hok1 Hz) as (S1 & S2 & S3 & S4 & S5 & _).
    change (isMoving c1) with (isMoving c) in S5. rewrite (Hm Hne) in S5.
    rewrite S5, S1, (S4 Htr), S3, commands_MoveCommand.
    by rewrite (proj1 (wire_projections c1 "stop")).
  - assert (activeKeys c ∖ {[code]} ≠ ∅) as Hne1.
    { intros He. apply Hz. change (activeKeys c1) with (activeKeys c ∖ {[code]}).
      rewrite He. apply size_empty. }
    rewrite bool_decide_eq_false_2 by done.
    apply set_choose_L in Hne1 as [k Hk].
    assert (is_arrow k = true) as Hak by (apply Ha; set_solver).
    destruct (startContinuousMovement_started c1 k Hok1 Hk Hak) as [-> ->].
    rewrite commands_MoveCommand.
    by rewrite (proj1 (wire_projections c1 _)).
Qed.

(** C5: [getPrimaryDirection] returns the first held key in the order up,
    down, left, right, else stop; the held set, hence the direction, does not
    depend on the order of the key-downs; and releasing a held key in a
    reachable state sends exactly one command, for the direction of the keys
    that remain: ["stop"] with the timer cancelled when none remains. *)
Theorem direction_priority (es : list Event) (w h : Q) (code : string)
    (c0 : GameClient) (codes : list string) :
  let c := (run es (constructor w h)).1 in
  code ∈ activeKeys c →
  let remaining := activeKeys c ∖ {[code]} in
  let r := handleKeyUp code c in
  getPrimaryDirection c0 = (Ok (primaryDirection (activeKeys c0)), c0, [])
  /\ activeKeys (run (keydowns codes) c0).1
     = activeKeys c0 ∪ list_to_set (filter (λ k, is_arrow k = true) codes)
  /\ (primaryDirection {["ArrowDown"; "ArrowLeft"]} = "down"
      /\ primaryDirection {["ArrowLeft"]} = "left"
      /\ primaryDirection ∅ = "stop")
  /\ commands (trace_of r) = [primaryDirection remaining]
  /\ intervals (state_of r)
     = (if bool_decide (remaining = ∅) then []
        else [(nextHandle c, primaryDirection remaining)])
  /\ movementInterval (state_of r)
     = (if bool_decide (remaining = ∅) then None else Some (nextHandle c))
  /\ activeKeys (state_of r) = remaining.
Proof.
  intros c Hin remaining r.
  split; [apply getPrimaryDirection_run|].
  split; [apply keydowns_keys|].
  split; [by vm_compute|].
  apply handleKeyUp_held; [apply run_input_ok | exact Hin].
Qed.

(** C8: in every reachable state at most one retransmission interval is
    running, it is the one [movementInterval] refers to, and cancelling it
    (the first thing [startContinuousMovement] does) leaves none. *)
Theorem one_retransmission_timer (es : list Event) (w h : Q) :
  let c := (run es (constructor w h)).1 in
  length (intervals c) <= 1
  /\ Forall (λ e, movementInterval c = Some e.1) (intervals c)
  /\ intervals (cancelled c) = []
  /\ (∀ code key, length (intervals (dispatch (KeyDown code key) c).1) <= 1)
  /\ (∀ code, length (intervals (dispatch (KeyUp code) c).1) <= 1).
Proof.
  intros c. destruct (run_input_ok es w h) as [Hok _]. fold c in Hok.
  split_and!.
  - by apply timers_ok_one.
  - by destruct Hok.
  - by apply cancelled_intervals.
  - intros code key. apply timers_ok_one.
    apply (handleEvent_input_ok (KeyDown code key) c). apply run_input_ok.
  - intros code. apply timers_ok_one.
    apply (handleEvent_input_ok (KeyUp code) c). apply run_input_ok.
Qed.

Lemma direction_priority_witness :
  let c := (run press_down_left (constructor 800 600)).1 in
  let remaining := activeKeys c ∖ {["ArrowDown"]} in
  let r := handleKeyUp "ArrowDown" c in
  "ArrowDown" ∈ activeKeys c
  /\ (getPrimaryDirection holding_up
        = (Ok (primaryDirection (activeKeys holding_up)), holding_up, [])
      /\ activeKeys (run (keydowns ["ArrowLeft"; "ArrowDown"]) holding_up).1
         = activeKeys holding_up
           ∪ list_to_set (filter (λ k, is_arrow k = true) ["ArrowLeft"; "ArrowDown"])
      /\ (primaryDirection {["ArrowDown"; "ArrowLeft"]} = "down"
          /\ primaryDirection {["ArrowLeft"]} = "left"
          /\ primaryDirection ∅ = "stop")
      /\ commands (trace_of r) = [primaryDirection remaining]
      /\ intervals (state_of r)
         = (if bool_decide (remaining = ∅) then []
            else [(nextHandle c, primaryDirection remaining)])
      /\ movementInterval (state_of r)
         = (if bool_decide (remaining = ∅) then None else Some (nextHandle c))
      /\ activeKeys (state_of r) = remaining).
Proof.
  cbv zeta.
  assert ("ArrowDown" ∈ activeKeys (run press_down_left (constructor 800 600)).1) as Hin
    by by_compute.
  exact (conj Hin
    (direction_priority press_down_left 800 600 "ArrowDown" holding_up
       ["ArrowLeft"; "ArrowDown"] Hin)).
Defined.

(** Down and left held, down released, left released. *)
Example priority_scenario :
  commands (run (press_down_left ++ [KeyUp "ArrowDown"; KeyUp "ArrowLeft"])
              (constructor 800 600)).2
  = ["down"; "down"; "left"; "stop"]
  /\ intervals (run (press_down_left ++ [KeyUp "ArrowDown"; KeyUp "ArrowLeft"])
                  (constructor 800 600)).1 = [].
Proof. vm_compute. done. Qed.

(** * Further properties of the client *)

(** ** The camera *)

Lemma Qle_bool_true (a b : Q) : (a <= b)%Q → Qle_bool a b = true.
Proof. apply Qle_bool_iff. Qed.

Lemma clamp_camera_bounds (v hi : Q) :
  (0 <= Qmax 0 (Qmin v hi))%Q
  /\ ((0 <= hi)%Q → (Qmax 0 (Qmin v hi) <= hi)%Q).
Proof.
  split; [apply Q.le_max_l|]. intros Hhi.
  apply Q.max_lub; [exact Hhi | apply Q.le_min_r].
Qed.

(** X1: the viewport computed by [updateViewport] never has a negative
    coordinate and, on an axis where the canvas is no larger than the world,
    never shows anything beyond the far edge of the world; each axis is
    bounded on its own, whatever the sizes on the other. *)
Theorem updateViewport_in_world (c : GameClient) :
  let v := viewport (state_of (updateViewport c)) in
  (0 <= v.1)%Q
  /\ (0 <= v.2)%Q
  /\ ((canvasWidth c <= worldWidth c)%Q → (v.1 + canvasWidth c <= worldWidth c)%Q)
  /\ ((canvasHeight c <= worldHeight c)%Q → (v.2 + canvasHeight c <= worldHeight c)%Q).
Proof.
  cbv zeta. rewrite updateViewport_state.
  cbn [state_of viewport with_viewport fst snd].
  destruct (clamp_camera_bounds ((playerPosition c).1 - canvasWidth c / 2)
              (worldWidth c - canvasWidth c)) as [X1 X2].
  destruct (clamp_camera_bounds ((playerPosition c).2 - canvasHeight c / 2)
              (worldHeight c - canvasHeight c)) as [Y1 Y2].
  split_and!; [exact X1 | exact Y1 | intros Hw | intros Hh].
  - assert (0 <= worldWidth c - canvasWidth c)%Q as Hw' by lra.
    specialize (X2 Hw'). lra.
  - assert (0 <= worldHeight c - canvasHeight c)%Q as Hh' by lra.
    specialize (Y2 Hh'). lra.
Qed.

(** A world narrower than the canvas, and as high as usual: the ordinate is
    bounded all the same. *)
Lemma updateViewport_in_world_witness :
  (canvasHeight (camera 500 2048 800 600 2000 2000)
   <= worldHeight (camera 500 2048 800 600 2000 2000))%Q
  /\ (let v := viewport (state_of (updateViewport (camera 500 2048 800 600 2000 2000))) in
      (0 <= v.1)%Q
      /\ (0 <= v.2)%Q
      /\ (v.2 + canvasHeight (camera 500 2048 800 600 2000 2000)
          <= worldHeight (camera 500 2048 800 600 2000 2000))%Q).
Proof.
  assert (canvasHeight (camera 500 2048 800 600 2000 2000)
          <= worldHeight (camera 500 2048 800 600 2000 2000))%Q as Hh
    by (vm_compute; discriminate).
  pose proof (updateViewport_in_world (camera 500 2048 800 600 2000 2000)) as T.
  exact (conj Hh (conj (proj1 T) (conj (proj1 (proj2 T)) (proj2 (proj2 (proj2 T)) Hh)))).
Defined.

Lemma axis_on_screen (p view world : Q) :
  (0 <= view)%Q → (0 <= p <= world)%Q →
  let origin := Qmax 0 (Qmin (p - view / 2) (world - view)) in
  (0 <= p - origin <= view)%Q.
Proof.
  intros Hv Hp. cbv zeta.
  assert (view / 2 * 2 == view)%Q as Hhalf by field.
  set (half := (view / 2)%Q) in *.
  destruct (Q.min_spec (p - half) (world - view)) as [[Hlt Hm]|[Hle Hm]];
    destruct (Q.max_spec 0 (Qmin (p - half) (world - view))) as [[Hlt' Hx]|[Hle' Hx]];
    lra.
Qed.

(** X2: once [updateViewport] has run, a player standing at the local
    position, anywhere inside the world, passes the visibility test of
    [drawPlayer]: the local player is never culled. *)
Theorem local_player_on_screen (c : GameClient) (player : Player.t) :
  (0 <= canvasWidth c)%Q → (0 <= canvasHeight c)%Q →
  (0 <= (playerPosition c).1 <= worldWidth c)%Q →
  (0 <= (playerPosition c).2 <= worldHeight c)%Q →
  Player.x player = (playerPosition c).1 →
  Player.y player = (playerPosition c).2 →
  off_screen (state_of (updateViewport c)) player = false.
Proof.
  intros Hw Hh Hx Hy Ex Ey. rewrite updateViewport_state. unfold off_screen.
  cbn [state_of viewport with_viewport canvasWidth canvasHeight fst snd]. rewrite Ex, Ey.
  pose proof (axis_on_screen _ _ _ Hw Hx) as Ax. pose proof (axis_on_screen _ _ _ Hh Hy) as Ay.
  cbv zeta in Ax, Ay.
  rewrite !Qle_bool_true; [reflexivity | lra..].
Qed.

Lemma local_player_on_screen_witness :
  (0 <= canvasWidth (camera 2048 2048 800 600 2000 30))%Q
  /\ (0 <= canvasHeight (camera 2048 2048 800 600 2000 30))%Q
  /\ (0 <= (playerPosition (camera 2048 2048 800 600 2000 30)).1
        <= worldWidth (camera 2048 2048 800 600 2000 30))%Q
  /\ (0 <= (playerPosition (camera 2048 2048 800 600 2000 30)).2
        <= worldHeight (camera 2048 2048 800 600 2000 30))%Q
  /\ Player.x (peer_at "me" 2000 30) = (playerPosition (camera 2048 2048 800 600 2000 30)).1
  /\ Player.y (peer_at "me" 2000 30) = (playerPosition (camera 2048 2048 800 600 2000 30)).2
  /\ off_screen (state_of (updateViewport (camera 2048 2048 800 600 2000 30)))
       (peer_at "me" 2000 30) = false.
Proof.
  assert (0 <= canvasWidth (camera 2048 2048 800 600 2000 30))%Q as H1
    by (vm_compute; discriminate).
  assert (0 <= canvasHeight (camera 2048 2048 800 600 2000 30))%Q as H2
    by (vm_compute; discriminate).
  assert (0 <= (playerPosition (camera 2048 2048 800 600 2000 30)).1
          <= worldWidth (camera 2048 2048 800 600 2000 30))%Q as H3
    by (split; vm_compute; discriminate).
  assert (0 <= (playerPosition (camera 2048 2048 800 600 2000 30)).2
          <= worldHeight (camera 2048 2048 800 600 2000 30))%Q as H4
    by (split; vm_compute; discriminate).
  exact (conj H1 (conj H2 (conj H3 (conj H4 (conj eq_refl (conj eq_refl
    (local_player_on_screen _ (peer_at "me" 2000 30) H1 H2 H3 H4 eq_refl eq_refl))))))).
Defined.

(** X3: a mirrored sprite is painted where the plain one would be: whatever
    the flip, the sprite is 32 wide and 32 high, centred on the player's
    abscissa, with its upper edge 32 above the player's ordinate and its
    lower edge on it. *)
Theorem sprite_in_place (x y : Q) (flipHorizontal : bool) :
  let s := drawAvatarImage x y flipHorizontal in
  sprite_width s = 32%Q
  /\ sprite_height s = 32%Q
  /\ (screen_left s == x - 16)%Q
  /\ (screen_right s == x + 16)%Q
  /\ (sprite_y s == y - 32)%Q
  /\ (sprite_y s + sprite_height s == y)%Q
  /\ sprite_mirrored s = flipHorizontal.
Proof.
  cbv zeta. unfold drawAvatarImage, screen_left, screen_right.
  destruct flipHorizontal; cbn [sprite_x sprite_y sprite_width sprite_height sprite_mirrored];
    split_and!; try reflexivity; field.
Qed.

(** ** Distance *)

Lemma calculateDistance_squared_sym (p1 p2 : Player.t) :
  (calculateDistance_squared p1 p2 == calculateDistance_squared p2 p1)%Q.
Proof. unfold calculateDistance_squared. ring. Qed.

Lemma Qle_bool_proper (a a' b b' : Q) :
  (a == a')%Q → (b == b')%Q → Qle_bool a b = Qle_bool a' b'.
Proof.
  intros Ha Hb. destruct (Qle_bool a' b') eqn:H.
  - apply Qle_bool_iff. apply Qle_bool_iff in H. lra.
  - destruct (Qle_bool a b) eqn:H'; [|reflexivity].
    apply Qle_bool_iff in H'. assert (a' <= b')%Q as H'' by lra.
    apply Qle_bool_iff in H''. congruence.
Qed.

(** X4: being within the threshold is symmetric in the two players, and a
    player is within every threshold of itself unless the threshold is
    negative. *)
Theorem distance_le_symmetric (p1 p2 : Player.t) (threshold : Q) :
  distance_le p1 p2 threshold = distance_le p2 p1 threshold
  /\ distance_le p1 p1 threshold = Qle_bool 0 threshold.
Proof.
  unfold distance_le. split.
  - f_equal. apply Qle_bool_proper; [apply calculateDistance_squared_sym | reflexivity].
  - destruct (Qle_bool 0 threshold) eqn:Ht; [|reflexivity]. cbn [andb].
    apply Qle_bool_iff. apply Qle_bool_iff in Ht.
    unfold calculateDistance_squared. nra.
Qed.

(** X5: the boundary is inclusive: two players whose squared distance equals
    the squared threshold are within it. *)
Theorem distance_le_boundary (p1 p2 : Player.t) (threshold : Q) :
  (0 <= threshold)%Q →
  (calculateDistance_squared p1 p2 == threshold * threshold)%Q →
  distance_le p1 p2 threshold = true.
Proof.
  intros Ht He. unfold distance_le.
  rewrite (Qle_bool_true _ _ Ht). cbn [andb]. apply Qle_bool_iff. lra.
Qed.

Lemma distance_le_boundary_witness :
  (0 <= 100)%Q
  /\ (calculateDistance_squared (peer_at "me" 0 0) (peer_at "p2" 60 80) == 100 * 100)%Q
  /\ distance_le (peer_at "me" 0 0) (peer_at "p2" 60 80) 100 = true.
Proof.
  assert (0 <= 100)%Q as Ht by (vm_compute; discriminate).
  assert (calculateDistance_squared (peer_at "me" 0 0) (peer_at "p2" 60 80) == 100 * 100)%Q
    as He by (vm_compute; reflexivity).
  exact (conj Ht (conj He (distance_le_boundary _ _ _ Ht He))).
Defined.

(** Three, four, five: exactly on the threshold, hence near. *)
Example on_the_threshold :
  distance_le (peer_at "me" 0 0) (peer_at "p2" 60 80) 100 = true
  /\ distance_le (peer_at "me" 0 0) (peer_at "p2" 60 81) 100 = false.
Proof. vm_compute. done. Qed.
(** ** The transport *)

Lemma run_app (es1 es2 : list Event) (c : GameClient) :
  run (es1 ++ es2) c
  = ((run es2 (run es1 c).1).1, (run es1 c).2 ++ (run es2 (run es1 c).1).2).
Proof.
  revert c. induction es1 as [|e es1 IH]; intros c.
  - cbn. by destruct (run es2 c).
  - cbn [app run]. destruct (dispatch e c) as [c1 t1]. rewrite IH.
    destruct (run es1 c1) as [c2 t2]. cbn [fst snd]. by rewrite app_assoc.
Qed.

Ltac unfold_callers :=
  unfold handleKeyDown, handleKeyUp, handleEnterKey, sayHello, startContinuousMovement,
    stopContinuousMovement, getPrimaryDirection, showMessage,
    onopen, onclose, onerror, joinGame, interval_callback,
    onmessage, handleMessage, handleJoinGame, handlePlayersMoved, handlePlayerJoined,
    handlePlayerLeft, Object_entries, property_of, draw, updateViewport, clearInterval.

(** As [preserves_auto], with the given lemmas tried on each computation
    before it is unfolded. *)
Ltac preserves_with leaf :=
  repeat (first [leaf | preserves_step | progress cbv beta iota | progress unfold_callers]).

#[export] Instance silent_stepwise : Stepwise silent.
Proof.
  split; unfold silent.
  - intros c H. by split.
  - intros c1 c2 c3 t1 t2 H1 H2 H. destruct (H1 H) as [S1 O1].
    destruct (H2 O1) as [S2 O2]. by rewrite sent_app, S1, S2.
Qed.

Lemma socket_send_silent (m : Outbound) : preserves silent (socket_send m).
Proof.
  intros c H. unfold socket_send, socket_is_open in *. unfold_M.
  destruct (socket c) as [[]|] eqn:Hs; cbn; rewrite ?Hs; done.
Qed.

Lemma sendMoveCommand_silent (d : string) : preserves silent (sendMoveCommand d).
Proof.
  intros c H. rewrite sendMoveCommand_run. cbn. rewrite H. by split.
Qed.

Lemma tick_silent : preserves silent checkProximityGreetings.
Proof.
  intros c H. destruct (tick_tick_frame c) as (E & _ & S). destruct (S H) as [S1 _].
  split; [exact S1|]. unfold socket_is_open. by rewrite (proj1 (proj2 (proj2 (tick_players c)))).
Qed.

Ltac silent_leaf :=
  first
    [ apply socket_send_silent
    | apply sendMoveCommand_silent
    | apply tick_silent ].

Ltac silent_side :=
  first
    [ exact _
    | by (intros ? H; split; [reflexivity | first [exact H | reflexivity]]) ].

Lemma handleEvent_silent (e : Event) : opens e = false → preserves silent (handleEvent e).
Proof.
  intros He. destruct e; try discriminate He; cbn [handleEvent];
    unfold setTimeout, setInterval; preserves_with silent_leaf; silent_side.
Qed.

(** X6: while the socket is not open nothing reaches it, whatever events
    arrive short of its opening: commands and greetings issued meanwhile are
    discarded, not queued, so that when the socket does open the only thing
    sent is the [join_game] request. *)
Theorem nothing_sent_while_closed (es : list Event) (c : GameClient) :
  socket_is_open c = false →
  Forall (λ e, opens e = false) es →
  sent (run es c).2 = []
  /\ socket_is_open (run es c).1 = false
  /\ sent (run (es ++ [SocketOpen]) c).2 = [join_game "Roger"].
Proof.
  intros Hc Hes.
  assert (silent c (run es c).1 (run es c).2) as Hs.
  { apply preserves_run; [exact _|]. intros e He. apply handleEvent_silent.
    by apply (proj1 (Forall_forall _ _) Hes). }
  destruct (Hs Hc) as [S1 S2]. split_and!; [done | done |].
  rewrite run_app. cbn [snd]. rewrite sent_app, S1. reflexivity.
Qed.

Lemma nothing_sent_while_closed_witness :
  socket_is_open (constructor 800 600) = false
  /\ Forall (λ e, opens e = false) early_events
  /\ (sent (run early_events (constructor 800 600)).2 = []
      /\ socket_is_open (run early_events (constructor 800 600)).1 = false
      /\ sent (run (early_events ++ [SocketOpen]) (constructor 800 600)).2
         = [join_game "Roger"]).
Proof.
  assert (Forall (λ e, opens e = false) early_events) as Hes by (repeat constructor).
  exact (conj eq_refl (conj Hes
    (nothing_sent_while_closed early_events (constructor 800 600) eq_refl Hes))).
Defined.

(** What was issued and lost before the socket opened. *)
Example lost_before_open :
  commands (run early_events (constructor 800 600)).2 = ["up"; "up"; "stop"]
  /\ greets "p2" (run early_events (constructor 800 600)).2 = 1.
Proof. vm_compute. done. Qed.

#[export] Instance relayed_stepwise : Stepwise relayed.
Proof.
  split; unfold relayed.
  - intros c H. by split.
  - intros c1 c2 c3 t1 t2 H1 H2 H. destruct (H1 H) as [O1 S1].
    destruct (H2 O1) as [O2 S2].
    split; [done|]. unfold moves in *. by rewrite sent_app, omap_app, commands_app, S1, S2.
Qed.

Lemma socket_send_relayed (m : Outbound) :
  moves [m] = [] → preserves relayed (socket_send m).
Proof.
  intros Hm c H. unfold socket_send, socket_is_open in *. unfold_M.
  destruct (socket c) as [[]|] eqn:Hs; try discriminate H. cbn. by rewrite Hs.
Qed.

Lemma sendMoveCommand_relayed (d : string) : preserves relayed (sendMoveCommand d).
Proof.
  intros c H. rewrite sendMoveCommand_run. cbn. rewrite H. by split.
Qed.

Lemma proximity_body_relayed me our entry :
  preserves relayed (proximity_body me our entry).
Proof.
  destruct entry as [k p]. intros c H. rewrite proximity_body_run.
  destruct (String.eqb k me); [by split|]. cbv zeta.
  rewrite askPlayerToGreet_run, askPlayerToSayGoodbye_run, H.
  destruct (distance_le our p (proximityThreshold c)),
    (default false (playerProximityState c !! k)), (greeted c k); by split.
Qed.

Lemma tick_relayed : preserves relayed checkProximityGreetings.
Proof.
  intros c. rewrite checkProximityGreetings_run.
  repeat case_match; try apply step_nil.
  apply preserves_for_of; [exact _|]. intros. apply proximity_body_relayed.
Qed.

Ltac relayed_leaf :=
  first
    [ apply socket_send_relayed; reflexivity
    | apply sendMoveCommand_relayed
    | apply tick_relayed ].

Ltac relayed_side :=
  first
    [ exact _
    | by (intros ? H; split; [first [exact H | reflexivity] | reflexivity]) ].

Lemma handleEvent_relayed (e : Event) : closes e = false → preserves relayed (handleEvent e).
Proof.
  intros He. destruct e; try discriminate He; cbn [handleEvent];
    unfold setTimeout, setInterval; preserves_with relayed_leaf; relayed_side.
Qed.

(** X7: while the socket is open and no event closes it, the [move] messages
    that reach the socket are exactly the commands issued, in order. *)
Theorem moves_relayed_while_open (es : list Event) (c : GameClient) :
  socket_is_open c = true →
  Forall (λ e, closes e = false) es →
  moves (sent (run es c).2) = commands (run es c).2
  /\ socket_is_open (run es c).1 = true.
Proof.
  intros Hc Hes.
  assert (relayed c (run es c).1 (run es c).2) as Hs.
  { apply preserves_run; [exact _|]. intros e He. apply handleEvent_relayed.
    by apply (proj1 (Forall_forall _ _) Hes). }
  destruct (Hs Hc) as [S1 S2]. by split.
Qed.

Lemma moves_relayed_while_open_witness :
  socket_is_open joined = true
  /\ Forall (λ e, closes e = false) (tl press_down_left ++ approach_leave_return)
  /\ (moves (sent (run (tl press_down_left ++ approach_leave_return) joined).2)
      = commands (run (tl press_down_left ++ approach_leave_return) joined).2
      /\ socket_is_open (run (tl press_down_left ++ approach_leave_return) joined).1 = true).
Proof.
  assert (Forall (λ e, closes e = false) (tl press_down_left ++ approach_leave_return))
    as Hes by (repeat constructor).
  exact (conj eq_refl (conj Hes (moves_relayed_while_open _ joined eq_refl Hes))).
Defined.
(** ** What the handlers never do *)

#[export] Instance avatars_kept_stepwise : Stepwise avatars_kept.
Proof. split; unfold avatars_kept; eauto. Qed.

Lemma tick_avatars (c : GameClient) :
  avatars (state_of (checkProximityGreetings c)) = avatars c
  /\ viewport (state_of (checkProximityGreetings c)) = viewport c
  /\ playerPosition (state_of (checkProximityGreetings c)) = playerPosition c
  /\ canvasWidth (state_of (checkProximityGreetings c)) = canvasWidth c
  /\ canvasHeight (state_of (checkProximityGreetings c)) = canvasHeight c.
Proof. destruct (tick_tick_frame c) as (E & _). rewrite E. done. Qed.

Lemma tick_avatars_kept : preserves avatars_kept checkProximityGreetings.
Proof. intros c name. by rewrite (proj1 (tick_avatars c)). Qed.

Ltac avatars_kept_side :=
  first
    [ apply tick_avatars_kept
    | exact _
    | by (intros ? ? H; exact H)
    | by (intros ? name H; cbn; rewrite lookup_insert; case_decide; [eauto | exact H]) ].

Lemma handleEvent_avatars_kept (e : Event) : preserves avatars_kept (handleEvent e).
Proof.
  destruct e; cbn [handleEvent]; unfold onmessage, handleMessage, setTimeout, setInterval;
    preserves_auto; avatars_kept_side.
Qed.

(** X8: the avatar registry is additive: an avatar that is registered stays
    registered through every sequence of events (it may be overwritten by a
    later definition of the same name, never removed). *)
Theorem avatars_never_removed (es : list Event) (c : GameClient) (name : string) :
  is_Some (avatars c !! name) → is_Some (avatars (run es c).1 !! name).
Proof.
  apply (preserves_run avatars_kept). intros e _. apply handleEvent_avatars_kept.
Qed.

Lemma avatars_never_removed_witness :
  is_Some (avatars joined !! "knight")
  /\ is_Some (avatars (run (inbound (departed "p2") :: approach_leave_return) joined).1
               !! "knight").
Proof.
  assert (is_Some (avatars joined !! "knight")) as H by (vm_compute; eauto).
  exact (conj H (avatars_never_removed _ joined "knight" H)).
Defined.

Lemma tick_camera :
  preserves (unchanged (λ c, (viewport c, playerPosition c))) checkProximityGreetings.
Proof.
  intros c. unfold unchanged. destruct (tick_avatars c) as (_ & -> & -> & _). done.
Qed.

Ltac camera_side :=
  first [ apply tick_camera | exact _ | by (intros ?; reflexivity) ].

(** X9: only an inbound message can move the camera: key events, timers,
    clicks, socket state changes and even a resize of the window leave both
    the local position and the viewport as they were. *)
Theorem camera_moved_by_messages_only (e : Event) (c : GameClient) :
  is_message e = false →
  viewport (dispatch e c).1 = viewport c
  /\ playerPosition (dispatch e c).1 = playerPosition c.
Proof.
  intros He.
  assert (preserves (unchanged (λ c, (viewport c, playerPosition c))) (handleEvent e)) as H.
  { destruct e; try discriminate He; cbn [handleEvent]; unfold setTimeout, setInterval;
      preserves_auto; camera_side. }
  specialize (H c). unfold unchanged in H. cbn [dispatch fst]. by injection H.
Qed.

Lemma camera_moved_by_messages_only_witness :
  is_message (Resize 300 200) = false
  /\ (viewport (dispatch (Resize 300 200) joined).1 = viewport joined
      /\ playerPosition (dispatch (Resize 300 200) joined).1 = playerPosition joined).
Proof.
  exact (conj eq_refl (camera_moved_by_messages_only (Resize 300 200) joined eq_refl)).
Defined.

(** ** Exceptions *)

Lemma sayHello_returns (c : GameClient) : outcome_of (sayHello c) = Ok tt.
Proof.
  unfold sayHello, showMessage, socket_send, setTimeout, socket_is_open. unfold_M.
  destruct (socket c) as [[]|] eqn:Hs; cbn; rewrite ?Hs; reflexivity.
Qed.

Lemma startContinuousMovement_returns (c : GameClient) :
  outcome_of (startContinuousMovement c) = Ok tt.
Proof. rewrite startContinuousMovement_run. cbv zeta. by destruct (_ && _). Qed.

Lemma stopContinuousMovement_returns (c : GameClient) :
  outcome_of (stopContinuousMovement c) = Ok tt.
Proof. rewrite stopContinuousMovement_run. cbv zeta. by destruct (isMoving c). Qed.

Lemma onmessage_returns (parsed : option JSValue) (c : GameClient) :
  outcome_of (onmessage parsed c) = Ok tt.
Proof. apply try_catch_returns. Qed.

(** X10: no listener lets an exception escape, save the two that call [draw]
    outside any [try] (the window's [resize] and the world map's [onload]),
    of which nothing is claimed: in every state, every socket, key, click and
    timer event is handled to its end; whatever is thrown while a message is
    handled, in whichever handler, is caught and logged by [onmessage]. *)
Theorem handlers_never_throw (e : Event) (c : GameClient) :
  repaints e = false →
  outcome_of (handleEvent e c) = Ok tt.
Proof.
  intros He. destruct e; try discriminate He; cbn [handleEvent]; try reflexivity.
  - apply onmessage_returns.
  - rewrite outcome_bind, handleKeyDown_run.
    destruct (is_arrow code); [rewrite startContinuousMovement_returns|cbn [outcome_of fst]];
      (destruct (String.eqb key "Enter"); [apply sayHello_returns | reflexivity]).
  - rewrite handleKeyUp_run. destruct (is_arrow code); [|reflexivity]. cbv zeta.
    destruct (Nat.eqb _ 0);
      [apply stopContinuousMovement_returns | apply startContinuousMovement_returns].
  - unfold interval_callback. rewrite outcome_bind. cbn.
    destruct (list_find _ _) as [[i [h d]]|]; [|reflexivity].
    by rewrite sendMoveCommand_run.
Qed.

Lemma handlers_never_throw_witness :
  repaints (SocketMessage (Some JSNull)) = false
  /\ outcome_of (handleEvent (SocketMessage (Some JSNull)) joined) = Ok tt.
Proof.
  exact (conj eq_refl (handlers_never_throw (SocketMessage (Some JSNull)) joined eq_refl)).
Defined.

(** Inside [handleMessage] things do go wrong. *)
Example handleMessage_throws :
  outcome_of (handleMessage JSNull joined) = Throw "TypeError"
  /\ outcome_of (handleMessage (JSObject (player_joined (peer_at "p3" 30 0) knight))
                   joined) = Ok tt.
Proof. vm_compute. done. Qed.

(** ** Idle and moving *)

Lemma handleKeyDown_moving_ok code : preserves (keeps moving_ok) (handleKeyDown code).
Proof.
  intros c [Hin Hidle]. split; [by apply handleKeyDown_input_ok|].
  rewrite handleKeyDown_run. destruct (is_arrow code); [|exact Hidle].
  intros He. rewrite startContinuousMovement_keys in He. cbn in He. set_solver.
Qed.

Lemma handleKeyUp_moving_ok code : preserves (keeps moving_ok) (handleKeyUp code).
Proof.
  intros c [Hin Hidle]. split; [by apply handleKeyUp_input_ok|].
  rewrite handleKeyUp_run. destruct (is_arrow code); [|exact Hidle]. cbv zeta.
  set (c1 := with_activeKeys (activeKeys c ∖ {[code]}) c).
  assert (timers_ok c1) as Hok1 by (destruct Hin as [[] _]; by split).
  destruct (Nat.eqb_spec (size (activeKeys c1)) 0) as [Hz|Hz].
  - apply size_empty_inv in Hz. apply leibniz_equiv in Hz.
    destruct (stopContinuousMovement_ok c1 Hok1 Hz) as (S1 & S2 & _). by intros _.
  - intros He. rewrite startContinuousMovement_keys in He.
    exfalso. apply Hz. rewrite He. apply size_empty.
Qed.

Lemma moving_ok_bump (c : GameClient) (n : nat) :
  nextHandle c <= n → moving_ok c → moving_ok (with_timers n (intervals c) c).
Proof. intros Hn [Hin Hidle]. split; [by apply input_ok_bump | exact Hidle]. Qed.

Lemma setTimeout_moving_ok : preserves (keeps moving_ok) setTimeout.
Proof. intros c H. apply (moving_ok_bump c (S (nextHandle c))); [lia | exact H]. Qed.

Lemma tick_moving_ok : preserves (keeps moving_ok) checkProximityGreetings.
Proof.
  intros c H. destruct (tick_tick_frame c) as (E & Hle & _).
  rewrite E. apply (moving_ok_bump c _ Hle) in H.
  destruct H as [[[Hpos Hfresh Hone Hnd] [Ha Hm Hs]] Hidle].
  split; [split; split; assumption | exact Hidle].
Qed.

Ltac moving_ok_side :=
  first
    [ apply tick_moving_ok
    | apply setTimeout_moving_ok
    | exact _
    | by (intros ? [[[? ? ? ?] [? ? ?]] Hidle];
          (split; [split; split; assumption | exact Hidle])) ].

Lemma handleEvent_moving_ok (e : Event) : preserves (keeps moving_ok) (handleEvent e).
Proof.
  destruct e; cbn [handleEvent];
    try (apply preserves_bind; [exact _ | apply handleKeyDown_moving_ok | intros ?]);
    try apply handleKeyUp_moving_ok;
    unfold onmessage, handleMessage; preserves_auto; moving_ok_side.
Qed.

Lemma run_moving_ok (es : list Event) (w h : Q) : moving_ok (run es (constructor w h)).1.
Proof.
  apply run_keeps; [apply handleEvent_moving_ok|].
  split; [apply constructor_input_ok | by intros _].
Qed.

Lemma moving_ok_interval (c : GameClient) :
  moving_ok c → activeKeys c ≠ ∅ →
  ∃ h, movementInterval c = Some h
       /\ intervals c = [(h, primaryDirection (activeKeys c))].
Proof.
  intros [[Hok [Ha Hm Hs]] _] Hne. specialize (Hs Hne).
  pose proof (timers_ok_one c Hok) as Hlen.
  unfold sent_direction in Hs. destruct (movementInterval c) as [h|]; [|done].
  exists h. split; [done|].
  destruct (intervals c) as [|[h' d'] [|e2 l]]; cbn in *; [done | | lia].
  case_decide as Hh; [|done]. cbn in *. by simplify_eq.
Qed.

(** X11: the controller is idle or moving, nothing in between: in every
    reachable state [isMoving] is set exactly when some arrow key is held;
    then exactly one interval runs, re-sending the primary direction of the
    held keys, and otherwise none runs; the callback of the running interval
    commands that direction and a stale handle commands nothing. *)
Theorem idle_or_moving (es : list Event) (w h : Q) (handle : nat) :
  let c := (run es (constructor w h)).1 in
  isMoving c = negb (bool_decide (activeKeys c = ∅))
  /\ (intervals c).*2
     = (if bool_decide (activeKeys c = ∅) then [] else [primaryDirection (activeKeys c)])
  /\ commands (trace_of (interval_callback handle c))
     = (if bool_decide (Some handle = movementInterval c)
           && negb (bool_decide (activeKeys c = ∅))
        then [primaryDirection (activeKeys c)] else []).
Proof.
  intros c. pose proof (run_moving_ok es w h) as Hok. fold c in Hok.
  assert (∀ d, commands (trace_of (sendMoveCommand d c)) = [d]) as Hsend.
  { intros d. rewrite sendMoveCommand_run. cbn [trace_of snd].
    rewrite commands_MoveCommand. by destruct (socket_is_open c). }
  case_bool_decide as Hkeys.
  - destruct Hok as [_ Hidle]. destruct (Hidle Hkeys) as [Hi Hm].
    rewrite Hm, Hi, andb_false_r. split_and!; try done.
    unfold interval_callback. unfold_M. cbn. by rewrite Hi.
  - destruct (moving_ok_interval c Hok Hkeys) as (h0 & Hh0 & Hi).
    destruct Hok as [[_ [_ Hm _]] _]. rewrite (Hm Hkeys), Hi, Hh0, andb_true_r.
    split_and!; try done.
    unfold interval_callback. rewrite run_bind. cbn.
    rewrite Hi. cbn. case_decide as Hd; case_bool_decide as Hb; try congruence; cbn.
    + specialize (Hsend (primaryDirection (activeKeys c))).
      unfold trace_of in Hsend.
      by destruct (sendMoveCommand _ c) as [[r c2] t2].
    + done.
Qed.

(** Down and left are held: one interval, sending down. *)
Example moving_down :
  (intervals (run press_down_left (constructor 800 600)).1).*2 = ["down"]
  /\ isMoving (run press_down_left (constructor 800 600)).1 = true
  /\ commands (trace_of (interval_callback 1 (run press_down_left (constructor 800 600)).1))
     = [].
Proof. vm_compute. done. Qed.
(** ** The proximity engine and the registry *)

Lemma known_ok_frame (c c' : GameClient) :
  players c' = players c → greetedPlayers c' = greetedPlayers c →
  playerProximityState c' = playerProximityState c → known_ok c → known_ok c'.
Proof. unfold known_ok. intros -> -> ->. done. Qed.

Lemma proximity_body_known (me : string) (our : Player.t) (k : string) (p : Player.t)
    (ps : list (string * Player.t)) :
  (k, p) ∈ ps →
  preserves (keeps (λ c, players c = ps /\ known_ok c)) (proximity_body me our (k, p)).
Proof.
  intros Hin c [Hps [Hg Hp]].
  assert (k ∈ Map_keys (players c)) as Hk.
  { rewrite Hps. apply list_elem_of_fmap. by exists (k, p). }
  rewrite proximity_body_run. destruct (String.eqb k me); [done|]. cbv zeta.
  rewrite askPlayerToGreet_run, askPlayerToSayGoodbye_run.
  destruct (distance_le our p (proximityThreshold c)),
    (default false (playerProximityState c !! k)), (greeted c k), (socket_is_open c);
    cbn; (split; [done|]); split; cbn.
  all: try (intros k' Hk'; apply elem_of_union in Hk' as [->%elem_of_singleton|Hk']; auto).
  all: try (intros k' Hk'; rewrite lookup_insert in Hk'; case_decide; subst; auto).
  all: auto.
Qed.

Lemma tick_known : preserves (keeps known_ok) checkProximityGreetings.
Proof.
  intros c H. rewrite checkProximityGreetings_run.
  destruct (truthy_id (playerId c)) as [me|]; [|exact H].
  destruct (Map_get me (players c)) as [our|]; [|exact H].
  apply (preserves_for_of (keeps (λ c0, players c0 = players c /\ known_ok c0))
           (players c) (proximity_body me our)).
  - intros [k p] Hin. by apply proximity_body_known.
  - by split.
Qed.

Lemma forget_known (peer : string) (c : GameClient) : known_ok c → known_ok (forget peer c).
Proof.
  intros [Hg Hp]. split; intros k Hk.
  - change (k ∈ greetedPlayers c ∖ {[peer]}) in Hk.
    change (k ∈ Map_keys (Map_delete peer (players c))).
    rewrite Map_keys_delete. apply list_elem_of_filter.
    split; [set_solver | apply Hg; set_solver].
  - change (is_Some (delete peer (playerProximityState c) !! k)) in Hk.
    change (k ∈ Map_keys (Map_delete peer (players c))).
    rewrite lookup_delete in Hk. case_decide as Hd; [by destruct Hk|].
    rewrite Map_keys_delete. apply list_elem_of_filter. split; [congruence | by apply Hp].
Qed.

Lemma handlePlayerLeft_known (m : Msg.t) : preserves (keeps known_ok) (handlePlayerLeft m).
Proof.
  intros c H. destruct (Msg.playerId m) as [peer|] eqn:Hm.
  - rewrite (proj1 (handlePlayerLeft_run m peer c Hm)).
    apply tick_known, forget_known, H.
  - unfold handlePlayerLeft. rewrite Hm.
    assert (preserves (keeps known_ok)
              (mret tt;; emit (ConsoleLog "Player left:");; draw)) as Hp.
    { preserves_auto; first [apply tick_known | exact _ | by (intros ? H'; exact H')]. }
    by apply Hp.
Qed.

Ltac known_side :=
  first
    [ apply tick_known
    | exact _
    | by (intros ? H; exact H)
    | by (intros ? [Hg Hp]; split; cbn; intros k Hk;
          apply Map_keys_set_mono; auto) ].

Lemma handleEvent_known (e : Event) : preserves (keeps known_ok) (handleEvent e).
Proof.
  destruct e; cbn [handleEvent]; unfold setTimeout, setInterval;
    try (preserves_auto; known_side).
  unfold onmessage. apply preserves_try_catch; [exact _ | | intros ?; preserves_auto; known_side].
  destruct parsed as [v|]; [|preserves_auto; known_side].
  unfold handleMessage.
  apply preserves_bind; [exact _ | preserves_auto; known_side | intros _].
  destruct v as [| |m]; [preserves_auto; known_side..|].
  destruct (Msg.action m) as [a|]; [|preserves_auto; known_side].
  repeat (match goal with |- preserves _ (if ?b then _ else _) => destruct b end);
    try apply handlePlayerLeft_known; unfold_methods; preserves_auto; known_side.
Qed.

(** X12: the proximity engine only ever knows registered players: in every
    reachable state each greeted id, and each id with a stored near or far
    state, is an id of the registry. *)
Theorem proximity_state_is_registered (es : list Event) (w h : Q) (k : string) :
  let c := (run es (constructor w h)).1 in
  (k ∈ greetedPlayers c ∨ is_Some (playerProximityState c !! k)) →
  k ∈ Map_keys (players c).
Proof.
  intros c Hk.
  assert (known_ok c) as [Hg Hp].
  { apply run_keeps; [apply handleEvent_known|]. split; cbn; intros k0 Hk0.
    - set_solver.
    - rewrite lookup_empty in Hk0. by destruct Hk0. }
  destruct Hk; auto.
Qed.

Lemma proximity_state_is_registered_witness :
  ("p2" ∈ greetedPlayers (run whole_session (constructor 800 600)).1
   ∨ is_Some (playerProximityState (run whole_session (constructor 800 600)).1 !! "p2"))
  /\ "p2" ∈ Map_keys (players (run whole_session (constructor 800 600)).1).
Proof.
  assert ("p2" ∈ greetedPlayers (run whole_session (constructor 800 600)).1
          ∨ is_Some (playerProximityState (run whole_session (constructor 800 600)).1
                       !! "p2")) as H by (left; by_compute).
  exact (conj H (proximity_state_is_registered whole_session 800 600 "p2" H)).
Defined.

(** X13: a tick never addresses the local player: it issues neither a
    [Greet] nor a [Farewell] for the local id and stores no proximity state
    and no greeted flag for it. *)
Theorem tick_skips_self (c : GameClient) (me : string) :
  playerId c = Some me →
  let r := checkProximityGreetings c in
  greets me (trace_of r) = 0
  /\ farewells me (trace_of r) = 0
  /\ playerProximityState (state_of r) !! me = playerProximityState c !! me
  /\ greeted (state_of r) me = greeted c me.
Proof.
  intros Hme. cbv zeta.
  assert (untouched me c (state_of (checkProximityGreetings c))
            (trace_of (checkProximityGreetings c))) as (U1 & U2 & U3 & U4).
  { rewrite checkProximityGreetings_run, Hme.
    destruct (truthy_id (Some me)) as [me'|] eqn:Ht; [|apply step_nil].
    assert (me' = me) as -> by (destruct me; cbn in Ht; congruence).
    destruct (Map_get me (players c)) as [our|]; [|apply step_nil].
    apply proximity_loop_untouched. by right. }
  done.
Qed.

Lemma tick_skips_self_witness :
  playerId about_to_part = Some "me"
  /\ (let r := checkProximityGreetings about_to_part in
      greets "me" (trace_of r) = 0
      /\ farewells "me" (trace_of r) = 0
      /\ playerProximityState (state_of r) !! "me" = playerProximityState about_to_part !! "me"
      /\ greeted (state_of r) "me" = greeted about_to_part "me").
Proof. exact (conj eq_refl (tick_skips_self about_to_part "me" eq_refl)). Defined.

(** X14: the engine is edge-triggered: a tick that follows a tick, with the
    registry unchanged in between, issues nothing, sends nothing and leaves
    the client exactly as it found it. *)
Theorem tick_edge_triggered (c : GameClient) :
  registry_ok c →
  let c1 := state_of (checkProximityGreetings c) in
  state_of (checkProximityGreetings c1) = c1
  /\ trace_of (checkProximityGreetings c1) = [].
Proof. intros Hwf. cbv zeta. by rewrite (tick_settles c Hwf). Qed.

Lemma tick_edge_triggered_witness :
  registry_ok about_to_part
  /\ (let c1 := state_of (checkProximityGreetings about_to_part) in
      state_of (checkProximityGreetings c1) = c1
      /\ trace_of (checkProximityGreetings c1) = []).
Proof.
  assert (registry_ok about_to_part) as Hwf by by_compute.
  exact (conj Hwf (tick_edge_triggered about_to_part Hwf)).
Defined.

Lemma handlePlayersMoved_trace (m : Msg.t) (es : list (string * Player.t)) (c : GameClient) :
  Msg.players m = Some es →
  trace_of (handlePlayersMoved m c)
  = trace_of (checkProximityGreetings (fold_left moved_entry es c)).
Proof.
  intros Hm. unfold handlePlayersMoved, Object_entries. rewrite Hm.
  rewrite run_bind. cbn [mret M_ret ret]. rewrite run_bind, moved_loop_run.
  cbn [state_of fst snd]. rewrite draw_run.
  unfold trace_of. by destruct (checkProximityGreetings _) as [[r c2] t2].
Qed.

Lemma moved_loop_after_tick (es : list (string * Player.t)) (c : GameClient) :
  let c1 := state_of (checkProximityGreetings (fold_left moved_entry es c)) in
  fold_left moved_entry es c1 = c1.
Proof.
  cbv zeta. set (X := fold_left moved_entry es c).
  destruct (tick_tick_frame X) as (E & _).
  set (c1 := state_of (checkProximityGreetings X)) in *.
  change (c1 = ticked (nextHandle c1) (greetedPlayers c1) (playerProximityState c1) X) in E.
  rewrite E at 1. rewrite moved_loop_ticked. unfold X at 1. rewrite moved_loop_idem.
  fold X. by rewrite <- E.
Qed.

(** X15: a [players_moved] message applied a second time changes nothing at
    all: the whole client, camera and proximity state included, is as the
    first application left it, and the second application issues no [Greet]
    and no [Farewell] and sends nothing. *)
Theorem update_twice_changes_nothing (m : Msg.t) (c : GameClient) (peer : string) :
  registry_ok c →
  let c1 := state_of (handlePlayersMoved m c) in
  state_of (handlePlayersMoved m c1) = c1
  /\ greets peer (trace_of (handlePlayersMoved m c1)) = 0
  /\ farewells peer (trace_of (handlePlayersMoved m c1)) = 0
  /\ sent (trace_of (handlePlayersMoved m c1)) = [].
Proof.
  intros Hwf. cbv zeta. split; [by apply handlePlayersMoved_twice|].
  destruct (Msg.players m) as [es|] eqn:Hm.
  - rewrite (handlePlayersMoved_trace m es _ Hm).
    rewrite (handlePlayersMoved_run m es c Hm).
    rewrite moved_loop_after_tick.
    rewrite (tick_settles _ (moved_loop_registry_ok es c Hwf)). done.
  - unfold handlePlayersMoved, Object_entries. rewrite Hm. done.
Qed.

Lemma update_twice_changes_nothing_witness :
  registry_ok joined
  /\ (let c1 := state_of (handlePlayersMoved (moved "p2" 90 0) joined) in
      state_of (handlePlayersMoved (moved "p2" 90 0) c1) = c1
      /\ greets "p2" (trace_of (handlePlayersMoved (moved "p2" 90 0) c1)) = 0
      /\ farewells "p2" (trace_of (handlePlayersMoved (moved "p2" 90 0) c1)) = 0
      /\ sent (trace_of (handlePlayersMoved (moved "p2" 90 0) c1)) = []).
Proof.
  assert (registry_ok joined) as Hwf by by_compute.
  exact (conj Hwf (update_twice_changes_nothing (moved "p2" 90 0) joined "p2" Hwf)).
Defined.
(** ** Merging rosters and updates *)

Lemma last_entry_snoc {V} (k k' : string) (v : V) (es : list (string * V)) :
  last_entry k (es ++ [(k', v)]) = if String.eqb k k' then Some v else last_entry k es.
Proof. unfold last_entry. by rewrite reverse_snoc. Qed.

Lemma upsert_all_get (es : list (string * Player.t)) (m : list (string * Player.t))
    (k : string) :
  Map_get k (upsert_all es m)
  = match last_entry k es with
    | Some p => Some p
    | None => Map_get k m
    end.
Proof.
  induction es as [|[k' p'] es IH] using rev_ind; [reflexivity|].
  rewrite upsert_all_snoc, Map_get_set, last_entry_snoc.
  by destruct (String.eqb k k').
Qed.

Lemma Map_set_prefix {V} (k : string) (v : V) (m : list (string * V)) :
  Map_keys m `prefix_of` Map_keys (Map_set k v m).
Proof.
  rewrite Map_keys_set. case_bool_decide; [done|]. by apply prefix_app_r.
Qed.

Lemma upsert_all_prefix (es : list (string * Player.t)) (m : list (string * Player.t)) :
  Map_keys m `prefix_of` Map_keys (upsert_all es m).
Proof.
  induction es as [|[k' p'] es IH] using rev_ind; [done|].
  rewrite upsert_all_snoc. etrans; [exact IH | apply Map_set_prefix].
Qed.

(** X16: a [players_moved] message merges into the registry record by
    record: afterwards an id holds the last record the message gives for it,
    an id the message does not mention holds what it held before, and the
    ids that were registered keep their places in the iteration order, new
    ones being added behind them. *)
Theorem update_merges (m : Msg.t) (es : list (string * Player.t)) (c : GameClient)
    (k : string) :
  Msg.players m = Some es →
  let merged := players (state_of (handlePlayersMoved m c)) in
  Map_get k merged
  = match last_entry k es with
    | Some p => Some p
    | None => Map_get k (players c)
    end
  /\ Map_keys (players c) `prefix_of` Map_keys merged.
Proof.
  intros Hm. cbv zeta. rewrite handlePlayersMoved_players, Hm.
  split; [apply upsert_all_get | apply upsert_all_prefix].
Qed.

Lemma update_merges_witness :
  Msg.players we_moved = Some [("me", peer_at "me" 10 10); ("p3", peer_at "p3" 500 500);
                               ("me", peer_at "me" 700 650)]
  /\ (let merged := players (state_of (handlePlayersMoved we_moved joined)) in
      Map_get "p2" merged
      = match last_entry "p2" [("me", peer_at "me" 10 10); ("p3", peer_at "p3" 500 500);
                               ("me", peer_at "me" 700 650)] with
        | Some p => Some p
        | None => Map_get "p2" (players joined)
        end
      /\ Map_keys (players joined) `prefix_of` Map_keys merged).
Proof. exact (conj eq_refl (update_merges we_moved _ joined "p2" eq_refl)). Defined.

Lemma moved_camera_last (c : GameClient) (es : list (string * Player.t))
    (a : (Q * Q) * (Q * Q)) :
  fold_left (moved_camera c) es a
  = match own_entry c es with
    | Some p =>
        ((Player.x p, Player.y p),
         viewport (state_of (updateViewport (with_playerPosition (Player.x p, Player.y p) c))))
    | None => a
    end.
Proof.
  unfold own_entry. induction es as [|[k p] es IH] using rev_ind.
  - by destruct (playerId c).
  - rewrite fold_left_app. cbn [fold_left]. rewrite IH. unfold moved_camera. cbn [fst snd].
    destruct (playerId c) as [me|]; [|by rewrite bool_decide_eq_false_2].
    rewrite last_entry_snoc. destruct (String.eqb_spec me k) as [->|Hne].
    + by rewrite bool_decide_eq_true_2.
    + rewrite bool_decide_eq_false_2 by congruence. done.
Qed.

(** X17: the camera follows the local player's record and nothing else:
    after a [players_moved] message the local position is that of the last
    record the message gives for the local id, with the viewport recomputed
    from it, and a message without such a record leaves position and
    viewport alone. *)
Theorem camera_follows_own_record (m : Msg.t) (es : list (string * Player.t))
    (c : GameClient) :
  Msg.players m = Some es →
  let c' := state_of (handlePlayersMoved m c) in
  (playerPosition c', viewport c')
  = match own_entry c es with
    | Some p =>
        ((Player.x p, Player.y p),
         viewport (state_of (updateViewport (with_playerPosition (Player.x p, Player.y p) c))))
    | None => (playerPosition c, viewport c)
    end.
Proof.
  intros Hm. cbv zeta. rewrite (handlePlayersMoved_run m es c Hm).
  destruct (tick_avatars (fold_left moved_entry es c)) as (_ & -> & -> & _).
  rewrite moved_loop_spec. cbv zeta. cbn [playerPosition viewport with_viewport
    with_playerPosition with_players].
  rewrite moved_camera_last. by destruct (own_entry c es).
Qed.

Lemma camera_follows_own_record_witness :
  Msg.players we_moved = Some [("me", peer_at "me" 10 10); ("p3", peer_at "p3" 500 500);
                               ("me", peer_at "me" 700 650)]
  /\ (let c' := state_of (handlePlayersMoved we_moved joined) in
      (playerPosition c', viewport c')
      = match own_entry joined [("me", peer_at "me" 10 10); ("p3", peer_at "p3" 500 500);
                                ("me", peer_at "me" 700 650)] with
        | Some p =>
            ((Player.x p, Player.y p),
             viewport (state_of (updateViewport
               (with_playerPosition (Player.x p, Player.y p) joined))))
        | None => (playerPosition joined, viewport joined)
        end).
Proof. exact (conj eq_refl (camera_follows_own_record we_moved _ joined eq_refl)). Defined.

(** We end up at the last of our two records. *)
Example we_moved_twice :
  playerPosition (state_of (handlePlayersMoved we_moved joined)) = (700, 650)%Q
  /\ Map_keys (players (state_of (handlePlayersMoved we_moved joined))) = ["me"; "p2"; "p3"].
Proof. vm_compute. done. Qed.
(** ** Joining *)

Lemma handleJoinGame_run (m : Msg.t) (roster : list (string * Player.t))
    (definitions : list (string * Avatar.t)) (c : GameClient) :
  Msg.success m = true → Msg.players m = Some roster → Msg.avatars m = Some definitions →
  let c1 := after_join (Msg.playerId m) roster definitions c in
  handleJoinGame m c
  = (Ok tt, state_of (checkProximityGreetings c1),
     ConsoleLog "Successfully joined game as" :: trace_of (checkProximityGreetings c1)).
Proof.
  intros Hs Hp Ha. cbv zeta. unfold handleJoinGame, Object_entries, draw, after_join.
  rewrite Hs, Hp, Ha.
  rewrite run_bind. cbn [modify]. rewrite run_bind. cbn [mret M_ret ret].
  rewrite run_bind, roster_loop_run. rewrite run_bind. cbn [mret M_ret ret].
  rewrite run_bind, avatars_loop_run. rewrite run_bind. cbn [get].
  set (c1 := with_avatars _ _).
  change (get_ourPlayer (with_avatars (register_all definitions (avatars c))
            (with_players (upsert_all roster (players c))
               (with_playerId (Msg.playerId m) c))))
    with (get_ourPlayer c1).
  destruct (get_ourPlayer c1) as [our|]; unfold updateViewport; unfold_M; cbn;
    unfold state_of, trace_of;
    match goal with |- context [checkProximityGreetings ?x] =>
      pose proof (tick_returns x) as Ht; unfold outcome_of in Ht;
      destruct (checkProximityGreetings x) as [[r c2] t2] end;
    cbn in *; by subst.
Qed.

Lemma after_join_ourPlayer id roster definitions c :
  get_ourPlayer (after_join id roster definitions c)
  = match id with
    | Some me => Map_get me (upsert_all roster (players c))
    | None => None
    end.
Proof.
  unfold after_join.
  set (c1 := with_avatars _ _).
  assert (get_ourPlayer c1
          = match id with Some me => Map_get me (upsert_all roster (players c)) | None => None end)
    as E by reflexivity.
  rewrite <- E. by destruct (get_ourPlayer c1).
Qed.

(** X18: a well-formed successful [join_game] answer makes the assigned id
    the local identity, merges the roster into the registry without dropping
    what was there, and puts the camera on the record the merged registry
    holds for the new identity; when there is no such record, position and
    viewport stay as they were. *)
Theorem join_adopts_identity (m : Msg.t) (roster : list (string * Player.t))
    (definitions : list (string * Avatar.t)) (c : GameClient) (k : string) :
  Msg.success m = true →
  Msg.players m = Some roster →
  Msg.avatars m = Some definitions →
  let c' := state_of (handleJoinGame m c) in
  playerId c' = Msg.playerId m
  /\ Map_get k (players c')
     = match last_entry k roster with
       | Some p => Some p
       | None => Map_get k (players c)
       end
  /\ (playerPosition c', viewport c')
     = match get_ourPlayer c' with
       | Some ourPlayer =>
           ((Player.x ourPlayer, Player.y ourPlayer),
            viewport (state_of (updateViewport
              (with_playerPosition (Player.x ourPlayer, Player.y ourPlayer) c))))
       | None => (playerPosition c, viewport c)
       end.
Proof.
  intros Hs Hp Ha. cbv zeta. rewrite (handleJoinGame_run m roster definitions c Hs Hp Ha).
  cbn [state_of fst snd].
  set (c1 := after_join (Msg.playerId m) roster definitions c).
  destruct (tick_players c1) as (P1 & P2 & _). destruct (tick_avatars c1) as (_ & V & P & _).
  fold (state_of (checkProximityGreetings c1)).
  assert (get_ourPlayer (state_of (checkProximityGreetings c1)) = get_ourPlayer c1) as Hour.
  { unfold get_ourPlayer. by rewrite P1, P2. }
  rewrite Hour, P1, P2, V, P. pose proof (after_join_ourPlayer (Msg.playerId m) roster
    definitions c) as Ho. fold c1 in Ho.
  unfold c1, after_join in *.
  set (c0 := with_avatars _ _) in *.
  assert (get_ourPlayer c0
          = match Msg.playerId m with
            | Some me => Map_get me (upsert_all roster (players c))
            | None => None
            end) as E0 by reflexivity.
  destruct (get_ourPlayer c0) as [our|] eqn:Hc0.
  - split_and!; [reflexivity | apply upsert_all_get |].
    cbn. rewrite <- E0 in Ho. cbn in Ho. by rewrite Ho.
  - split_and!; [reflexivity | apply upsert_all_get |].
    by rewrite Ho, <- E0.
Qed.

Lemma join_adopts_identity_witness :
  Msg.success roster = true
  /\ Msg.players roster = Some [("me", peer_at "me" 0 0); ("p2", peer_at "p2" 150 0)]
  /\ Msg.avatars roster = Some [("knight", knight)]
  /\ (let c' := state_of (handleJoinGame roster (constructor 800 600)) in
      playerId c' = Msg.playerId roster
      /\ Map_get "p2" (players c')
         = match last_entry "p2" [("me", peer_at "me" 0 0); ("p2", peer_at "p2" 150 0)] with
           | Some p => Some p
           | None => Map_get "p2" (players (constructor 800 600))
           end
      /\ (playerPosition c', viewport c')
         = match get_ourPlayer c' with
           | Some ourPlayer =>
               ((Player.x ourPlayer, Player.y ourPlayer),
                viewport (state_of (updateViewport
                  (with_playerPosition (Player.x ourPlayer, Player.y ourPlayer)
                     (constructor 800 600)))))
           | None => (playerPosition (constructor 800 600), viewport (constructor 800 600))
           end).
Proof.
  exact (conj eq_refl (conj eq_refl (conj eq_refl
    (join_adopts_identity roster _ _ (constructor 800 600) "p2" eq_refl eq_refl eq_refl)))).
Defined.

(** ** Arrivals and departures *)

Lemma handlePlayerJoined_run (m : Msg.t) (p : Player.t) (a : Avatar.t) (c : GameClient) :
  Msg.player m = Some p → Msg.avatar m = Some a →
  state_of (handlePlayerJoined m c)
    = state_of (checkProximityGreetings (after_player_joined p a c))
  /\ trace_of (handlePlayerJoined m c)
     = ConsoleLog "Player joined:"
       :: trace_of (checkProximityGreetings (after_player_joined p a c)).
Proof.
  intros Hp Ha. unfold handlePlayerJoined, property_of, draw, after_player_joined.
  rewrite Hp, Ha. unfold_M. cbn.
  by destruct (checkProximityGreetings _) as [[r c'] t].
Qed.

Lemma run_known_ok (es : list Event) (w h : Q) : known_ok (run es (constructor w h)).1.
Proof.
  apply run_keeps; [apply handleEvent_known|]. split; cbn; intros k0 Hk0.
  - set_solver.
  - rewrite lookup_empty in Hk0. by destruct Hk0.
Qed.

Lemma Map_set_length_new {V} (k : string) (v : V) (m : list (string * V)) :
  Map_get k m = None → length (Map_set k v m) = S (length m).
Proof.
  induction m as [|[k' v'] m IH]; cbn; [done|].
  destruct (String.eqb k k'); [done|]. intros H. cbn. by rewrite IH.
Qed.

(** X19: a newcomer is registered and met at once: when [player_joined]
    announces an id the registry of a reachable state does not hold, the
    registry grows by exactly that record, the avatar is registered, and the
    tick run by the handler issues a [Greet] for the newcomer exactly when it
    stands within the threshold of the local player. *)
Theorem newcomer_registered_and_met (es : list Event) (w h : Q) (m : Msg.t)
    (p : Player.t) (a : Avatar.t) :
  let c := (run es (constructor w h)).1 in
  Msg.player m = Some p →
  Msg.avatar m = Some a →
  Map_get (Player.id p) (players c) = None →
  let c' := state_of (handlePlayerJoined m c) in
  Map_get (Player.id p) (players c') = Some p
  /\ length (players c') = S (length (players c))
  /\ avatars c' !! Avatar.name a = Some a
  /\ greets (Player.id p) (trace_of (handlePlayerJoined m c))
     = (if far_to_near (after_player_joined p a c) (Player.id p) then 1 else 0).
Proof.
  intros c Hp Ha Hnew. cbv zeta.
  destruct (handlePlayerJoined_run m p a c Hp Ha) as [-> ->].
  set (c2 := after_player_joined p a c).
  destruct (tick_players c2) as (P1 & _). destruct (tick_avatars c2) as (A1 & _).
  rewrite P1, A1.
  assert (registry_ok c2) as Hwf2.
  { apply Map_set_wf. apply run_registry_ok. }
  assert (greeted c2 (Player.id p) = false) as Hg.
  { apply bool_decide_eq_false. intros Hin.
    apply (proj1 (run_known_ok es w h)) in Hin. by apply Map_get_None in Hnew. }
  split_and!.
  - unfold c2, after_player_joined. cbn. by rewrite Map_get_set, String.eqb_refl.
  - unfold c2, after_player_joined. cbn. by apply Map_set_length_new.
  - unfold c2, after_player_joined. cbn. apply lookup_insert_eq.
  - rewrite greets_cons_other by done.
    rewrite (proj1 (tick_greets (Player.id p) c2 Hwf2)), Hg. by rewrite andb_true_r.
Qed.

Lemma newcomer_registered_and_met_witness :
  Msg.player p3_arrives = Some (peer_at "p3" 30 0)
  /\ Msg.avatar p3_arrives = Some knight
  /\ Map_get (Player.id (peer_at "p3" 30 0))
       (players (run whole_session (constructor 800 600)).1) = None
  /\ (let c := (run whole_session (constructor 800 600)).1 in
      let c' := state_of (handlePlayerJoined p3_arrives c) in
      Map_get (Player.id (peer_at "p3" 30 0)) (players c') = Some (peer_at "p3" 30 0)
      /\ length (players c') = S (length (players c))
      /\ avatars c' !! Avatar.name knight = Some knight
      /\ greets (Player.id (peer_at "p3" 30 0)) (trace_of (handlePlayerJoined p3_arrives c))
         = (if far_to_near (after_player_joined (peer_at "p3" 30 0) knight c)
                 (Player.id (peer_at "p3" 30 0)) then 1 else 0)).
Proof.
  assert (Map_get (Player.id (peer_at "p3" 30 0))
            (players (run whole_session (constructor 800 600)).1) = None) as Hnew
    by (vm_compute; reflexivity).
  exact (conj eq_refl (conj eq_refl (conj Hnew
    (newcomer_registered_and_met whole_session 800 600 p3_arrives _ _ eq_refl eq_refl Hnew)))).
Defined.

(** Announced 30 away: greeted in the same message. *)
Example p3_greeted_on_arrival :
  greets "p3" (run [inbound p3_arrives] (run whole_session (constructor 800 600)).1).2 = 1.
Proof. vm_compute. reflexivity. Qed.

Lemma Map_delete_absent {V} (k : string) (m : list (string * V)) :
  Map_get k m = None → Map_delete k m = m.
Proof.
  induction m as [|[k' v'] m IH]; cbn; [done|].
  destruct (String.eqb k k'); [done|]. intros H. by rewrite IH.
Qed.

(** X20: a departure notice for a player the client does not hold is
    harmless: in a reachable state it leaves the registry, the greeted set
    and the proximity map untouched and amounts to one more tick. *)
Theorem unknown_departure_is_a_tick (es : list Event) (w h : Q) (m : Msg.t) (peer : string) :
  let c := (run es (constructor w h)).1 in
  Msg.playerId m = Some peer →
  Map_get peer (players c) = None →
  state_of (handlePlayerLeft m c) = state_of (checkProximityGreetings c)
  /\ trace_of (handlePlayerLeft m c)
     = ConsoleLog "Player left:" :: trace_of (checkProximityGreetings c).
Proof.
  intros c Hm Hnew.
  destruct (handlePlayerLeft_run m peer c Hm) as [-> ->].
  assert (forget peer c = c) as ->; [|done].
  destruct (run_known_ok es w h) as [Hg Hp]. fold c in Hg, Hp.
  assert (peer ∉ Map_keys (players c)) as Hout by (by apply Map_get_None).
  unfold forget. rewrite (Map_delete_absent peer (players c) Hnew).
  assert (greetedPlayers c ∖ {[peer]} = greetedPlayers c) as ->.
  { apply set_eq. intros k. split; [set_solver|].
    intros Hk. apply elem_of_difference. split; [done|].
    intros ->%elem_of_singleton. apply Hout. by apply Hg. }
  rewrite delete_id.
  - by destruct c.
  - destruct (playerProximityState c !! peer) eqn:E; [|done].
    exfalso. apply Hout, Hp. by rewrite E.
Qed.

Lemma unknown_departure_is_a_tick_witness :
  Msg.playerId stranger_left = Some "nobody"
  /\ Map_get "nobody" (players (run whole_session (constructor 800 600)).1) = None
  /\ (let c := (run whole_session (constructor 800 600)).1 in
      state_of (handlePlayerLeft stranger_left c) = state_of (checkProximityGreetings c)
      /\ trace_of (handlePlayerLeft stranger_left c)
         = ConsoleLog "Player left:" :: trace_of (checkProximityGreetings c)).
Proof.
  assert (Map_get "nobody" (players (run whole_session (constructor 800 600)).1) = None)
    as Hnew by (vm_compute; reflexivity).
  exact (conj eq_refl (conj Hnew
    (unknown_departure_is_a_tick whole_session 800 600 stranger_left "nobody" eq_refl Hnew))).
Defined.
